(** * FastDTW: a shallow embedding of the solver, the window expander and
      the recursive driver, and the properties checked against them.

    Sources embedded here:
    - [src/fastdtw/_fastdtw.pyx]  (module [Cy]: C++ map, unsigned cell
      indices, numpy fast paths, validation of [dist]);
    - [src/unnamed/part_001]      (module [P1]: C++ map, unsigned cell indices);
    - [src/unnamed/part_000]      (module [P0]: C++ map, signed cell indices);
    - [src/fastdtw/fastdtw.pyx]   (module [Py]: Python defaultdict).

    Modelling conventions.
    - A C [double] is a rational or +infinity ([double]); rounding is not
      modelled.  Sequences are one-dimensional: [list Q].
    - A C [int] is a mathematical integer ([Z]); signed overflow is undefined
      in C and outside the model.  Where a variant declares the cell indices
      [unsigned int] the values handed to Python go through [as_unsigned].
    - An element read outside the bounds of a sequence is an error
      ([OutOfRange]): the files compiled with [boundscheck=False] read
      unchecked memory there, the file without the directive raises
      IndexError.
    - A recursion that never reaches its base case is [Diverge]. *)

From Stdlib Require Import ZArith QArith Qabs Lia List.
From stdpp Require Import gmap list sorting.

Local Open Scope Z_scope.

(** ** C doubles without rounding *)

Inductive double : Type :=
  | Fin (q : Q)
  | Inf.

Definition Qltb (a b : Q) : bool :=
  (Qnum a * QDen b <? Qnum b * QDen a)%Z.

(** [a < b] on doubles *)
Definition dbl_lt (a b : double) : bool :=
  match a, b with
  | Fin p, Fin q => Qltb p q
  | Fin _, Inf => true
  | Inf, _ => false
  end.

(** [a + dt] for a finite [dt] *)
Definition dbl_add (a : double) (dt : Q) : double :=
  match a with
  | Fin p => Fin (p + dt)%Q
  | Inf => Inf
  end.

(** [a <= b], used in statements only *)
Definition dbl_le (a b : double) : Prop :=
  match a, b with
  | Fin p, Fin q => (p <= q)%Q
  | _, Inf => True
  | Inf, Fin _ => False
  end.

(** ** Outcomes of a call *)

Inductive error : Type :=
  | ValueError      (* raised by the argument validation of fastdtw *)
  | TypeError       (* calling a [dist] that is a number *)
  | IndexError      (* a checked lookup that fails *)
  | OutOfRange.     (* an element read outside a sequence *)

Inductive outcome (A : Type) : Type :=
  | Ok (a : A)
  | Err (e : error)
  | Diverge.
Arguments Ok {A} a.
Arguments Err {A} e.
Arguments Diverge {A}.

Definition bind {A B} (m : outcome A) (k : A -> outcome B) : outcome B :=
  match m with
  | Ok a => k a
  | Err e => Err e
  | Diverge => Diverge
  end.

Notation "'let*' x ':=' m 'in' k" := (bind m (fun x => k))
  (at level 10, x pattern, m at level 100, k at level 200).

Abbreviation cell := (Z * Z)%type.
Abbreviation path_t := (list (Z * Z)).
Definition result : Type := outcome (double * path_t).

(** ** Sequences *)

Definition len (x : list Q) : Z := Z.of_nat (length x).

(** [x[i]] where neither wrap-around nor a bounds check applies *)
Definition item (x : list Q) (i : Z) : outcome Q :=
  if (0 <=? i) && (i <? len x)
  then match nth_error x (Z.to_nat i) with
       | Some a => Ok a
       | None => Err OutOfRange
       end
  else Err OutOfRange.

(** [x[i]] with Python's semantics: a negative index counts from the end *)
Definition py_item (x : list Q) (i : Z) : outcome Q :=
  let k := if i <? 0 then i + len x else i in
  if (0 <=? k) && (k <? len x)
  then match nth_error x (Z.to_nat k) with
       | Some a => Ok a
       | None => Err IndexError
       end
  else Err IndexError.

(** [range(lo, hi)] *)
Definition zrange (lo hi : Z) : list Z := seqZ lo (hi - lo).

(** [[(i, j) for i in range(len_x) for j in range(len_y)]] *)
Definition grid (len_x len_y : Z) : list cell :=
  flat_map (fun i => map (fun j => (i, j)) (zrange 0 len_y)) (zrange 0 len_x).

(** the value Python receives for an [unsigned int] expression whose [int]
    image is [z] *)
Definition as_unsigned (z : Z) : Z :=
  if z <? 0 then z + 4294967296 else z.

(** the default distance [abs(a - b)] *)
Definition abs_dist (a b : Q) : Q := Qabs (a - b).

(** ** __reduce_by_half

    [[(x[i] + x[1+i]) / 2 for i in range(0, len(x) - len(x) % 2, 2)]];
    the numpy branch of [_fastdtw.pyx] computes the same averages from two
    strided slices. *)
Fixpoint __reduce_by_half (x : list Q) : list Q :=
  match x with
  | a :: b :: rest => ((a + b) / 2)%Q :: __reduce_by_half rest
  | _ => []
  end.

(** ** __expand_window *)

Definition __get_key (i j : Z) : cell := (i, j).

(** the offsets [(a, b)] for [a], [b] in [range(-radius, radius + 1)] *)
Definition offsets (radius : Z) : list cell :=
  flat_map (fun a => map (fun b => __get_key a b) (zrange (- radius) (radius + 1)))
           (zrange (- radius) (radius + 1)).

(** first loop: the dilated coarse path [path_] *)
Definition dilate (lst : list cell) (path : path_t) : gset cell :=
  fold_left (fun (acc : gset cell) '(i, j) =>
               fold_left (fun (acc : gset cell) '(a, b) => acc ∪ {[ (i + a, j + b) ]})
                         lst acc)
            path ∅.

Definition children (c : cell) : gset cell :=
  let '(i, j) := c in
  {[ (i * 2, j * 2); (i * 2, j * 2 + 1); (i * 2 + 1, j * 2); (i * 2 + 1, j * 2 + 1) ]}.

(** second loop: the four children of every cell of [path_] *)
Definition project (path_ : gset cell) : gset cell := set_bind children path_.

(** the inner [for j in range(start_j, len_y)] of the third phase, on the
    columns still to scan; returns the cells appended and [new_start_j] *)
Fixpoint scan_row (window_ : gset cell) (i : Z) (cols : list Z)
         (new_start_j : Z) : list cell * Z :=
  match cols with
  | [] => ([], new_start_j)
  | j :: cols' =>
      if bool_decide ((i, j) ∈ window_) then
        let new_start_j' := if new_start_j =? -1 then j else new_start_j in
        let '(cells, r) := scan_row window_ i cols' new_start_j' in
        ((i, j) :: cells, r)
      else if negb (new_start_j =? -1) then ([], new_start_j)
      else scan_row window_ i cols' new_start_j
  end.

(** the outer [for i in range(0, len_x)], on the rows still to scan *)
Fixpoint scan_rows (window_ : gset cell) (len_y : Z) (rows : list Z)
         (start_j : Z) : list cell :=
  match rows with
  | [] => []
  | i :: rows' =>
      let '(cells, new_start_j) :=
        scan_row window_ i (zrange start_j len_y) (-1) in
      cells ++ scan_rows window_ len_y rows' new_start_j
  end.

Definition compact (window_ : gset cell) (len_x len_y : Z) : list cell :=
  scan_rows window_ len_y (zrange 0 len_x) 0.

(** ** The cost table of the C++ variants: [map[pair[int, int], CostEntry]] *)

Record CostEntry : Type := mkEntry {
  cost : double;
  prev_x_idx : Z;
  prev_y_idx : Z
}.

(** a value-initialised [CostEntry] *)
Definition zero_entry : CostEntry := mkEntry (Fin 0) 0 0.

(** [D[key]] on a [std::map]: a missing key is inserted with a
    value-initialised entry, which is then returned *)
Definition map_at (D : gmap cell CostEntry) (key : cell)
  : CostEntry * gmap cell CostEntry :=
  match D !! key with
  | Some e => (e, D)
  | None => (zero_entry, <[key := zero_entry]> D)
  end.

Definition __get_cost (D : gmap cell CostEntry) (i j : Z) (inf : double) : double :=
  match D !! __get_key i j with
  | Some e => cost e
  | None => inf
  end.

(** the three-way comparison of the C++ variants and the entry it stores *)
Definition choose (cost_up cost_left cost_cnr : double) (dt : Q) (i j : Z)
  : CostEntry :=
  if dbl_lt cost_up cost_left && dbl_lt cost_up cost_cnr then
    mkEntry (dbl_add cost_up dt) (i - 1) j
  else if dbl_lt cost_left cost_cnr then
    mkEntry (dbl_add cost_left dt) i (j - 1)
  else
    mkEntry (dbl_add cost_cnr dt) (i - 1) (j - 1).

(** The solver of the three C++ variants.  They differ in how Python sees a
    cell index ([view]: [as_unsigned] where [i], [j] are [unsigned int]) and
    in how the distance of two elements is obtained ([dist]). *)
Section MapSolver.
Variable view : Z -> Z.
Variable dist : Q -> Q -> outcome Q.
Variables x y : list Q.

(** one iteration of the loop over the window, at the 1-based cell [(i, j)] *)
Definition visit (D : gmap cell CostEntry) (c : cell)
  : outcome (gmap cell CostEntry) :=
  let '(i, j) := c in
  let* a := item x (view (i - 1)) in
  let* b := item y (view (j - 1)) in
  let* dt := dist a b in
  let cost_up := __get_cost D (i - 1) j Inf in
  let cost_left := __get_cost D i (j - 1) Inf in
  let cost_cnr := __get_cost D (i - 1) (j - 1) Inf in
  Ok (<[__get_key i j := choose cost_up cost_left cost_cnr dt i j]> D).

Fixpoint fill (D : gmap cell CostEntry) (window_vec : list cell)
  : outcome (gmap cell CostEntry) :=
  match window_vec with
  | [] => Ok D
  | c :: rest => let* D' := visit D c in fill D' rest
  end.

(** [while not (i == j == 0)]: the cells appended to [path], in the order
    of the appends, and the table after the lookups *)
Fixpoint backtrack (fuel : nat) (D : gmap cell CostEntry) (i j : Z)
  : outcome (gmap cell CostEntry * path_t) :=
  if (i =? 0) && (j =? 0) then Ok (D, [])
  else match fuel with
       | O => Diverge
       | S fuel' =>
           let '(cost_entry, D') := map_at D (__get_key i j) in
           let* r := backtrack fuel' D' (prev_x_idx cost_entry)
                               (prev_y_idx cost_entry) in
           Ok (fst r, (view (i - 1), view (j - 1)) :: snd r)
       end.

Definition shift (c : cell) : cell := (fst c + 1, snd c + 1).

Definition dtw_map (window : option (list cell)) : result :=
  let len_x := len x in
  let len_y := len y in
  let window :=
    match window with
    | None => grid len_x len_y
    | Some w => w
    end in
  let window_vec := map shift window in
  let D : gmap cell CostEntry := {[ __get_key 0 0 := zero_entry ]} in
  let* D := fill D window_vec in
  let* r := backtrack (S (size D)) D len_x len_y in
  Ok (cost (fst (map_at (fst r) (len_x, len_y))), rev (snd r)).
End MapSolver.

(** ** The window expander

    [__expand_window] with the offsets kept in a Python list
    (part_000, fastdtw.pyx). *)
Definition expand_window_lst (seed : gset cell) (path : path_t)
           (len_x len_y radius : Z) : list cell :=
  let lst := offsets radius in
  let path_ := dilate lst path ∪ seed in
  compact (project path_) len_x len_y.

(** [__expand_window] with the offsets kept in a C++ vector for which
    [len_vec = (2 * radius + 1)**2] slots are reserved (_fastdtw.pyx,
    part_001): the first loop reads slots [0 .. len_vec - 1] for every cell
    of the path, whether the fill loops wrote them or not. *)
Fixpoint add_offsets (vec : list cell) (ks : list Z) (i j : Z)
         (path_ : gset cell) : outcome (gset cell) :=
  match ks with
  | [] => Ok path_
  | k :: ks' =>
      match nth_error vec (Z.to_nat k) with
      | Some (a, b) => add_offsets vec ks' i j (path_ ∪ {[ (i + a, j + b) ]})
      | None => Err OutOfRange
      end
  end.

Fixpoint dilate_vec (vec : list cell) (len_vec : Z) (path : path_t)
         (path_ : gset cell) : outcome (gset cell) :=
  match path with
  | [] => Ok path_
  | (i, j) :: rest =>
      let* path_' := add_offsets vec (zrange 0 len_vec) i j path_ in
      dilate_vec vec len_vec rest path_'
  end.

Definition expand_window_vec (path : path_t) (len_x len_y radius : Z)
  : outcome (list cell) :=
  let len_vec := (2 * radius + 1) ^ 2 in
  let vec := offsets radius in
  let* path_ := dilate_vec vec len_vec path ∅ in
  Ok (compact (project path_) len_x len_y).

(** ** src/fastdtw/_fastdtw.pyx *)
Module Cy.

(** the [dist] argument: [None], a number, or a function *)
Inductive dist_arg : Type :=
  | DistNone
  | DistNum (p : Q)
  | DistFun (f : Q -> Q -> Q).

(** [isinstance(dist, numbers.Number) and dist <= 0] *)
Definition bad_order (dist : dist_arg) : bool :=
  match dist with
  | DistNum p => negb (Qltb 0 p)
  | _ => false
  end.

(** The distance of two elements (lines 128-148 and 163-172) on
    one-dimensional float arrays: [abs(a - b)] when [dist] is [None] or a
    positive order, the call [dist(a, b)] otherwise, which fails when
    [dist] is a number. *)
Definition elem_dist (dist : dist_arg) (a b : Q) : outcome Q :=
  match dist with
  | DistNone => Ok (abs_dist a b)
  | DistNum p => if Qltb 0 p then Ok (abs_dist a b) else Err TypeError
  | DistFun f => Ok (f a b)
  end.

Definition dtw (x y : list Q) (window : option (list cell)) (dist : dist_arg)
  : result :=
  dtw_map as_unsigned (elem_dist dist) x y window.

Definition __expand_window := expand_window_vec.

(** [fastdtw] and [__fastdtw] call each other; [fuel] bounds the depth of
    the recursion.  The test on the widths of two-dimensional arrays
    (lines 65-70) never fires on one-dimensional sequences. *)
Fixpoint fastdtw_fuel (fuel : nat) (x y : list Q) (radius : Z) (dist : dist_arg)
  : result :=
  if bad_order dist then Err ValueError
  else
    (* __fastdtw *)
    let min_time_size := radius + 2 in
    if (len x <? min_time_size) || (len y <? min_time_size) then
      dtw x y None dist
    else
      match fuel with
      | O => Diverge
      | S fuel' =>
          let x_shrinked := __reduce_by_half x in
          let y_shrinked := __reduce_by_half y in
          let* r := fastdtw_fuel fuel' x_shrinked y_shrinked radius dist in
          let* window := __expand_window (snd r) (len x) (len y) radius in
          dtw x y (Some window) dist
      end.

Definition fastdtw (x y : list Q) (radius : Z) (dist : dist_arg) : result :=
  fastdtw_fuel (length x) x y radius dist.

End Cy.

(** ** src/unnamed/part_001 *)
Module P1.

Definition dtw (x y : list Q) (window : option (list cell)) (dist : Q -> Q -> Q)
  : result :=
  dtw_map as_unsigned (fun a b => Ok (dist a b)) x y window.

Definition __expand_window := expand_window_vec.

Fixpoint fastdtw_fuel (fuel : nat) (x y : list Q) (radius : Z) (dist : Q -> Q -> Q)
  : result :=
  let min_time_size := radius + 2 in
  if (len x <? min_time_size) || (len y <? min_time_size) then
    dtw x y None dist
  else
    match fuel with
    | O => Diverge
    | S fuel' =>
        let x_shrinked := __reduce_by_half x in
        let y_shrinked := __reduce_by_half y in
        let* r := fastdtw_fuel fuel' x_shrinked y_shrinked radius dist in
        let* window := __expand_window (snd r) (len x) (len y) radius in
        dtw x y (Some window) dist
    end.

Definition fastdtw (x y : list Q) (radius : Z) (dist : Q -> Q -> Q) : result :=
  fastdtw_fuel (length x) x y radius dist.

End P1.

(** ** src/unnamed/part_000 *)
Module P0.

Definition dtw (x y : list Q) (window : option (list cell)) (dist : Q -> Q -> Q)
  : result :=
  dtw_map (fun i => i) (fun a b => Ok (dist a b)) x y window.

Definition __expand_window (path : path_t) (len_x len_y radius : Z) : list cell :=
  expand_window_lst ∅ path len_x len_y radius.

Fixpoint fastdtw_fuel (fuel : nat) (x y : list Q) (radius : Z) (dist : Q -> Q -> Q)
  : result :=
  let min_time_size := radius + 2 in
  if (len x <? min_time_size) || (len y <? min_time_size) then
    dtw x y None dist
  else
    match fuel with
    | O => Diverge
    | S fuel' =>
        let x_shrinked := __reduce_by_half x in
        let y_shrinked := __reduce_by_half y in
        let* r := fastdtw_fuel fuel' x_shrinked y_shrinked radius dist in
        let window := __expand_window (snd r) (len x) (len y) radius in
        dtw x y (Some window) dist
    end.

Definition fastdtw (x y : list Q) (radius : Z) (dist : Q -> Q -> Q) : result :=
  fastdtw_fuel (length x) x y radius dist.

End P0.

(** ** src/fastdtw/fastdtw.pyx *)
Module Py.

(** the values of [D]: the 1-tuple [(inf,)] made by the default factory, or
    a 3-tuple [(cost, i, j)] *)
Inductive entry : Type :=
  | Tup1 (c : double)
  | Tup3 (c : double) (pi pj : Z).

(** [D[key]] on the [defaultdict]: a missing key is inserted with [(inf,)] *)
Definition dd_at (D : gmap cell entry) (key : cell) : entry * gmap cell entry :=
  match D !! key with
  | Some e => (e, D)
  | None => (Tup1 Inf, <[key := Tup1 Inf]> D)
  end.

(** [t[0]] *)
Definition item0 (t : entry) : double :=
  match t with
  | Tup1 c => c
  | Tup3 c _ _ => c
  end.

(** the three-way comparison of fastdtw.pyx (lines 52-57) and the tuple it
    stores, for the 0-based cell [(i, j)]: [d_00] is the cost of the corner,
    [d_10] of the left neighbour, [d_01] of the upper one *)
Definition choose (d_00 d_10 d_01 : double) (dt : Q) (i j : Z) : entry :=
  if dbl_lt d_00 d_10 && dbl_lt d_00 d_01 then Tup3 (dbl_add d_00 dt) i j
  else if dbl_lt d_10 d_01 then Tup3 (dbl_add d_10 dt) (i + 1) j
  else Tup3 (dbl_add d_01 dt) i (j + 1).

Section Solver.
Variable dist : Q -> Q -> Q.
Variables x y : list Q.

(** one iteration of [for i, j in window] *)
Definition visit (D : gmap cell entry) (c : cell) : outcome (gmap cell entry) :=
  let '(i, j) := c in
  let len_y_p1 := len y + 1 in
  let* a := py_item x i in
  let* b := py_item y j in
  let dt := dist a b in
  let ip := i + 1 in
  let jp := j + 1 in
  let '(t00, D) := dd_at D (i, j) in
  let d_00 := item0 t00 in
  let '(t10, D) := dd_at D (ip, j) in
  let d_10 := item0 t10 in
  if j =? len_y_p1 then
    if dbl_lt d_00 d_10 then Ok (<[(ip, jp) := Tup3 (dbl_add d_00 dt) i j]> D)
    else Ok (<[(ip, jp) := Tup3 (dbl_add d_10 dt) i jp]> D)
  else
    let '(t01, D) := dd_at D (i, jp) in
    let d_01 := item0 t01 in
    Ok (<[(ip, jp) := choose d_00 d_10 d_01 dt i j]> D).

Fixpoint fill (D : gmap cell entry) (window : list cell)
  : outcome (gmap cell entry) :=
  match window with
  | [] => Ok D
  | c :: rest => let* D' := visit D c in fill D' rest
  end.

(** [while not (i == j == 0)]; [D[i, j][1]] fails on a 1-tuple *)
Fixpoint backtrack (fuel : nat) (D : gmap cell entry) (i j : Z)
  : outcome (gmap cell entry * path_t) :=
  if (i =? 0) && (j =? 0) then Ok (D, [])
  else match fuel with
       | O => Diverge
       | S fuel' =>
           let '(t, D') := dd_at D (i, j) in
           match t with
           | Tup1 _ => Err IndexError
           | Tup3 _ pi pj =>
               let* r := backtrack fuel' D' pi pj in
               Ok (fst r, (i - 1, j - 1) :: snd r)
           end
       end.

Definition dtw (window : option (list cell)) : result :=
  let len_x := len x in
  let len_y := len y in
  let window :=
    match window with
    | None => grid len_x len_y
    | Some w => w
    end in
  let D : gmap cell entry := {[ (0, 0) := Tup3 (Fin 0) 0 0 ]} in
  let* D := fill D window in
  let* r := backtrack (S (size D)) D len_x len_y in
  Ok (item0 (fst (dd_at (fst r) (len_x, len_y))), rev (snd r)).
End Solver.

(** [path_ = set(path)] before the offsets are added *)
Definition __expand_window (path : path_t) (len_x len_y radius : Z) : list cell :=
  expand_window_lst (list_to_set path) path len_x len_y radius.

Fixpoint fastdtw_fuel (fuel : nat) (x y : list Q) (radius : Z) (dist : Q -> Q -> Q)
  : result :=
  let min_time_size := radius + 2 in
  if (len x <? min_time_size) || (len y <? min_time_size) then
    dtw dist x y None
  else
    match fuel with
    | O => Diverge
    | S fuel' =>
        let x_shrinked := __reduce_by_half x in
        let y_shrinked := __reduce_by_half y in
        let* r := fastdtw_fuel fuel' x_shrinked y_shrinked radius dist in
        let window := __expand_window (snd r) (len x) (len y) radius in
        dtw dist x y (Some window)
    end.

Definition fastdtw (x y : list Q) (radius : Z) (dist : Q -> Q -> Q) : result :=
  fastdtw_fuel (length x) x y radius dist.

End Py.

(** a sequence of integers, as floats *)
Definition qs (l : list Z) : list Q := map inject_Z l.

(** the row-major order on cells *)
Definition cell_lt (a b : cell) : Prop :=
  fst a < fst b \/ (fst a = fst b /\ snd a < snd b).

(** the three predecessors of a cell *)
Definition preds (c : cell) : list cell :=
  [(fst c - 1, snd c); (fst c, snd c - 1); (fst c - 1, snd c - 1)].



(** a window in which every cell comes after the cells before it in
    row-major order, so that a predecessor present in the window is met
    before the cell itself *)
Definition well_ordered (w : list cell) : Prop :=
  StronglySorted cell_lt w /\
  NoDup w /\
  forall k c p,
    w !! k = Some c -> p ∈ preds c -> p ∈ w ->
    exists k', (k' < k)%nat /\ w !! k' = Some p.

(** The tie-break policy in the words of the specification: "up" when it is
    strictly below both others, else "left" when strictly below "corner",
    else "corner". *)
Definition predecessor_rule (up left corner : double) (i j : Z) : cell :=
  if dbl_lt up left && dbl_lt up corner then (i - 1, j)
  else if dbl_lt left corner then (i, j - 1)
  else (i - 1, j - 1).

(** the order in which fastdtw.pyx compares: "corner" when strictly below
    both others, else "left" when strictly below "up", else "up" *)
Definition corner_first_rule (up left corner : double) (i j : Z) : cell :=
  if dbl_lt corner left && dbl_lt corner up then (i - 1, j - 1)
  else if dbl_lt left up then (i, j - 1)
  else (i - 1, j).

(** the cost the defaultdict holds for a key, [inf] when the key is missing *)
Definition py_cost (D : gmap cell Py.entry) (k : cell) : double :=
  match D !! k with
  | Some t => Py.item0 t
  | None => Inf
  end.

(** ** Vocabulary for the cost table *)

(** every entry points to the origin or to a cell with a smaller coordinate
    sum: what makes the backtracking loop stop *)
Definition decreasing (D : gmap cell CostEntry) : Prop :=
  forall k e, D !! k = Some e ->
    (prev_x_idx e = 0 /\ prev_y_idx e = 0) \/
    prev_x_idx e + prev_y_idx e < fst k + snd k.

(** the keys of [D] whose coordinate sum is at most [s] *)
Definition below (s : Z) (D : gmap cell CostEntry) : gset cell :=
  filter (fun k : cell => fst k + snd k <= s) (dom D).

(** the only errors the C++ solver raises by itself *)
Definition solver_error (e : error) : Prop := e = OutOfRange \/ e = TypeError.

(** a window of cells of the [len_x] by [len_y] grid *)
Definition in_grid (len_x len_y : Z) (w : list cell) : Prop :=
  Forall (fun c : cell => 0 <= fst c < len_x /\ 0 <= snd c < len_y) w.

(** the entry of [D] at [k] exists and has a finite cost *)
Definition finite_at (D : gmap cell CostEntry) (k : cell) : Prop :=
  exists e q, D !! k = Some e /\ cost e = Fin q.

(** the origin is intact, the other entries sit at 1-based cells and point to
    one of their three predecessors, which has a finite cost when they have *)
Definition sound (D : gmap cell CostEntry) : Prop :=
  D !! (0, 0) = Some zero_entry /\
  forall k e, D !! k = Some e -> k <> (0, 0) ->
    1 <= fst k /\ 1 <= snd k /\
    (prev_x_idx e, prev_y_idx e) ∈ preds k /\
    (forall q, cost e = Fin q -> finite_at D (prev_x_idx e, prev_y_idx e)).

(** the cells appended by the backtracking loop that starts at a 1-based
    cell and follows predecessors down to the origin *)
Inductive trail : cell -> list cell -> Prop :=
  | trail_origin : trail (0, 0) []
  | trail_step k p l :
      1 <= fst k -> 1 <= snd k -> p ∈ preds k -> trail p l ->
      trail k ((fst k - 1, snd k - 1) :: l).

(** the three permitted steps *)
Definition step_ok (a b : cell) : Prop :=
  b = (fst a + 1, snd a) \/ b = (fst a, snd a + 1) \/ b = (fst a + 1, snd a + 1).

(** [R] holds between every two consecutive cells *)
Fixpoint adjacent (R : cell -> cell -> Prop) (p : list cell) : Prop :=
  match p with
  | [] => True
  | a :: t =>
      match t with
      | [] => True
      | b :: _ => R a b
      end /\ adjacent R t
  end.

Definition cell_le (a b : cell) : Prop := fst a <= fst b /\ snd a <= snd b.

(** a warping path of the [len_x] by [len_y] grid: from (0,0) to the last
    cell, by permitted steps, non-decreasing in both coordinates *)
Definition warping_path (len_x len_y : Z) (p : list cell) : Prop :=
  head p = Some (0, 0) /\
  last p = Some (len_x - 1, len_y - 1) /\
  adjacent step_ok p /\
  StronglySorted cell_le p.

(** every cell but [o] has one of its predecessors in the window *)
Definition connected (o : cell) (w : list cell) : Prop :=
  forall c, c ∈ w -> c = o \/ exists p, p ∈ preds c /\ p ∈ w.

(** [D] satisfies the recurrence of the solver at the 1-based cell [c] *)
Definition recurrence_at (dist : Q -> Q -> outcome Q) (x y : list Q)
           (D : gmap cell CostEntry) (c : cell) : Prop :=
  exists a b dt,
    item x (fst c - 1) = Ok a /\ item y (snd c - 1) = Ok b /\
    dist a b = Ok dt /\
    D !! c = Some (choose (__get_cost D (fst c - 1) (snd c) Inf)
                          (__get_cost D (fst c) (snd c - 1) Inf)
                          (__get_cost D (fst c - 1) (snd c - 1) Inf)
                          dt (fst c) (snd c)).

(** the costs of [D'] are bounded below by those of [D] *)
Definition dominated (D D' : gmap cell CostEntry) : Prop :=
  forall k e, D' !! k = Some e -> dbl_le (__get_cost D (fst k) (snd k) Inf) (cost e).

(** ** Vocabulary for the window expander *)

(** the coarse cell [h] is within [radius] of the path cell [p] *)
Definition near (radius : Z) (p h : Z * Z) : Prop :=
  fst h - radius <= fst p <= fst h + radius /\
  snd h - radius <= snd p <= snd h + radius.

(** the dilated path, as a predicate on coarse cells *)
Definition halo (radius : Z) (path : list (Z * Z)) (h : Z * Z) : Prop :=
  exists p, p ∈ path /\ near radius p h.

(** ** Vocabulary for the comparison of the variants *)

(** equal as numbers *)
Definition dbl_eq (a b : double) : Prop := dbl_le a b /\ dbl_le b a.

(** the defaultdict and the C++ map hold the same costs, and the 3-tuples of
    the one sit where the other has an entry *)
Definition tables_agree (Dp : gmap cell Py.entry) (Dm : gmap cell CostEntry) : Prop :=
  forall k,
    dbl_eq (py_cost Dp k) (__get_cost Dm (fst k) (snd k) Inf) /\
    ((exists c pi pj, Dp !! k = Some (Py.Tup3 c pi pj)) <-> is_Some (Dm !! k)).

(** a result of part_000 as the variants with unsigned cell indices give it *)
Definition unsigned_view (r : result) : result :=
  match r with
  | Ok (c, p) => Ok (c, map (fun ij : Z * Z => (as_unsigned (fst ij), as_unsigned (snd ij))) p)
  | Err e => Err e
  | Diverge => Diverge
  end.

(** the window the solver works on *)
Definition effective_window (x y : list Q) (window : option (list cell)) : list cell :=
  match window with
  | None => grid (len x) (len y)
  | Some w => w
  end.

(** every 3-tuple of the defaultdict points to a cell with a smaller
    coordinate sum, or to the origin *)
Definition py_decreasing (D : gmap cell Py.entry) : Prop :=
  forall k c pi pj, D !! k = Some (Py.Tup3 c pi pj) ->
    (pi = 0 /\ pj = 0) \/ pi + pj < fst k + snd k.

(** the keys of the defaultdict whose coordinate sum is at most [s] *)
Definition py_below (s : Z) (D : gmap cell Py.entry) : gset cell :=
  filter (fun k : cell => fst k + snd k <= s) (dom D).


(** ** Vocabulary for the cost of a path *)

(** the element [x[i]] for an index inside the sequence *)
Definition elem (x : list Q) (i : Z) : Q := nth (Z.to_nat i) x 0%Q.

(** the distance the solver of _fastdtw.pyx applies for an accepted [dist]:
    [abs(a - b)] for [None] and for a positive order, [dist(a, b)] for a
    function *)
Definition dist_of (dist : Cy.dist_arg) : Q -> Q -> Q :=
  match dist with
  | Cy.DistFun f => f
  | _ => abs_dist
  end.

(** the cost of a path of grid cells: the distances of its cells, added in
    the order of the path *)
Definition path_cost (d : Q -> Q -> Q) (x y : list Q) (p : path_t) : Q :=
  fold_left (fun acc c => (acc + d (elem x (fst c)) (elem y (snd c)))%Q) p 0%Q.

(** the same sum, taken from the last cell back to the first *)
Definition trail_cost (d : Q -> Q -> Q) (x y : list Q) (l : path_t) : Q :=
  fold_right (fun c acc => (acc + d (elem x (fst c)) (elem y (snd c)))%Q) 0%Q l.

(** a path read as a path of the transposed grid *)
Definition transpose (p : path_t) : path_t := map (fun c : cell => (snd c, fst c)) p.

(** the diagonal of a square grid *)
Definition diagonal (n : nat) : path_t := map (fun k => (k, k)) (zrange 0 (Z.of_nat n)).

(** ** Vocabulary for the table of fastdtw.pyx *)

(** the defaultdict holds a 3-tuple with a finite cost at [k] *)
Definition py_finite_at (D : gmap cell Py.entry) (k : cell) : Prop :=
  exists q pi pj, D !! k = Some (Py.Tup3 (Fin q) pi pj).

(** the origin is intact, the other 3-tuples sit at 1-based cells and point
    to one of their three predecessors, which holds a finite cost when they
    do *)
Definition py_sound (D : gmap cell Py.entry) : Prop :=
  D !! (0, 0) = Some (Py.Tup3 (Fin 0) 0 0) /\
  forall k c pi pj, D !! k = Some (Py.Tup3 c pi pj) -> k <> (0, 0) ->
    1 <= fst k /\ 1 <= snd k /\ (pi, pj) ∈ preds k /\
    (forall q, c = Fin q -> py_finite_at D (pi, pj)).
(** * Properties *)

(** ** Arithmetic on doubles *)

Lemma Qltb_lt a b : Qltb a b = true <-> (a < b)%Q.
Proof. unfold Qltb, Qlt. apply Z.ltb_lt. Qed.

Lemma Qltb_ge a b : Qltb a b = false <-> (b <= a)%Q.
Proof. unfold Qltb, Qle. rewrite Z.ltb_ge. reflexivity. Qed.

Lemma dbl_le_refl a : dbl_le a a.
Proof. destruct a; simpl; [apply Qle_refl | exact I]. Qed.

Lemma dbl_le_trans a b c : dbl_le a b -> dbl_le b c -> dbl_le a c.
Proof.
  destruct a, b, c; simpl; try tauto.
  apply Qle_trans.
Qed.

Lemma dbl_lt_false_le a b : dbl_lt a b = false -> dbl_le b a.
Proof.
  destruct a, b; simpl; try discriminate; try tauto.
  intros H. apply Qltb_ge in H. exact H.
Qed.

Lemma dbl_lt_true_le a b : dbl_lt a b = true -> dbl_le a b.
Proof.
  destruct a, b; simpl; try discriminate; try tauto.
  intros H. apply Qltb_lt in H. apply Qlt_le_weak. exact H.
Qed.

Lemma dbl_add_mono a b dt : dbl_le a b -> dbl_le (dbl_add a dt) (dbl_add b dt).
Proof.
  destruct a, b; simpl; try tauto.
  intros H. apply Qplus_le_compat; [exact H | apply Qle_refl].
Qed.

(** ** Ranges and the grid *)

Lemma elem_of_zrange j lo hi : j ∈ zrange lo hi <-> lo <= j < hi.
Proof. unfold zrange. rewrite elem_of_seqZ. lia. Qed.

Lemma zrange_nil lo hi : hi <= lo -> zrange lo hi = [].
Proof.
  intros H. unfold zrange, seqZ.
  replace (Z.to_nat (hi - lo)) with O by lia. reflexivity.
Qed.

Lemma zrange_cons lo hi : lo < hi -> zrange lo hi = lo :: zrange (lo + 1) hi.
Proof.
  intros H. unfold zrange. rewrite seqZ_cons by lia.
  f_equal. f_equal; lia.
Qed.

Lemma zrange_sorted lo hi : StronglySorted Z.lt (zrange lo hi).
Proof.
  remember (Z.to_nat (hi - lo)) as n eqn:Hn.
  revert lo Hn. induction n as [|n IH]; intros lo Hn.
  - rewrite zrange_nil by lia. constructor.
  - rewrite zrange_cons by lia. constructor.
    + apply IH. lia.
    + apply Forall_forall. intros j Hj.
      apply elem_of_zrange in Hj. lia.
Qed.

Lemma elem_of_grid i j len_x len_y :
  (i, j) ∈ grid len_x len_y <-> 0 <= i < len_x /\ 0 <= j < len_y.
Proof.
  unfold grid. rewrite list_elem_of_In, in_flat_map. split.
  - intros (i' & Hi & Hj). apply list_elem_of_In, elem_of_zrange in Hi.
    apply list_elem_of_In, list_elem_of_fmap in Hj.
    destruct Hj as (j' & Heq & Hj'). apply elem_of_zrange in Hj'.
    inversion Heq; subst. lia.
  - intros [Hi Hj]. exists i. split.
    + apply list_elem_of_In, elem_of_zrange. lia.
    + apply list_elem_of_In, list_elem_of_fmap. exists j. split; [reflexivity|].
      apply elem_of_zrange. lia.
Qed.

(** ** Row compaction *)

Lemma scan_row_spec window_ i cols :
  StronglySorted Z.lt cols ->
  forall nsj,
    StronglySorted cell_lt (fst (scan_row window_ i cols nsj)) /\
    Forall (fun c => fst c = i /\ snd c ∈ cols /\ c ∈ window_)
           (fst (scan_row window_ i cols nsj)).
Proof.
  induction 1 as [|j cols Hs IH Hall]; intros nsj; simpl.
  - split; constructor.
  - destruct (bool_decide ((i, j) ∈ window_)) eqn:Hin.
    + apply bool_decide_eq_true in Hin.
      specialize (IH (if nsj =? -1 then j else nsj)).
      destruct (scan_row window_ i cols (if nsj =? -1 then j else nsj))
        as [cells r] eqn:Hscan.
      simpl in *. destruct IH as [IH1 IH2]. split.
      * constructor; [exact IH1|].
        rewrite Forall_forall in IH2 |- *. intros c Hc.
        destruct (IH2 c Hc) as (Hc1 & Hc2 & _).
        rewrite Forall_forall in Hall. specialize (Hall _ Hc2).
        right. simpl. split; [congruence | exact Hall].
      * constructor.
        -- simpl. split; [reflexivity|]. split; [left | exact Hin].
        -- eapply Forall_impl; [exact IH2|].
           intros c (? & ? & ?). split; [assumption|]. split; [by right | assumption].
    + destruct (negb (nsj =? -1)); simpl.
      * split; constructor.
      * destruct (IH nsj) as [IH1 IH2]. split; [exact IH1|].
        eapply Forall_impl; [exact IH2|].
        intros c (? & ? & ?). split; [assumption|]. split; [by right | assumption].
Qed.

Lemma scan_rows_spec window_ len_y rows :
  StronglySorted Z.lt rows ->
  forall start_j,
    StronglySorted cell_lt (scan_rows window_ len_y rows start_j) /\
    Forall (fun c => fst c ∈ rows /\ c ∈ window_ /\ snd c < len_y)
           (scan_rows window_ len_y rows start_j).
Proof.
  induction 1 as [|i rows Hs IH Hall]; intros start_j; simpl.
  - split; constructor.
  - pose proof (scan_row_spec window_ i (zrange start_j len_y)
                              (zrange_sorted _ _) (-1)) as [R1 R2].
    destruct (scan_row window_ i (zrange start_j len_y) (-1)) as [cells nsj].
    simpl in R1, R2. destruct (IH nsj) as [IH1 IH2]. split.
    + apply StronglySorted_app_2; [|exact R1|exact IH1].
      intros a b Ha Hb. rewrite Forall_forall in R2.
      rewrite Forall_forall in IH2. rewrite Forall_forall in Hall.
      destruct (R2 a Ha) as (Ha1 & _). destruct (IH2 b Hb) as (Hb1 & _).
      left. rewrite Ha1. apply Hall. exact Hb1.
    + apply Forall_app. split.
      * eapply Forall_impl; [exact R2|].
        intros c (? & Hc & ?). split; [subst; left|].
        split; [assumption|]. apply elem_of_zrange in Hc. lia.
      * eapply Forall_impl; [exact IH2|].
        intros c (? & ? & ?). split; [by right|]. split; assumption.
Qed.

Lemma compact_sorted window_ len_x len_y :
  StronglySorted cell_lt (compact window_ len_x len_y).
Proof. apply scan_rows_spec, zrange_sorted. Qed.

Lemma cell_lt_irrefl c : ~ cell_lt c c.
Proof. unfold cell_lt. lia. Qed.

Lemma sorted_lookup_lt (w : list cell) :
  StronglySorted cell_lt w ->
  forall k1 k2 c1 c2,
    w !! k1 = Some c1 -> w !! k2 = Some c2 -> cell_lt c1 c2 -> (k1 < k2)%nat.
Proof.
  induction 1 as [|a w Hs IH Hall]; intros k1 k2 c1 c2 H1 H2 Hlt.
  - rewrite lookup_nil in H1. discriminate.
  - rewrite Forall_forall in Hall.
    destruct k1 as [|k1], k2 as [|k2]; simpl in *.
    + inversion H1; inversion H2; subst. destruct (cell_lt_irrefl _ Hlt).
    + lia.
    + inversion H2; subst.
      assert (cell_lt c2 c1) as Hgt
          by (apply Hall; by eapply list_elem_of_lookup_2).
      unfold cell_lt in *. lia.
    + apply ->Nat.succ_lt_mono. eapply IH; eassumption.
Qed.

Lemma pred_cell_lt c p : p ∈ preds c -> cell_lt p c.
Proof.
  unfold preds. rewrite !elem_of_cons, elem_of_nil.
  intros [->|[->|[->|[]]]]; unfold cell_lt; simpl; lia.
Qed.

Lemma sorted_NoDup (w : list cell) : StronglySorted cell_lt w -> NoDup w.
Proof.
  induction 1 as [|a w Hs IH Hall]; constructor; [|exact IH].
  intros Hin. rewrite Forall_forall in Hall.
  exact (cell_lt_irrefl _ (Hall _ Hin)).
Qed.

(** ** The offsets vector *)

Lemma add_offsets_suffix vec i j :
  forall suf pre path_,
    vec = pre ++ suf ->
    add_offsets vec (zrange (Z.of_nat (length pre)) (Z.of_nat (length vec))) i j path_ =
    Ok (fold_left (fun (acc : gset cell) '(a, b) => acc ∪ {[ (i + a, j + b) ]})
                  suf path_).
Proof.
  induction suf as [|[a b] suf IH]; intros pre path_ Hvec.
  - rewrite zrange_nil; [reflexivity|].
    subst vec. rewrite length_app. simpl. lia.
  - rewrite zrange_cons by (subst vec; rewrite length_app; simpl; lia).
    simpl. rewrite Nat2Z.id.
    assert (nth_error vec (length pre) = Some (a, b)) as ->.
    { subst vec. rewrite nth_error_app2 by lia.
      replace (length pre - length pre)%nat with O by lia. reflexivity. }
    specialize (IH (pre ++ [(a, b)]) (path_ ∪ {[ (i + a, j + b) ]})).
    rewrite length_app in IH. simpl in IH.
    replace (Z.of_nat (length pre + 1)) with (Z.of_nat (length pre) + 1) in IH by lia.
    apply IH. rewrite <- app_assoc. exact Hvec.
Qed.

Lemma dilate_vec_full vec path :
  forall path_,
    dilate_vec vec (Z.of_nat (length vec)) path path_ =
    Ok (fold_left (fun (acc : gset cell) '(i, j) =>
                     fold_left (fun (acc : gset cell) '(a, b) =>
                                  acc ∪ {[ (i + a, j + b) ]}) vec acc)
                  path path_).
Proof.
  induction path as [|[i j] path IH]; intros path_; simpl; [reflexivity|].
  pose proof (add_offsets_suffix vec i j vec [] path_ eq_refl) as H.
  simpl in H. change (Z.of_nat 0) with 0 in H. rewrite H. simpl. apply IH.
Qed.

Lemma length_zrange lo hi : Z.of_nat (length (zrange lo hi)) = Z.max 0 (hi - lo).
Proof. unfold zrange. rewrite length_seqZ. lia. Qed.

Lemma length_flat_map_const {A B} (f : A -> list B) (n : nat) (l : list A) :
  (forall a, length (f a) = n) -> length (flat_map f l) = (length l * n)%nat.
Proof.
  intros Hf. induction l as [|a l IH]; simpl; [reflexivity|].
  rewrite length_app, Hf, IH. reflexivity.
Qed.

Lemma length_offsets radius :
  0 <= radius -> Z.of_nat (length (offsets radius)) = (2 * radius + 1) ^ 2.
Proof.
  intros Hr. unfold offsets.
  rewrite (length_flat_map_const _ (length (zrange (- radius) (radius + 1)))).
  - rewrite Nat2Z.inj_mul, length_zrange. lia.
  - intros a. apply length_map.
Qed.

Lemma expand_window_vec_ok path len_x len_y radius :
  0 <= radius ->
  expand_window_vec path len_x len_y radius =
  Ok (expand_window_lst ∅ path len_x len_y radius).
Proof.
  intros Hr. unfold expand_window_vec, expand_window_lst.
  rewrite <- (length_offsets radius Hr), dilate_vec_full. simpl.
  unfold dilate. rewrite union_empty_r_L. reflexivity.
Qed.

(** ** Ordered windows *)

Lemma sorted_well_ordered w : StronglySorted cell_lt w -> well_ordered w.
Proof.
  intros Hs. split; [exact Hs|]. split; [by apply sorted_NoDup|].
  intros k c p Hk Hp Hin.
  apply list_elem_of_lookup in Hin. destruct Hin as [k' Hk'].
  exists k'. split; [|exact Hk'].
  eapply sorted_lookup_lt; eauto using pred_cell_lt.
Qed.

(** C10. For every coarse path, lengths and radius >= 0, the window list
    built by [__expand_window] (in _fastdtw.pyx, where it is returned, and in
    part_000 and fastdtw.pyx) is strictly increasing in row-major order, has
    no duplicates, and every predecessor [(i-1,j)], [(i,j-1)], [(i-1,j-1)] of
    one of its cells that occurs in it occurs at a strictly smaller position;
    no condition on the lengths is needed. *)
Theorem expand_window_well_ordered path len_x len_y radius :
  0 <= radius ->
  (exists w, Cy.__expand_window path len_x len_y radius = Ok w /\ well_ordered w) /\
  well_ordered (P0.__expand_window path len_x len_y radius) /\
  well_ordered (Py.__expand_window path len_x len_y radius).
Proof.
  intros Hr. split; [|split].
  - eexists. split; [apply expand_window_vec_ok, Hr|].
    apply sorted_well_ordered, compact_sorted.
  - apply sorted_well_ordered, compact_sorted.
  - apply sorted_well_ordered, compact_sorted.
Qed.

Lemma expand_window_well_ordered_witness :
  0 <= 1 /\
  (exists w, Cy.__expand_window [(0, 0); (1, 0)] 5 3 1 = Ok w /\ well_ordered w).
Proof.
  split; [lia|].
  apply (expand_window_well_ordered [(0, 0); (1, 0)] 5 3 1). lia.
Defined.

(** ** The cursor of the row compaction *)




(** ** The C++ solver always returns *)

Lemma decreasing_origin : decreasing {[ __get_key 0 0 := zero_entry ]}.
Proof.
  intros k e Hk. apply lookup_singleton_Some in Hk as [_ <-].
  left. split; reflexivity.
Qed.

Lemma choose_prev cu cl cc dt i j :
  (prev_x_idx (choose cu cl cc dt i j), prev_y_idx (choose cu cl cc dt i j))
  = predecessor_rule cu cl cc i j.
Proof.
  unfold choose, predecessor_rule.
  destruct (dbl_lt cu cl && dbl_lt cu cc); [reflexivity|].
  destruct (dbl_lt cl cc); reflexivity.
Qed.

Lemma predecessor_rule_preds cu cl cc i j :
  predecessor_rule cu cl cc i j ∈ preds (i, j).
Proof.
  unfold predecessor_rule, preds. simpl.
  destruct (dbl_lt cu cl && dbl_lt cu cc); [set_solver|].
  destruct (dbl_lt cl cc); set_solver.
Qed.

Lemma below_mono s s' D : s' <= s -> below s' D ⊆ below s D.
Proof.
  intros Hs k. unfold below. rewrite !elem_of_filter. intros [H1 H2].
  split; [lia | exact H2].
Qed.

Lemma item_outcome l i :
  (exists a, item l i = Ok a) \/ item l i = Err OutOfRange.
Proof.
  unfold item. destruct ((0 <=? i) && (i <? len l)); [|by right].
  destruct (nth_error l (Z.to_nat i)); [left; eauto | by right].
Qed.

Section MapSolverTotal.
Variable view : Z -> Z.
Variable dist : Q -> Q -> outcome Q.
Variables x y : list Q.




Lemma visit_inv D c D' :
  visit view dist x y D c = Ok D' ->
  exists a b dt,
    item x (view (fst c - 1)) = Ok a /\ item y (view (snd c - 1)) = Ok b /\
    dist a b = Ok dt /\
    D' = <[c := choose (__get_cost D (fst c - 1) (snd c) Inf)
                       (__get_cost D (fst c) (snd c - 1) Inf)
                       (__get_cost D (fst c - 1) (snd c - 1) Inf)
                       dt (fst c) (snd c)]> D.
Proof.
  destruct c as [i j]. unfold visit. simpl.
  destruct (item x (view (i - 1))) as [a| |]; simpl; try discriminate.
  destruct (item y (view (j - 1))) as [b| |]; simpl; try discriminate.
  destruct (dist a b) as [dt| |] eqn:Hd; simpl; try discriminate.
  intros H. inversion H; subst. exists a, b, dt. simpl. auto.
Qed.

Lemma visit_decreasing D c D' :
  decreasing D -> visit view dist x y D c = Ok D' -> decreasing D'.
Proof.
  intros HD Hv. apply visit_inv in Hv as (a & b & dt & _ & _ & _ & ->).
  intros k e Hk. destruct (decide (c = k)) as [<-|Hne].
  - rewrite lookup_insert_eq in Hk. inversion Hk; subst e. right.
    pose proof (choose_prev (__get_cost D (fst c - 1) (snd c) Inf)
                  (__get_cost D (fst c) (snd c - 1) Inf)
                  (__get_cost D (fst c - 1) (snd c - 1) Inf)
                  dt (fst c) (snd c)) as Hp.
    pose proof (predecessor_rule_preds (__get_cost D (fst c - 1) (snd c) Inf)
                  (__get_cost D (fst c) (snd c - 1) Inf)
                  (__get_cost D (fst c - 1) (snd c - 1) Inf)
                  (fst c) (snd c)) as Hin.
    rewrite <- Hp in Hin. clear Hp Hk.
    set (e0 := choose _ _ _ _ _ _) in *.
    unfold preds in Hin. simpl in Hin.
    rewrite !elem_of_cons, elem_of_nil in Hin.
    destruct Hin as [H|[H|[H|[]]]]; inversion H; lia.
  - rewrite lookup_insert_ne in Hk by exact Hne. eapply HD, Hk.
Qed.

Lemma fill_decreasing w : forall D D',
  decreasing D -> fill view dist x y D w = Ok D' -> decreasing D'.
Proof.
  induction w as [|c w IH]; intros D D' HD Hf; simpl in Hf.
  - inversion Hf; subst. exact HD.
  - destruct (visit view dist x y D c) as [D1| |] eqn:Hv; simpl in Hf;
      try discriminate.
    eapply IH; [|exact Hf]. eapply visit_decreasing; eassumption.
Qed.


Lemma backtrack_total D :
  decreasing D ->
  forall fuel i j,
    (size (below (i + j) D) < fuel)%nat ->
    exists l, backtrack view fuel D i j = Ok l.
Proof.
  intros HD. induction fuel as [|fuel IH]; intros i j Hsz; [lia|].
  simpl. destruct ((i =? 0) && (j =? 0)) eqn:Hz; [eauto|].
  unfold map_at, __get_key.
  destruct (D !! (i, j)) as [e|] eqn:He; cbv beta iota zeta.
  - destruct (HD _ _ He) as [[H1 H2]|Hlt].
    + rewrite H1, H2. destruct fuel; simpl; eauto.
    + simpl in Hlt.
      destruct (IH (prev_x_idx e) (prev_y_idx e)) as [l Hl].
      * assert (below (prev_x_idx e + prev_y_idx e) D ⊂ below (i + j) D) as Hsub.
        { split; [apply below_mono; lia|].
          intros Hsup. assert ((i, j) ∈ below (i + j) D) as Hin.
          { unfold below. apply elem_of_filter. split; [simpl; lia|].
            apply elem_of_dom. eauto. }
          apply Hsup in Hin. unfold below in Hin.
          apply elem_of_filter in Hin as [Hin _]. simpl in Hin. lia. }
        apply subset_size in Hsub. lia.
      * rewrite Hl. simpl. eauto.
  - simpl. destruct fuel; simpl; eauto.
Qed.


Lemma visit_outcome D c :
  (forall a b e', dist a b = Err e' -> solver_error e') ->
  (forall a b, dist a b <> Diverge) ->
  (exists D', visit view dist x y D c = Ok D') \/
  (exists e, visit view dist x y D c = Err e /\ solver_error e).
Proof.
  intros Hd1 Hd2. destruct c as [i j]. unfold visit.
  destruct (item_outcome x (view (i - 1))) as [[a ->]| ->]; simpl;
    [|right; eexists; split; [reflexivity | by left]].
  destruct (item_outcome y (view (j - 1))) as [[b ->]| ->]; simpl;
    [|right; eexists; split; [reflexivity | by left]].
  destruct (dist a b) as [dt|e|] eqn:Hd; simpl.
  - left. eauto.
  - right. eexists. split; [reflexivity|]. eapply Hd1, Hd.
  - destruct (Hd2 _ _ Hd).
Qed.

Lemma fill_outcome w : forall D,
  (forall a b e', dist a b = Err e' -> solver_error e') ->
  (forall a b, dist a b <> Diverge) ->
  (exists D', fill view dist x y D w = Ok D') \/
  (exists e, fill view dist x y D w = Err e /\ solver_error e).
Proof.
  induction w as [|c w IH]; intros D Hd1 Hd2; simpl; [left; eauto|].
  destruct (visit_outcome D c Hd1 Hd2) as [[D' ->]|(e & -> & He)]; simpl.
  - apply IH; assumption.
  - right. eauto.
Qed.

(** the solver returns a pair or fails on an element access or on the call
    of [dist]; its backtracking loop always stops *)
Lemma dtw_map_total window :
  (forall a b e', dist a b = Err e' -> solver_error e') ->
  (forall a b, dist a b <> Diverge) ->
  (exists r, dtw_map view dist x y window = Ok r) \/
  (exists e, dtw_map view dist x y window = Err e /\ solver_error e).
Proof.
  intros Hd1 Hd2. unfold dtw_map.
  set (w := map shift _).
  destruct (fill_outcome w {[ __get_key 0 0 := zero_entry ]} Hd1 Hd2)
    as [[D Hf]|(e & Hf & He)]; rewrite Hf; unfold bind.
  - left.
    destruct (backtrack_total D
                (fill_decreasing _ _ _ decreasing_origin Hf)
                (S (size D)) (len x) (len y)) as [l Hl].
    + apply Nat.lt_succ_r.
      rewrite <- (size_dom (D:=gset (Z * Z)) D).
      apply subseteq_size. unfold below. intros k Hk.
      apply elem_of_filter in Hk. tauto.
    + rewrite Hl. eauto.
  - right. eauto.
Qed.
End MapSolverTotal.

(** ** Paths *)

Lemma adjacent_snoc R l a :
  adjacent R (l ++ [a]) <->
  adjacent R l /\ (forall b, last l = Some b -> R b a).
Proof.
  induction l as [|c l IH]; simpl.
  - split; [intros _; split; [exact I | discriminate] | tauto].
  - destruct l as [|d l].
    + simpl. split.
      * intros [H _]. split; [tauto|]. intros b Hb. inversion Hb; subst. exact H.
      * intros [_ H]. split; [by apply H | tauto].
    + change ((d :: l) ++ [a]) with (d :: (l ++ [a])) in *.
      change (last (c :: d :: l)) with (last (d :: l)).
      rewrite IH. simpl. tauto.
Qed.

Lemma last_snoc_cell (l : list (Z * Z)) a : last (l ++ [a]) = Some a.
Proof. apply last_snoc. Qed.

Lemma adjacent_rev R l : adjacent (flip R) l -> adjacent R (rev l).
Proof.
  induction l as [|a l IH]; simpl; [tauto|].
  intros [Ha Hl]. apply adjacent_snoc. split; [by apply IH|].
  intros b Hb. destruct l as [|c l]; [discriminate|].
  simpl in Hb. rewrite last_snoc_cell in Hb. inversion Hb; subst. exact Ha.
Qed.

Lemma head_rev (l : list (Z * Z)) : head (rev l) = last l.
Proof.
  induction l as [|a l IH]; [reflexivity|].
  simpl. destruct l as [|b l]; [reflexivity|].
  change (last (a :: b :: l)) with (last (b :: l)). rewrite <- IH.
  simpl. destruct (rev l ++ [b]) eqn:E; [|reflexivity].
  destruct (rev l); discriminate.
Qed.

Lemma last_rev (l : list (Z * Z)) : last (rev l) = head l.
Proof. destruct l as [|a l]; [reflexivity|]. simpl. apply last_snoc. Qed.

Lemma step_ok_le a b : step_ok a b -> cell_le a b.
Proof. unfold step_ok, cell_le. intros [-> | [-> | ->]]; simpl; lia. Qed.

Lemma adjacent_steps_sorted p : adjacent step_ok p -> StronglySorted cell_le p.
Proof.
  induction p as [|a p IH]; simpl; [constructor|].
  intros [Ha Hp]. specialize (IH Hp). constructor; [exact IH|].
  destruct p as [|b p]; [constructor|].
  apply step_ok_le in Ha. inversion IH as [|? ? _ Hall]; subst.
  constructor; [exact Ha|].
  eapply Forall_impl; [exact Hall|]. unfold cell_le in *. intros c. simpl. lia.
Qed.

Lemma trail_origin_nil l : trail (0, 0) l -> l = [].
Proof. inversion 1; [reflexivity|]. simpl in *. lia. Qed.

Lemma trail_shape k l :
  trail k l -> k <> (0, 0) ->
  head l = Some (fst k - 1, snd k - 1) /\
  last l = Some (0, 0) /\
  adjacent (flip step_ok) l.
Proof.
  induction 1 as [|k p l Hk1 Hk2 Hp Ht IH]; intros Hne; [congruence|].
  split; [reflexivity|].
  destruct (decide (p = (0, 0))) as [->|Hp0].
  - apply trail_origin_nil in Ht. subst l. simpl.
    unfold preds in Hp. rewrite !elem_of_cons, elem_of_nil in Hp.
    destruct k as [i j]. simpl in *.
    destruct Hp as [H|[H|[H|[]]]]; inversion H; try lia.
    repeat split; f_equal; f_equal; lia.
  - destruct (IH Hp0) as (Hh & Hl & Ha).
    destruct l as [|c l]; [discriminate|].
    split; [exact Hl|]. simpl. split; [|exact Ha].
    simpl in Hh. inversion Hh; subst c. unfold flip, step_ok. simpl.
    unfold preds in Hp. rewrite !elem_of_cons, elem_of_nil in Hp.
    destruct Hp as [->|[->|[->|[]]]]; simpl.
    + left. f_equal; lia.
    + right. left. f_equal; lia.
    + right. right. f_equal; lia.
Qed.

Lemma trail_warping lx ly l :
  trail (lx, ly) l -> (lx, ly) <> (0, 0) -> warping_path lx ly (rev l).
Proof.
  intros Ht Hne. destruct (trail_shape _ _ Ht Hne) as (Hh & Hl & Ha).
  assert (adjacent step_ok (rev l)) as Hadj by (by apply adjacent_rev).
  unfold warping_path. rewrite head_rev, last_rev.
  repeat split; try assumption. by apply adjacent_steps_sorted.
Qed.

(** ** The comparison of the C++ solver *)

Lemma choose_cases cu cl cc dt i j :
  (choose cu cl cc dt i j = mkEntry (dbl_add cu dt) (i - 1) j /\
   dbl_le cu cl /\ dbl_le cu cc) \/
  (choose cu cl cc dt i j = mkEntry (dbl_add cl dt) i (j - 1) /\
   dbl_le cl cu /\ dbl_le cl cc) \/
  (choose cu cl cc dt i j = mkEntry (dbl_add cc dt) (i - 1) (j - 1) /\
   dbl_le cc cu /\ dbl_le cc cl).
Proof.
  unfold choose.
  destruct (dbl_lt cu cl) eqn:H1; destruct (dbl_lt cu cc) eqn:H2; simpl;
    destruct (dbl_lt cl cc) eqn:H3;
    repeat match goal with
           | H : dbl_lt _ _ = true |- _ => apply dbl_lt_true_le in H
           | H : dbl_lt _ _ = false |- _ => apply dbl_lt_false_le in H
           end;
    eauto 10 using dbl_le_trans.
Qed.

Lemma dbl_le_fin a q : dbl_le a (Fin q) -> exists q', a = Fin q'.
Proof. destruct a; simpl; [eauto | tauto]. Qed.

Lemma dbl_add_fin a dt q : dbl_add a dt = Fin q -> exists q', a = Fin q'.
Proof. destruct a; simpl; [eauto | discriminate]. Qed.

Lemma choose_mono cu cl cc cu' cl' cc' dt i j :
  dbl_le cu cu' -> dbl_le cl cl' -> dbl_le cc cc' ->
  dbl_le (cost (choose cu cl cc dt i j)) (cost (choose cu' cl' cc' dt i j)).
Proof.
  intros Hu Hl Hc.
  destruct (choose_cases cu cl cc dt i j) as [( -> & A & B)|[( -> & A & B)|( -> & A & B)]];
    destruct (choose_cases cu' cl' cc' dt i j)
      as [( -> & A' & B')|[( -> & A' & B')|( -> & A' & B')]];
    simpl; apply dbl_add_mono; eauto using dbl_le_trans.
Qed.

Lemma get_cost_finite D k q :
  __get_cost D (fst k) (snd k) Inf = Fin q -> finite_at D k.
Proof.
  unfold __get_cost, __get_key, finite_at. destruct k as [i j]. simpl.
  destruct (D !! (i, j)) as [e|]; [eauto | discriminate].
Qed.

Lemma finite_get_cost D k :
  finite_at D k -> exists q, __get_cost D (fst k) (snd k) Inf = Fin q.
Proof.
  unfold __get_cost, __get_key, finite_at. destruct k as [i j]. simpl.
  intros (e & q & -> & Hq). eauto.
Qed.

(** the entry stored is finite exactly when a predecessor is, and then its
    own predecessor is finite *)
Lemma choose_finite_pred D i j dt q :
  cost (choose (__get_cost D (i - 1) j Inf) (__get_cost D i (j - 1) Inf)
               (__get_cost D (i - 1) (j - 1) Inf) dt i j) = Fin q ->
  finite_at D
    (prev_x_idx (choose (__get_cost D (i - 1) j Inf) (__get_cost D i (j - 1) Inf)
                        (__get_cost D (i - 1) (j - 1) Inf) dt i j),
     prev_y_idx (choose (__get_cost D (i - 1) j Inf) (__get_cost D i (j - 1) Inf)
                        (__get_cost D (i - 1) (j - 1) Inf) dt i j)).
Proof.
  destruct (choose_cases (__get_cost D (i - 1) j Inf) (__get_cost D i (j - 1) Inf)
              (__get_cost D (i - 1) (j - 1) Inf) dt i j)
    as [( -> & _)|[( -> & _)|( -> & _)]]; simpl; intros H;
    apply dbl_add_fin in H as [q' H];
    [apply (get_cost_finite D (i - 1, j) q')
    |apply (get_cost_finite D (i, j - 1) q')
    |apply (get_cost_finite D (i - 1, j - 1) q')]; exact H.
Qed.

Lemma choose_finite_of_pred D i j dt p :
  p ∈ preds (i, j) -> finite_at D p ->
  exists q,
    cost (choose (__get_cost D (i - 1) j Inf) (__get_cost D i (j - 1) Inf)
                 (__get_cost D (i - 1) (j - 1) Inf) dt i j) = Fin q.
Proof.
  intros Hp Hf. apply finite_get_cost in Hf as [q Hq].
  unfold preds in Hp. simpl in Hp. rewrite !elem_of_cons, elem_of_nil in Hp.
  destruct (choose_cases (__get_cost D (i - 1) j Inf) (__get_cost D i (j - 1) Inf)
              (__get_cost D (i - 1) (j - 1) Inf) dt i j)
    as [( -> & A & B)|[( -> & A & B)|( -> & A & B)]]; simpl;
    destruct Hp as [->|[->|[->|[]]]]; simpl in Hq; rewrite Hq in *;
    repeat match goal with
           | H : dbl_le _ (Fin _) |- _ => apply dbl_le_fin in H as [? ->]
           end; simpl; eauto.
Qed.

(** ** Invariants of the cost table *)

Lemma get_cost_insert_ne (D : gmap (Z * Z) CostEntry) c e i j inf :
  c <> (i, j) -> __get_cost (<[c := e]> D) i j inf = __get_cost D i j inf.
Proof.
  intros Hne. unfold __get_cost, __get_key. by rewrite lookup_insert_ne.
Qed.

Lemma finite_at_insert_ne (D : gmap (Z * Z) CostEntry) c e k :
  c <> k -> finite_at D k -> finite_at (<[c := e]> D) k.
Proof.
  intros Hne (e' & q & H1 & H2). exists e', q.
  by rewrite lookup_insert_ne.
Qed.

Ltac in_preds :=
  unfold preds; simpl; rewrite !elem_of_cons; auto 6.

Lemma pred_neq c p : p ∈ preds c -> p <> c.
Proof. intros Hp ->. exact (cell_lt_irrefl _ (pred_cell_lt _ _ Hp)). Qed.

Lemma pred_sum_lt c p : p ∈ preds c -> fst p + snd p < fst c + snd c.
Proof.
  unfold preds. rewrite !elem_of_cons, elem_of_nil.
  intros [->|[->|[->|[]]]]; simpl; lia.
Qed.

Lemma cell_lt_trans a b c : cell_lt a b -> cell_lt b c -> cell_lt a c.
Proof. unfold cell_lt. lia. Qed.

Lemma sound_origin : sound {[ (0, 0) := zero_entry ]}.
Proof.
  split; [apply lookup_singleton_eq|].
  intros k e Hk Hne. apply lookup_singleton_Some in Hk as [<- _]. congruence.
Qed.

Lemma sound_decreasing D : sound D -> decreasing D.
Proof.
  intros [H0 HD] k e Hk. destruct (decide (k = (0, 0))) as [->|Hne].
  - rewrite H0 in Hk. inversion Hk; subst. by left.
  - right. destruct (HD k e Hk Hne) as (_ & _ & Hp & _).
    apply pred_sum_lt in Hp. simpl in Hp. lia.
Qed.

Section MapSolverFacts.
Variable view : Z -> Z.
Hypothesis view_nonneg : forall z, 0 <= z -> view z = z.
Variable dist : Q -> Q -> outcome Q.
Variables x y : list Q.

Lemma visit_sound D c D' :
  sound D -> 1 <= fst c -> 1 <= snd c ->
  visit view dist x y D c = Ok D' -> sound D'.
Proof.
  intros [H0 HD] Hc1 Hc2 Hv.
  apply visit_inv in Hv as (a & b & dt & _ & _ & _ & ->).
  destruct c as [i j]. simpl in *.
  set (e0 := choose _ _ _ dt i j).
  assert ((i, j) <> (0, 0)) as Hne0 by (intros H; inversion H; lia).
  assert ((prev_x_idx e0, prev_y_idx e0) ∈ preds (i, j)) as Hp0.
  { unfold e0. rewrite choose_prev. apply predecessor_rule_preds. }
  split; [by rewrite lookup_insert_ne|].
  intros k e Hk Hk0. destruct (decide ((i, j) = k)) as [<-|Hne].
  - rewrite lookup_insert_eq in Hk. inversion Hk; subst e. simpl.
    split; [lia|]. split; [lia|]. split; [exact Hp0|].
    intros q Hq. apply finite_at_insert_ne.
    + intros Heq. symmetry in Heq. revert Heq. by apply pred_neq.
    + unfold e0 in *. by eapply choose_finite_pred.
  - rewrite lookup_insert_ne in Hk by exact Hne.
    destruct (HD k e Hk Hk0) as (A & B & C & F).
    split; [exact A|]. split; [exact B|]. split; [exact C|].
    intros q Hq. specialize (F q Hq).
    destruct (decide ((i, j) = (prev_x_idx e, prev_y_idx e))) as [Heq|Hne'].
    + rewrite <- Heq in *. destruct F as (ec & qc & Hec & Hqc).
      destruct (HD (i, j) ec Hec Hne0) as (_ & _ & Pc & Fc).
      destruct (choose_finite_of_pred D i j dt _ Pc (Fc qc Hqc)) as [q1 Hq1].
      exists e0, q1. split; [apply lookup_insert_eq | exact Hq1].
    + by apply finite_at_insert_ne.
Qed.

Lemma fill_sound w : forall D D',
  Forall (fun c : Z * Z => 1 <= fst c /\ 1 <= snd c) w ->
  sound D -> fill view dist x y D w = Ok D' -> sound D'.
Proof.
  induction w as [|c w IH]; intros D D' Hw HD Hf; simpl in Hf.
  - inversion Hf; subst. exact HD.
  - inversion Hw as [|? ? [Hc1 Hc2] Hw']; subst.
    destruct (visit view dist x y D c) as [D1| |] eqn:Hv; simpl in Hf;
      try discriminate.
    eapply IH; [exact Hw'| |exact Hf]. eapply visit_sound; eassumption.
Qed.

Lemma visit_keeps D c D' k :
  visit view dist x y D c = Ok D' -> is_Some (D !! k) -> is_Some (D' !! k).
Proof.
  intros Hv Hk. apply visit_inv in Hv as (a & b & dt & _ & _ & _ & ->).
  destruct (decide (c = k)) as [->|Hne].
  - rewrite lookup_insert_eq. eauto.
  - by rewrite lookup_insert_ne.
Qed.

Lemma fill_keeps w : forall D D' k,
  fill view dist x y D w = Ok D' -> is_Some (D !! k) -> is_Some (D' !! k).
Proof.
  induction w as [|c w IH]; intros D D' k Hf Hk; simpl in Hf.
  - inversion Hf; subst. exact Hk.
  - destruct (visit view dist x y D c) as [D1| |] eqn:Hv; simpl in Hf;
      try discriminate.
    eapply IH; [exact Hf|]. eapply visit_keeps; eassumption.
Qed.

Lemma fill_populates w : forall D D' c,
  c ∈ w -> fill view dist x y D w = Ok D' -> is_Some (D' !! c).
Proof.
  induction w as [|c' w IH]; intros D D' c Hc Hf; simpl in Hf.
  - by apply elem_of_nil in Hc.
  - destruct (visit view dist x y D c') as [D1| |] eqn:Hv; simpl in Hf;
      try discriminate.
    apply elem_of_cons in Hc as [->|Hc].
    + eapply fill_keeps; [exact Hf|].
      apply visit_inv in Hv as (a & b & dt & _ & _ & _ & ->).
      rewrite lookup_insert_eq. eauto.
    + eapply IH; eassumption.
Qed.

Lemma map_at_some (D : gmap (Z * Z) CostEntry) k e :
  D !! k = Some e -> map_at D k = (e, D).
Proof. intros H. unfold map_at. by rewrite H. Qed.

Lemma map_at_none (D : gmap (Z * Z) CostEntry) k :
  D !! k = None -> map_at D k = (zero_entry, <[k := zero_entry]> D).
Proof. intros H. unfold map_at. by rewrite H. Qed.

Lemma map_at_keeps (D : gmap (Z * Z) CostEntry) k k' e :
  D !! k' = Some e -> snd (map_at D k) !! k' = Some e.
Proof.
  intros H. unfold map_at. destruct (D !! k) eqn:Hk; simpl; [exact H|].
  rewrite lookup_insert_ne; [exact H | congruence].
Qed.

Lemma backtrack_keeps fuel : forall D i j r k e,
  backtrack view fuel D i j = Ok r -> D !! k = Some e -> fst r !! k = Some e.
Proof.
  induction fuel as [|fuel IH]; intros D i j r k e Hb Hk; simpl in Hb.
  - destruct ((i =? 0) && (j =? 0)); [|discriminate].
    inversion Hb; subst. exact Hk.
  - destruct ((i =? 0) && (j =? 0)).
    { inversion Hb; subst. exact Hk. }
    pose proof (map_at_keeps D (__get_key i j) k e Hk) as Hk'.
    destruct (map_at D (__get_key i j)) as [ce D1]. simpl in Hk'.
    destruct (backtrack view fuel D1 (prev_x_idx ce) (prev_y_idx ce))
      as [r1| |] eqn:Hr; simpl in Hb; try discriminate.
    inversion Hb; subst. simpl. eapply IH; eassumption.
Qed.

Lemma backtrack_trail D :
  sound D ->
  forall fuel i j,
    finite_at D (i, j) ->
    (size (below (i + j) D) < fuel)%nat ->
    exists l, backtrack view fuel D i j = Ok (D, l) /\ trail (i, j) l.
Proof.
  intros HD. pose proof (sound_decreasing D HD) as Hdec.
  destruct HD as [H0 HD].
  induction fuel as [|fuel IH]; intros i j Hfin Hsz; [lia|].
  simpl. destruct ((i =? 0) && (j =? 0)) eqn:Hz.
  { apply andb_true_iff in Hz as [Hi Hj].
    apply Z.eqb_eq in Hi, Hj. subst. exists []. split; [reflexivity | constructor]. }
  assert ((i, j) <> (0, 0)) as Hne.
  { intros H. inversion H; subst. discriminate. }
  destruct Hfin as (e & q & He & Hq).
  unfold __get_key. rewrite (map_at_some _ _ _ He).
  destruct (HD _ _ He Hne) as (Hi & Hj & Hp & Hf). simpl in Hi, Hj.
  destruct (IH (prev_x_idx e) (prev_y_idx e) (Hf q Hq)) as (l & Hl & Ht).
  - assert (below (prev_x_idx e + prev_y_idx e) D ⊂ below (i + j) D) as Hsub.
    { pose proof (pred_sum_lt _ _ Hp) as Hlt.
      simpl in Hlt. split; [apply below_mono; lia|].
      intros Hsup. assert ((i, j) ∈ below (i + j) D) as Hin.
      { unfold below. apply elem_of_filter. split; [simpl; lia|].
        apply elem_of_dom. eauto. }
      apply Hsup in Hin. unfold below in Hin.
      apply elem_of_filter in Hin as [Hin _]. simpl in Hin. lia. }
    apply subset_size in Hsub. lia.
  - rewrite Hl. simpl. rewrite !view_nonneg by lia.
    eexists. split; [reflexivity|].
    apply (trail_step (i, j) _ l Hi Hj Hp Ht).
Qed.

(** the pair returned when the table is filled and the final cell holds [e] *)
Lemma dtw_map_result window D e r :
  fill view dist x y {[ __get_key 0 0 := zero_entry ]}
       (map shift (match window with None => grid (len x) (len y) | Some w => w end))
    = Ok D ->
  D !! (len x, len y) = Some e ->
  dtw_map view dist x y window = Ok r -> fst r = cost e.
Proof.
  intros Hf He. unfold dtw_map. rewrite Hf. unfold bind.
  destruct (backtrack view (S (size D)) D (len x) (len y)) as [r1| |] eqn:Hb;
    try discriminate.
  intros H. inversion H; subst. simpl.
  rewrite (map_at_some _ _ _ (backtrack_keeps _ _ _ _ _ _ _ Hb He)).
  reflexivity.
Qed.
End MapSolverFacts.

(** ** Windows in row-major order *)

Lemma sorted_split_lt (pre suf : list (Z * Z)) c p :
  StronglySorted cell_lt (pre ++ c :: suf) ->
  p ∈ pre ++ c :: suf -> cell_lt p c -> p ∈ pre.
Proof.
  intros Hs Hin Hlt. apply StronglySorted_app in Hs as (_ & _ & Hs).
  apply StronglySorted_cons in Hs as [Hall _].
  apply elem_of_app in Hin as [Hin|Hin]; [exact Hin|].
  apply elem_of_cons in Hin as [->|Hin].
  - destruct (cell_lt_irrefl _ Hlt).
  - rewrite Forall_forall in Hall. specialize (Hall _ Hin).
    unfold cell_lt in *. lia.
Qed.

Lemma sorted_split_fresh (pre suf : list (Z * Z)) c c' :
  StronglySorted cell_lt (pre ++ c :: suf) -> c' ∈ pre -> cell_lt c' c.
Proof.
  intros Hs Hin. apply StronglySorted_app in Hs as (H & _ & _).
  apply (H c' c Hin). by left.
Qed.

Lemma shift_elem_of (w : list (Z * Z)) c :
  c ∈ map shift w <-> (fst c - 1, snd c - 1) ∈ w.
Proof.
  change (map shift w) with (shift <$> w). rewrite list_elem_of_fmap. split.
  - intros ([i j] & -> & Hin). unfold shift. simpl.
    by replace (i + 1 - 1) with i by lia; replace (j + 1 - 1) with j by lia.
  - intros Hin. exists (fst c - 1, snd c - 1). split; [|exact Hin].
    destruct c as [i j]. unfold shift. simpl. f_equal; lia.
Qed.

Lemma shift_sorted (w : list (Z * Z)) :
  StronglySorted cell_lt w -> StronglySorted cell_lt (map shift w).
Proof.
  induction 1 as [|a w Hs IH Hall]; simpl; constructor; [exact IH|].
  rewrite Forall_forall in Hall. rewrite Forall_forall. intros c Hc.
  apply shift_elem_of in Hc. specialize (Hall _ Hc).
  unfold cell_lt, shift in *. simpl in *. lia.
Qed.

Lemma shift_connected (w : list (Z * Z)) :
  connected (0, 0) w -> connected (1, 1) (map shift w).
Proof.
  intros Hc c Hin. apply shift_elem_of in Hin.
  destruct (Hc _ Hin) as [Heq|(p & Hp & Hpw)].
  - left. destruct c as [i j]. simpl in Heq. inversion Heq. f_equal; lia.
  - right. exists (fst p + 1, snd p + 1). split.
    + unfold preds in *. simpl in *. rewrite !elem_of_cons, elem_of_nil in *.
      destruct Hp as [->|[->|[->|[]]]]; simpl;
        [left | right; left | right; right; left]; f_equal; lia.
    + apply shift_elem_of. simpl.
      replace (fst p + 1 - 1) with (fst p) by lia.
      replace (snd p + 1 - 1) with (snd p) by lia. by destruct p.
Qed.

Lemma shift_in_grid lx ly (w : list (Z * Z)) :
  in_grid lx ly w ->
  Forall (fun c : Z * Z => 1 <= fst c <= lx /\ 1 <= snd c <= ly) (map shift w).
Proof.
  unfold in_grid. rewrite !Forall_forall. intros H c Hc.
  apply shift_elem_of in Hc. specialize (H _ Hc). simpl in H. lia.
Qed.

Lemma rows_sorted (f : Z -> list (Z * Z)) rows :
  StronglySorted Z.lt rows ->
  (forall i, StronglySorted cell_lt (f i)) ->
  (forall i c, c ∈ f i -> fst c = i) ->
  StronglySorted cell_lt (flat_map f rows).
Proof.
  intros Hs Hf Hi. induction Hs as [|i rows Hs IH Hall]; simpl; [constructor|].
  apply StronglySorted_app_2; [|apply Hf|exact IH].
  intros a b Ha Hb. left. rewrite (Hi _ _ Ha).
  apply list_elem_of_In, in_flat_map in Hb as (i' & Hi' & Hb).
  apply list_elem_of_In in Hi', Hb. rewrite (Hi _ _ Hb).
  rewrite Forall_forall in Hall. by apply Hall.
Qed.

Lemma grid_sorted lx ly : StronglySorted cell_lt (grid lx ly).
Proof.
  apply rows_sorted; [apply zrange_sorted| |].
  - intros i. pose proof (zrange_sorted 0 ly) as Hs.
    induction Hs as [|j js Hs IH Hall]; simpl; constructor; [exact IH|].
    rewrite Forall_forall in Hall. rewrite Forall_forall. intros c Hc.
    apply list_elem_of_In, in_map_iff in Hc as (j' & <- & Hj').
    apply list_elem_of_In in Hj'. right. simpl. split; [reflexivity | by apply Hall].
  - intros i c Hc. apply list_elem_of_In, in_map_iff in Hc as (j' & <- & _).
    reflexivity.
Qed.

Lemma grid_in_grid lx ly : in_grid lx ly (grid lx ly).
Proof.
  unfold in_grid. apply Forall_forall. intros [i j] Hc.
  by apply elem_of_grid in Hc.
Qed.

Lemma grid_connected lx ly : connected (0, 0) (grid lx ly).
Proof.
  intros [i j] Hc. apply elem_of_grid in Hc.
  destruct (decide (j = 0)) as [->|Hj].
  - destruct (decide (i = 0)) as [->|Hi]; [by left|].
    right. exists (i - 1, 0). split; [in_preds|].
    apply elem_of_grid. lia.
  - right. exists (i, j - 1). split; [in_preds|].
    apply elem_of_grid. lia.
Qed.

Section MapSolverWindows.
Variable view : Z -> Z.
Hypothesis view_nonneg : forall z, 0 <= z -> view z = z.
Variable dist : Q -> Q -> outcome Q.
Variables x y : list Q.

Lemma fill_finite suf : forall pre D D',
  StronglySorted cell_lt (pre ++ suf) ->
  connected (1, 1) (pre ++ suf) ->
  Forall (fun c : Z * Z => 1 <= fst c /\ 1 <= snd c) suf ->
  sound D -> (forall c, c ∈ pre -> finite_at D c) ->
  fill view dist x y D suf = Ok D' ->
  forall c, c ∈ pre ++ suf -> finite_at D' c.
Proof.
  induction suf as [|c suf IH]; intros pre D D' Hs Hc Hge HD Hpre Hf; simpl in Hf.
  - inversion Hf; subst. rewrite app_nil_r. exact Hpre.
  - inversion Hge as [|? ? [Hc1 Hc2] Hge']; subst.
    destruct (visit view dist x y D c) as [D1| |] eqn:Hv; simpl in Hf;
      try discriminate.
    pose proof (visit_sound view dist x y D c D1 HD Hc1 Hc2 Hv) as HD1.
    apply visit_inv in Hv as (a & b & dt & _ & _ & _ & HD1eq).
    replace (pre ++ c :: suf) with ((pre ++ [c]) ++ suf) in *
      by (rewrite <- app_assoc; reflexivity).
    eapply IH; [exact Hs|exact Hc|exact Hge'|exact HD1| |exact Hf].
    intros c' Hc'. apply elem_of_app in Hc' as [Hc'|Hc'].
    + rewrite HD1eq. apply finite_at_insert_ne; [|by apply Hpre].
      intros ->. apply (cell_lt_irrefl c').
      eapply (sorted_split_fresh pre suf); [|exact Hc'].
      by rewrite <- app_assoc in Hs.
    + apply list_elem_of_singleton in Hc'. subst c'.
      assert (exists p, p ∈ preds c /\ finite_at D p) as (p & Hp & Hfp).
      { destruct (Hc c) as [->|(p & Hp & Hpw)].
        - apply elem_of_app. left. apply elem_of_app. right. by left.
        - exists (0, 0). split; [in_preds|].
          destruct HD as [H0 _]. exists zero_entry, 0%Q. by split.
        - exists p. split; [exact Hp|]. apply Hpre.
          eapply (sorted_split_lt pre suf c).
          + by rewrite <- app_assoc in Hs.
          + by rewrite <- app_assoc in Hpw.
          + by apply pred_cell_lt. }
      destruct c as [i j].
      destruct (choose_finite_of_pred D i j dt p Hp Hfp) as [q Hq].
      rewrite HD1eq. eexists _, q. split; [apply lookup_insert_eq | exact Hq].
Qed.

Lemma recurrence_insert_ne D c e c' :
  c <> c' -> (forall p, p ∈ preds c' -> c <> p) ->
  recurrence_at dist x y D c' -> recurrence_at dist x y (<[c := e]> D) c'.
Proof.
  intros Hne Hp (a & b & dt & Ha & Hb & Hd & HD).
  exists a, b, dt. split; [exact Ha|]. split; [exact Hb|]. split; [exact Hd|].
  rewrite lookup_insert_ne by exact Hne.
  rewrite !get_cost_insert_ne; [exact HD| | |];
    apply Hp; in_preds.
Qed.

Lemma fill_recurrence suf : forall pre D D',
  StronglySorted cell_lt (pre ++ suf) ->
  Forall (fun c : Z * Z => 1 <= fst c /\ 1 <= snd c) suf ->
  (forall c, c ∈ pre -> recurrence_at dist x y D c) ->
  fill view dist x y D suf = Ok D' ->
  forall c, c ∈ pre ++ suf -> recurrence_at dist x y D' c.
Proof.
  induction suf as [|c suf IH]; intros pre D D' Hs Hge Hpre Hf; simpl in Hf.
  - inversion Hf; subst. rewrite app_nil_r. exact Hpre.
  - inversion Hge as [|? ? [Hc1 Hc2] Hge']; subst.
    destruct (visit view dist x y D c) as [D1| |] eqn:Hv; simpl in Hf;
      try discriminate.
    apply visit_inv in Hv as (a & b & dt & Ha & Hb & Hd & HD1eq).
    rewrite view_nonneg in Ha, Hb by lia.
    assert (StronglySorted cell_lt (pre ++ c :: suf)) as Hs0 by exact Hs.
    replace (pre ++ c :: suf) with ((pre ++ [c]) ++ suf) in Hs |- *
      by (rewrite <- app_assoc; reflexivity).
    eapply IH; [exact Hs|exact Hge'| |exact Hf].
    intros c' Hc'. rewrite HD1eq. apply elem_of_app in Hc' as [Hc'|Hc'].
    + pose proof (sorted_split_fresh pre suf c c' Hs0 Hc') as Hlt.
      apply recurrence_insert_ne; [| |by apply Hpre].
      * intros ->. exact (cell_lt_irrefl _ Hlt).
      * intros p Hp ->. apply pred_cell_lt in Hp.
        exact (cell_lt_irrefl _ (cell_lt_trans _ _ _ Hlt Hp)).
    + apply list_elem_of_singleton in Hc'. subst c'.
      exists a, b, dt. split; [exact Ha|]. split; [exact Hb|]. split; [exact Hd|].
      rewrite lookup_insert_eq.
      rewrite !get_cost_insert_ne; [reflexivity| | |];
        intros Heq; symmetry in Heq; revert Heq; apply pred_neq;
        in_preds.
Qed.

Lemma dominated_get D D' i j :
  dominated D D' -> dbl_le (__get_cost D i j Inf) (__get_cost D' i j Inf).
Proof.
  intros H. unfold __get_cost at 2. unfold __get_key.
  destruct (D' !! (i, j)) as [e|] eqn:He.
  - apply (H (i, j) e He).
  - destruct (__get_cost D i j Inf); exact I.
Qed.

Lemma visit_dominated Dstar D c D' :
  recurrence_at dist x y Dstar c -> 1 <= fst c -> 1 <= snd c ->
  dominated Dstar D -> visit view dist x y D c = Ok D' -> dominated Dstar D'.
Proof.
  intros (a' & b' & dt' & Ha' & Hb' & Hd' & Hstar) Hc1 Hc2 Hdom Hv.
  apply visit_inv in Hv as (a & b & dt & Ha & Hb & Hd & ->).
  rewrite view_nonneg in Ha, Hb by lia.
  rewrite Ha in Ha'. inversion Ha'; subst a'.
  rewrite Hb in Hb'. inversion Hb'; subst b'.
  rewrite Hd in Hd'. inversion Hd'; subst dt'.
  intros k e Hk. destruct (decide (c = k)) as [<-|Hne].
  - rewrite lookup_insert_eq in Hk. inversion Hk; subst e.
    unfold __get_cost at 1. unfold __get_key.
    replace (fst c, snd c) with c by (by destruct c). rewrite Hstar.
    apply choose_mono; by apply dominated_get.
  - rewrite lookup_insert_ne in Hk by exact Hne. by apply Hdom.
Qed.

Lemma fill_dominated Dstar w : forall D D',
  Forall (fun c : Z * Z => recurrence_at dist x y Dstar c /\
                           1 <= fst c /\ 1 <= snd c) w ->
  dominated Dstar D -> fill view dist x y D w = Ok D' -> dominated Dstar D'.
Proof.
  induction w as [|c w IH]; intros D D' Hw Hdom Hf; simpl in Hf.
  - inversion Hf; subst. exact Hdom.
  - inversion Hw as [|? ? (Hr & Hc1 & Hc2) Hw']; subst.
    destruct (visit view dist x y D c) as [D1| |] eqn:Hv; simpl in Hf;
      try discriminate.
    eapply IH; [exact Hw'| |exact Hf].
    eapply visit_dominated; eassumption.
Qed.

(** the window loop succeeds on cells of the grid when [dist] returns *)
Lemma fill_ok w : forall D,
  (forall a b, exists dt, dist a b = Ok dt) ->
  Forall (fun c : Z * Z => 1 <= fst c <= len x /\ 1 <= snd c <= len y) w ->
  exists D', fill view dist x y D w = Ok D'.
Proof.
  induction w as [|[i j] w IH]; intros D Hd Hw; simpl; [eauto|].
  inversion Hw as [|? ? [Hi Hj] Hw']; subst. simpl in Hi, Hj.
  unfold visit. rewrite !view_nonneg by lia.
  unfold item, len in *.
  destruct (nth_error x (Z.to_nat (i - 1))) as [a|] eqn:Ha;
    [|apply nth_error_None in Ha; lia].
  destruct (nth_error y (Z.to_nat (j - 1))) as [b|] eqn:Hb;
    [|apply nth_error_None in Hb; lia].
  replace ((0 <=? i - 1) && (i - 1 <? Z.of_nat (length x))) with true
    by (symmetry; apply andb_true_iff; split; [apply Z.leb_le|apply Z.ltb_lt]; lia).
  replace ((0 <=? j - 1) && (j - 1 <? Z.of_nat (length y))) with true
    by (symmetry; apply andb_true_iff; split; [apply Z.leb_le|apply Z.ltb_lt]; lia).
  simpl. destruct (Hd a b) as [dt ->]. simpl. apply IH; assumption.
Qed.
End MapSolverWindows.

(** ** What the C++ solver returns *)

Lemma as_unsigned_nonneg z : 0 <= z -> as_unsigned z = z.
Proof. intros H. unfold as_unsigned. destruct (Z.ltb_spec z 0); [lia | reflexivity]. Qed.

Section MapSolverMain.
Variable view : Z -> Z.
Hypothesis view_nonneg : forall z, 0 <= z -> view z = z.
Variable dist : Q -> Q -> outcome Q.
Variables x y : list Q.

Lemma dtw_map_none :
  dtw_map view dist x y None = dtw_map view dist x y (Some (grid (len x) (len y))).
Proof. reflexivity. Qed.

Lemma ge1_of_in_grid (w : list (Z * Z)) :
  in_grid (len x) (len y) w ->
  Forall (fun c : Z * Z => 1 <= fst c /\ 1 <= snd c) (map shift w).
Proof.
  intros H. eapply Forall_impl; [apply shift_in_grid, H|].
  intros c. simpl. lia.
Qed.

Lemma size_below_lt (D : gmap (Z * Z) CostEntry) s :
  (size (below s D) < S (size D))%nat.
Proof.
  apply Nat.lt_succ_r. rewrite <- (size_dom (D:=gset (Z * Z)) D).
  apply subseteq_size. unfold below. intros k Hk.
  apply elem_of_filter in Hk. tauto.
Qed.


(** on a window in row-major order in which every cell but (0,0) has a
    predecessor, the solver returns a finite cost and a warping path *)
Lemma dtw_map_connected w :
  (forall a b, exists dt, dist a b = Ok dt) ->
  StronglySorted cell_lt w -> connected (0, 0) w ->
  in_grid (len x) (len y) w -> (len x - 1, len y - 1) ∈ w ->
  exists q p,
    dtw_map view dist x y (Some w) = Ok (Fin q, p) /\
    warping_path (len x) (len y) p.
Proof.
  intros Hd Hs Hc Hg Hterm.
  destruct (fill_ok view view_nonneg dist x y (map shift w)
              {[ __get_key 0 0 := zero_entry ]} Hd (shift_in_grid _ _ _ Hg))
    as [D Hf].
  pose proof (fill_sound view dist x y _ _ _ (ge1_of_in_grid w Hg)
                sound_origin Hf) as HD.
  assert (finite_at D (len x, len y)) as Hfin.
  { eapply (fill_finite view dist x y (map shift w) []);
      [by apply shift_sorted|by apply shift_connected|by apply ge1_of_in_grid
      |exact sound_origin| |exact Hf|].
    - intros c Hc'. by apply elem_of_nil in Hc'.
    - simpl. by apply shift_elem_of. }
  destruct (backtrack_trail view view_nonneg D HD (S (size D)) (len x) (len y)
              Hfin (size_below_lt D _)) as (l & Hl & Ht).
  destruct Hfin as (e & q & He & Hq).
  exists q, (rev l). split.
  - unfold dtw_map. rewrite Hf. unfold bind. rewrite Hl. simpl.
    rewrite (map_at_some _ _ _ He). simpl. by rewrite Hq.
  - assert (1 <= len x) as Hx.
    { unfold in_grid in Hg. rewrite Forall_forall in Hg.
      specialize (Hg _ Hterm). simpl in Hg. lia. }
    apply trail_warping; [exact Ht|]. intros H. inversion H. lia.
Qed.

(** exact DTW on two non-empty sequences *)
Lemma dtw_map_exact :
  (forall a b, exists dt, dist a b = Ok dt) ->
  x <> [] -> y <> [] ->
  exists q p,
    dtw_map view dist x y None = Ok (Fin q, p) /\
    warping_path (len x) (len y) p.
Proof.
  intros Hd Hx Hy. rewrite dtw_map_none.
  apply dtw_map_connected;
    [exact Hd|apply grid_sorted|apply grid_connected|apply grid_in_grid|].
  apply elem_of_grid. unfold len.
  destruct x; [congruence|]. destruct y; [congruence|]. simpl. lia.
Qed.

(** no window gives a cost below that of the full grid *)
Lemma dtw_map_ge_exact w c p c0 p0 :
  in_grid (len x) (len y) w ->
  (len x - 1, len y - 1) ∈ w ->
  dtw_map view dist x y (Some w) = Ok (c, p) ->
  dtw_map view dist x y None = Ok (c0, p0) ->
  dbl_le c0 c.
Proof.
  intros Hg Hterm Hw Hn.
  pose proof Hw as Hw'. pose proof Hn as Hn'.
  rewrite dtw_map_none in Hn. unfold dtw_map in Hw, Hn.
  destruct (fill view dist x y {[ __get_key 0 0 := zero_entry ]} (map shift w))
    as [D| |] eqn:Hf; try discriminate.
  destruct (fill view dist x y {[ __get_key 0 0 := zero_entry ]}
              (map shift (grid (len x) (len y))))
    as [Dstar| |] eqn:Hfs; try discriminate.
  clear Hw Hn.
  assert (is_Some (D !! (len x, len y))) as [e He].
  { eapply fill_populates; [|exact Hf]. by apply shift_elem_of. }
  assert (in_grid (len x) (len y) (grid (len x) (len y))) as Hgg
      by apply grid_in_grid.
  assert ((len x - 1, len y - 1) ∈ grid (len x) (len y)) as Htg.
  { unfold in_grid in Hg. rewrite Forall_forall in Hg.
    specialize (Hg _ Hterm). simpl in Hg. apply elem_of_grid. lia. }
  assert (is_Some (Dstar !! (len x, len y))) as [es Hes].
  { eapply fill_populates; [|exact Hfs]. by apply shift_elem_of. }
  pose proof (dtw_map_result view dist x y (Some w) D e _ Hf He Hw') as Hc.
  pose proof (dtw_map_result view dist x y None Dstar es _ Hfs Hes Hn') as Hc0.
  simpl in Hc, Hc0. subst c c0.
  pose proof (fill_recurrence view view_nonneg dist x y
                (map shift (grid (len x) (len y))) [] _ _
                (shift_sorted _ (grid_sorted _ _)) (ge1_of_in_grid _ Hgg)
                (fun c Hc => False_ind _ (proj1 (elem_of_nil c) Hc)) Hfs) as Hrec.
  simpl in Hrec.
  pose proof (fill_sound view dist x y _ _ _ (ge1_of_in_grid _ Hgg)
                sound_origin Hfs) as [Hs0 _].
  assert (dominated Dstar D) as Hdom.
  { eapply (fill_dominated view view_nonneg dist x y Dstar (map shift w));
      [| |exact Hf].
    - pose proof (shift_in_grid _ _ _ Hg) as Hsg.
      rewrite Forall_forall in Hsg. rewrite Forall_forall.
      intros k Hk. specialize (Hsg _ Hk). simpl in Hsg.
      split; [|lia]. apply Hrec. apply shift_elem_of, elem_of_grid. lia.
    - intros k e' Hk. apply lookup_singleton_Some in Hk as [<- <-].
      unfold __get_cost, __get_key. simpl. rewrite Hs0. simpl. apply Qle_refl. }
  specialize (Hdom _ _ He). simpl in Hdom.
  unfold __get_cost, __get_key in Hdom. by rewrite Hes in Hdom.
Qed.
End MapSolverMain.

(** ** The sets built by the window expander *)

Lemma elem_of_offsets radius a b :
  (a, b) ∈ offsets radius <-> - radius <= a <= radius /\ - radius <= b <= radius.
Proof.
  unfold offsets, __get_key. rewrite list_elem_of_In, in_flat_map. split.
  - intros (a' & Ha & Hb). apply list_elem_of_In, elem_of_zrange in Ha.
    apply in_map_iff in Hb as (b' & Heq & Hb').
    apply list_elem_of_In, elem_of_zrange in Hb'. inversion Heq; subst. lia.
  - intros [Ha Hb]. exists a. split; [apply list_elem_of_In, elem_of_zrange; lia|].
    apply in_map_iff. exists b. split; [reflexivity|].
    apply list_elem_of_In, elem_of_zrange. lia.
Qed.

Lemma elem_of_add_offsets (lst : list (Z * Z)) i j : forall (acc : gset (Z * Z)) c,
  c ∈ fold_left (fun (acc : gset (Z * Z)) '(a, b) => acc ∪ {[ (i + a, j + b) ]}) lst acc
  <-> c ∈ acc \/ exists o, o ∈ lst /\ c = (i + fst o, j + snd o).
Proof.
  induction lst as [|[a b] lst IH]; intros acc c; simpl.
  - split; [by left|]. intros [H|(o & Ho & _)]; [exact H|]. by apply elem_of_nil in Ho.
  - rewrite IH, elem_of_union, elem_of_singleton. split.
    + intros [[H|H]|(o & Ho & Hc)]; [by left| |].
      * right. exists (a, b). split; [by left | exact H].
      * right. exists o. split; [by right | exact Hc].
    + intros [H|(o & Ho & Hc)]; [by left; left|].
      apply elem_of_cons in Ho as [->|Ho]; [left; right; exact Hc|].
      right. eauto.
Qed.

Lemma elem_of_dilate_acc (lst path : list (Z * Z)) : forall (acc : gset (Z * Z)) c,
  c ∈ fold_left (fun (acc : gset (Z * Z)) '(i, j) =>
                   fold_left (fun (acc : gset (Z * Z)) '(a, b) =>
                                acc ∪ {[ (i + a, j + b) ]}) lst acc)
                path acc
  <-> c ∈ acc \/
      exists p o, p ∈ path /\ o ∈ lst /\ c = (fst p + fst o, snd p + snd o).
Proof.
  induction path as [|[i j] path IH]; intros acc c; simpl.
  - split; [by left|]. intros [H|(p & o & Hp & _)]; [exact H|].
    by apply elem_of_nil in Hp.
  - rewrite IH, elem_of_add_offsets. split.
    + intros [[H|(o & Ho & Hc)]|(p & o & Hp & Ho & Hc)]; [by left| |].
      * right. exists (i, j), o. split; [by left|]. by split.
      * right. exists p, o. split; [by right|]. by split.
    + intros [H|(p & o & Hp & Ho & Hc)]; [by left; left|].
      apply elem_of_cons in Hp as [->|Hp]; [left; right; eauto|].
      right. eauto.
Qed.

Lemma elem_of_dilate radius path h :
  h ∈ dilate (offsets radius) path <-> halo radius path h.
Proof.
  unfold dilate. rewrite elem_of_dilate_acc. unfold halo, near. split.
  - intros [H|(p & [a b] & Hp & Ho & ->)]; [by apply elem_of_empty in H|].
    apply elem_of_offsets in Ho. exists p. split; [exact Hp|]. simpl. lia.
  - intros (p & Hp & Hn). right.
    exists p, (fst h - fst p, snd h - snd p). split; [exact Hp|]. split.
    + apply elem_of_offsets. lia.
    + destruct h. simpl. f_equal; lia.
Qed.

Lemma div2_even i : i * 2 / 2 = i.
Proof. symmetry. apply (Z.div_unique (i * 2) 2 i 0); lia. Qed.

Lemma div2_odd i : (i * 2 + 1) / 2 = i.
Proof. symmetry. apply (Z.div_unique (i * 2 + 1) 2 i 1); lia. Qed.

Lemma elem_of_children c h :
  c ∈ children h <-> h = (fst c / 2, snd c / 2).
Proof.
  destruct h as [i j], c as [a b]. unfold children. simpl.
  rewrite !elem_of_union, !elem_of_singleton. split.
  - intros [[[H|H]|H]|H]; inversion H; subst;
      rewrite ?div2_even, ?div2_odd; reflexivity.
  - intros H. inversion H; subst.
    pose proof (Z.div_mod a 2 ltac:(lia)). pose proof (Z.mod_pos_bound a 2 ltac:(lia)).
    pose proof (Z.div_mod b 2 ltac:(lia)). pose proof (Z.mod_pos_bound b 2 ltac:(lia)).
    assert (a mod 2 = 0 \/ a mod 2 = 1) as [Ha|Ha] by lia;
      assert (b mod 2 = 0 \/ b mod 2 = 1) as [Hb|Hb] by lia;
      [left; left; left | left; left; right | left; right | right];
      f_equal; lia.
Qed.

(** membership in [window_] *)
Lemma elem_of_window_ radius path c :
  c ∈ project (dilate (offsets radius) path) <->
  halo radius path (fst c / 2, snd c / 2).
Proof.
  unfold project. rewrite elem_of_set_bind. split.
  - intros (h & Hh & Hc). apply elem_of_children in Hc. subst h.
    by apply elem_of_dilate.
  - intros H. exists (fst c / 2, snd c / 2). split; [by apply elem_of_dilate|].
    by apply elem_of_children.
Qed.

(** ** Warping paths *)

Lemma path_pred (path : list (Z * Z)) :
  adjacent step_ok path ->
  forall p, p ∈ path -> head path <> Some p ->
            exists p', p' ∈ path /\ step_ok p' p.
Proof.
  induction path as [|a path IH]; intros Hadj p Hp Hh.
  - by apply elem_of_nil in Hp.
  - apply elem_of_cons in Hp as [->|Hp]; [simpl in Hh; congruence|].
    simpl in Hadj. destruct Hadj as [Ha Hadj].
    destruct path as [|b path]; [by apply elem_of_nil in Hp|].
    destruct (decide (b = p)) as [->|Hne].
    + exists a. split; [by left | exact Ha].
    + destruct (IH Hadj p Hp) as (p' & Hp' & Hs).
      * simpl. congruence.
      * exists p'. split; [by right | exact Hs].
Qed.

Lemma path_succ (path : list (Z * Z)) :
  adjacent step_ok path ->
  forall p, p ∈ path -> last path <> Some p ->
            exists p', p' ∈ path /\ step_ok p p'.
Proof.
  induction path as [|a path IH]; intros Hadj p Hp Hl.
  - by apply elem_of_nil in Hp.
  - simpl in Hadj. destruct Hadj as [Ha Hadj].
    destruct path as [|b path].
    + apply list_elem_of_singleton in Hp. subst. simpl in Hl. congruence.
    + apply elem_of_cons in Hp as [->|Hp].
      * exists b. split; [right; by left | exact Ha].
      * destruct (IH Hadj p Hp) as (p' & Hp' & Hs); [exact Hl|].
        exists p'. split; [by right | exact Hs].
Qed.

(** a path passes through every column between those of two of its cells *)
Lemma path_columns (t : list (Z * Z)) : forall a,
  adjacent step_ok (a :: t) ->
  forall p c, p ∈ a :: t -> snd a <= c <= snd p ->
              exists m, m ∈ a :: t /\ snd m = c /\ fst a <= fst m <= fst p.
Proof.
  induction t as [|b t IH]; intros a Hadj p c Hp Hc.
  - apply list_elem_of_singleton in Hp. subst p.
    exists a. split; [by left|]. lia.
  - pose proof (adjacent_steps_sorted _ Hadj) as Hs.
    apply StronglySorted_cons in Hs as [Hall _]. rewrite Forall_forall in Hall.
    destruct Hadj as [Hab Hadj].
    apply elem_of_cons in Hp as [->|Hp].
    + exists a. split; [by left|]. lia.
    + pose proof (Hall _ Hp) as [Hle1 Hle2].
      destruct (decide (c = snd a)) as [->|Hne].
      * exists a. split; [by left|]. lia.
      * destruct (IH b Hadj p c Hp) as (m & Hm & Hm2 & Hm1).
        { unfold step_ok in Hab. destruct Hab as [->|[->| ->]]; simpl; lia. }
        exists m. split; [by right|]. split; [exact Hm2|].
        unfold step_ok in Hab. destruct Hab as [->|[->| ->]]; simpl in *; lia.
Qed.

(** and through every row *)
Lemma path_rows (t : list (Z * Z)) : forall a,
  adjacent step_ok (a :: t) ->
  forall p c, p ∈ a :: t -> fst a <= c <= fst p ->
              exists m, m ∈ a :: t /\ fst m = c /\ snd a <= snd m <= snd p.
Proof.
  induction t as [|b t IH]; intros a Hadj p c Hp Hc.
  - apply list_elem_of_singleton in Hp. subst p.
    exists a. split; [by left|]. lia.
  - pose proof (adjacent_steps_sorted _ Hadj) as Hs.
    apply StronglySorted_cons in Hs as [Hall _]. rewrite Forall_forall in Hall.
    destruct Hadj as [Hab Hadj].
    apply elem_of_cons in Hp as [->|Hp].
    + exists a. split; [by left|]. lia.
    + pose proof (Hall _ Hp) as [Hle1 Hle2].
      destruct (decide (c = fst a)) as [->|Hne].
      * exists a. split; [by left|]. lia.
      * destruct (IH b Hadj p c Hp) as (m & Hm & Hm2 & Hm1).
        { unfold step_ok in Hab. destruct Hab as [->|[->| ->]]; simpl; lia. }
        exists m. split; [by right|]. split; [exact Hm2|].
        unfold step_ok in Hab. destruct Hab as [->|[->| ->]]; simpl in *; lia.
Qed.

Lemma adjacent_suffix R (l1 l2 : list (Z * Z)) :
  adjacent R (l1 ++ l2) -> adjacent R l2.
Proof.
  induction l1 as [|a l1 IH]; simpl; [tauto|]. intros [_ H]. by apply IH.
Qed.

(** between any two cells of a path *)
Lemma path_between (path : list (Z * Z)) p q c :
  adjacent step_ok path -> p ∈ path -> q ∈ path ->
  snd p <= c <= snd q ->
  exists m, m ∈ path /\ snd m = c /\
            Z.min (fst p) (fst q) <= fst m <= Z.max (fst p) (fst q).
Proof.
  intros Hadj Hp Hq Hc.
  apply list_elem_of_split in Hp as (l1 & l2 & ->).
  apply elem_of_app in Hq as [Hq|Hq].
  - pose proof (adjacent_steps_sorted _ Hadj) as Hs.
    apply StronglySorted_app in Hs as (H & _ & _).
    destruct (H q p Hq ltac:(by left)) as [_ Hle].
    exists p. split; [apply elem_of_app; right; by left|]. lia.
  - destruct (path_columns l2 p (adjacent_suffix _ _ _ Hadj) q c Hq Hc)
      as (m & Hm & Hm2 & Hm1).
    exists m. split; [apply elem_of_app; by right|]. lia.
Qed.

Lemma warping_path_bounds lx ly path p :
  warping_path lx ly path -> p ∈ path ->
  0 <= fst p <= lx - 1 /\ 0 <= snd p <= ly - 1.
Proof.
  intros (Hh & Hl & Hadj & Hs) Hp.
  destruct path as [|a t]; [discriminate|]. simpl in Hh. inversion Hh; subst a.
  assert (cell_le (0, 0) p) as [H1 H2].
  { apply elem_of_cons in Hp as [->|Hp]; [split; simpl; lia|].
    apply StronglySorted_cons in Hs as [Hall _].
    rewrite Forall_forall in Hall. by apply Hall. }
  assert (cell_le p (lx - 1, ly - 1)) as [H3 H4].
  { destruct (decide (p = (lx - 1, ly - 1))) as [->|Hne]; [split; simpl; lia|].
    assert (exists l1, (0, 0) :: t = l1 ++ [(lx - 1, ly - 1)]) as [l1 Heq].
    { destruct (exists_last (l:=(0, 0) :: t) ltac:(discriminate)) as (l1 & z & Heq).
      exists l1. rewrite Heq in Hl. rewrite last_snoc in Hl.
      inversion Hl; subst. exact Heq. }
    rewrite Heq in Hs, Hp. apply StronglySorted_app in Hs as (H & _ & _).
    apply elem_of_app in Hp as [Hp|Hp].
    - apply (H _ _ Hp). by left.
    - apply list_elem_of_singleton in Hp. congruence. }
  simpl in *. lia.
Qed.

(** ** The dilated path around a warping path *)

Ltac dlia := Z.div_mod_to_equations; lia.

Section Halo.
Variables (path : list (Z * Z)) (lx ly radius : Z).
Hypothesis Hpath : warping_path lx ly path.
Hypothesis Hradius : 0 <= radius.

Lemma halo_head_in : (0, 0) ∈ path.
Proof using Hpath Hradius.
  destruct Hpath as (Hh & _). destruct path; [discriminate|].
  simpl in Hh. inversion Hh. by left.
Qed.

Lemma halo_last_in : (lx - 1, ly - 1) ∈ path.
Proof using Hpath Hradius.
  destruct Hpath as (_ & Hl & _).
  destruct (exists_last (l:=path)) as (l1 & z & Heq).
  { intros ->. discriminate. }
  rewrite Heq in Hl |- *. rewrite last_snoc in Hl. inversion Hl; subst.
  apply elem_of_app. right. by left.
Qed.

Lemma halo_path_cons : exists t, path = (0, 0) :: t.
Proof using Hpath Hradius.
  destruct Hpath as (Hh & _). destruct path as [|a t]; [discriminate|].
  simpl in Hh. inversion Hh. eauto.
Qed.

Lemma halo_contiguous i j1 j2 c :
  halo radius path (i, j1) -> halo radius path (i, j2) -> j1 <= c <= j2 ->
  halo radius path (i, c).
Proof using Hpath Hradius.
  intros (p & Hp & Hn1) (q & Hq & Hn2) Hc. unfold near in *. simpl in *.
  destruct (decide (c - radius <= snd p)) as [H1|H1].
  { exists p. split; [exact Hp|]. unfold near. simpl. lia. }
  destruct (decide (snd q <= c + radius)) as [H2|H2].
  { exists q. split; [exact Hq|]. unfold near. simpl. lia. }
  destruct Hpath as (_ & _ & Hadj & _).
  destruct (path_between path p q c Hadj Hp Hq ltac:(lia)) as (m & Hm & Hm2 & Hm1).
  exists m. split; [exact Hm|]. unfold near. simpl. lia.
Qed.

Lemma halo_pred i j :
  halo radius path (i, j) -> 0 <= i -> 0 <= j -> (i, j) <> (0, 0) ->
  (1 <= i /\ halo radius path (i - 1, j)) \/
  (1 <= j /\ halo radius path (i, j - 1)) \/
  (1 <= i /\ 1 <= j /\ halo radius path (i - 1, j - 1)).
Proof using Hpath Hradius.
  intros (p & Hp & Hn) Hi Hj Hne. unfold near in Hn. simpl in Hn.
  pose proof (warping_path_bounds _ _ _ _ Hpath Hp) as [Hb1 Hb2].
  destruct halo_path_cons as [t Ht].
  destruct Hpath as (_ & _ & Hadj & _).
  destruct (decide (i = 0)) as [->|Hi0].
  { assert (1 <= j) as Hj1.
    { destruct (decide (j = 0)) as [->|]; [congruence | lia]. }
    right. left. split; [exact Hj1|].
    destruct (decide (snd p <= j - 1 + radius)) as [H1|H1].
    - exists p. split; [exact Hp|]. unfold near. simpl. lia.
    - rewrite Ht in Hadj, Hp.
      destruct (path_columns t (0, 0) Hadj p (snd p - 1) Hp)
        as (m & Hm & Hm2 & Hm1); [simpl; lia|].
      exists m. split; [by rewrite Ht|]. unfold near. simpl in *. lia. }
  destruct (decide (j = 0)) as [->|Hj0].
  { left. split; [lia|].
    destruct (decide (fst p <= i - 1 + radius)) as [H1|H1].
    - exists p. split; [exact Hp|]. unfold near. simpl. lia.
    - rewrite Ht in Hadj, Hp.
      destruct (path_rows t (0, 0) Hadj p (fst p - 1) Hp)
        as (m & Hm & Hm2 & Hm1); [simpl; lia|].
      exists m. split; [by rewrite Ht|]. unfold near. simpl in *. lia. }
  destruct (decide (fst p <= i - 1 + radius)) as [H1|H1];
    destruct (decide (snd p <= j - 1 + radius)) as [H2|H2].
  - right. right. split; [lia|]. split; [lia|].
    exists p. split; [exact Hp|]. unfold near. simpl. lia.
  - left. split; [lia|].
    exists p. split; [exact Hp|]. unfold near. simpl. lia.
  - right. left. split; [lia|].
    exists p. split; [exact Hp|]. unfold near. simpl. lia.
  - destruct (path_pred path Hadj p Hp) as (p' & Hp' & Hs).
    { rewrite Ht. simpl. intros H. inversion H; subst p. simpl in *. lia. }
    unfold step_ok in Hs. destruct Hs as [Hs|[Hs|Hs]].
    + left. split; [lia|]. exists p'. split; [exact Hp'|].
      unfold near. subst p. simpl in *. lia.
    + right. left. split; [lia|]. exists p'. split; [exact Hp'|].
      unfold near. subst p. simpl in *. lia.
    + right. right. split; [lia|]. split; [lia|]. exists p'. split; [exact Hp'|].
      unfold near. subst p. simpl in *. lia.
Qed.

Lemma halo_row i :
  1 <= radius -> 1 <= lx -> 0 <= i <= lx ->
  exists j, 0 <= j <= ly - 1 /\ halo radius path (i, j).
Proof using Hpath Hradius.
  intros Hr Hlx Hi. destruct halo_path_cons as [t Ht].
  pose proof halo_last_in as Hl. destruct Hpath as (_ & _ & Hadj & _).
  rewrite Ht in Hadj, Hl.
  destruct (path_rows t (0, 0) Hadj (lx - 1, ly - 1) (Z.min i (lx - 1)) Hl)
    as (m & Hm & Hm1 & Hm2); [simpl; lia|].
  exists (snd m). simpl in Hm2. split; [lia|].
  exists m. split; [by rewrite Ht|]. unfold near. simpl. lia.
Qed.


(** *** The candidate set at the finer resolution *)

Variables len_x len_y : Z.
Hypothesis Hlx : lx = len_x / 2.
Hypothesis Hly : ly = len_y / 2.
Hypothesis Hlx1 : 1 <= lx.
Hypothesis Hly1 : 1 <= ly.

Local Abbreviation window_ := (project (dilate (offsets radius) path)).

Lemma window_contiguous i j1 j2 c :
  (i, j1) ∈ window_ -> (i, j2) ∈ window_ -> j1 <= c <= j2 -> (i, c) ∈ window_.
Proof using Hpath Hradius Hlx Hly Hlx1 Hly1.
  rewrite !elem_of_window_. simpl. intros H1 H2 Hc.
  apply (halo_contiguous (i / 2) (j1 / 2) (j2 / 2)); [exact H1|exact H2|].
  split; apply Z.div_le_mono; dlia.
Qed.

Lemma window_pred i j :
  (i, j) ∈ window_ -> 0 <= i -> 0 <= j -> (i, j) <> (0, 0) ->
  exists p, p ∈ preds (i, j) /\ p ∈ window_ /\ 0 <= fst p /\ 0 <= snd p.
Proof using Hpath Hradius Hlx Hly Hlx1 Hly1.
  rewrite elem_of_window_. simpl. intros H Hi Hj Hne.
  destruct (decide (i mod 2 = 1)) as [Hio|Hie].
  { exists (i - 1, j). split; [in_preds|]. split; [|simpl; dlia].
    apply elem_of_window_. simpl.
    replace ((i - 1) / 2) with (i / 2) by dlia. exact H. }
  destruct (decide (j mod 2 = 1)) as [Hjo|Hje].
  { exists (i, j - 1). split; [in_preds|]. split; [|simpl; dlia].
    apply elem_of_window_. simpl.
    replace ((j - 1) / 2) with (j / 2) by dlia. exact H. }
  destruct (halo_pred (i / 2) (j / 2) H) as [[Hb Hh]|[[Hb Hh]|(Hb1 & Hb2 & Hh)]].
  - dlia.
  - dlia.
  - intros Heq. inversion Heq. apply Hne. f_equal; dlia.
  - exists (i - 1, j). split; [in_preds|]. split; [|simpl; dlia].
    apply elem_of_window_. simpl.
    replace ((i - 1) / 2) with (i / 2 - 1) by dlia. exact Hh.
  - exists (i, j - 1). split; [in_preds|]. split; [|simpl; dlia].
    apply elem_of_window_. simpl.
    replace ((j - 1) / 2) with (j / 2 - 1) by dlia. exact Hh.
  - exists (i - 1, j - 1). split; [in_preds|]. split; [|simpl; dlia].
    apply elem_of_window_. simpl.
    replace ((i - 1) / 2) with (i / 2 - 1) by dlia.
    replace ((j - 1) / 2) with (j / 2 - 1) by dlia. exact Hh.
Qed.

Lemma window_row i :
  1 <= radius -> 0 <= i < len_x ->
  exists j, 0 <= j < len_y /\ (i, j) ∈ window_.
Proof using Hpath Hradius Hlx Hly Hlx1 Hly1.
  intros Hr Hi.
  destruct (halo_row (i / 2) Hr Hlx1) as (j & Hj & Hh); [dlia|].
  exists (j * 2). split; [dlia|].
  apply elem_of_window_. simpl.
  rewrite div2_even. exact Hh.
Qed.


Lemma window_mono i : 0 <= i ->
  forall n j, 0 <= j <= Z.of_nat n -> (i + 1, j) ∈ window_ ->
              exists j0, 0 <= j0 <= j /\ (i, j0) ∈ window_.
Proof using Hpath Hradius Hlx Hly Hlx1 Hly1.
  intros Hi. induction n as [|n IH]; intros j Hj Hm.
  - destruct (window_pred (i + 1) j Hm) as (p & Hp & Hpw & Hp1 & Hp2);
      [dlia|dlia|intros H; inversion H; dlia|].
    unfold preds in Hp. simpl in Hp. rewrite !elem_of_cons, elem_of_nil in Hp.
    destruct Hp as [->|[->|[->|[]]]]; simpl in *; try dlia.
    exists j. split; [dlia|]. by replace (i + 1 - 1) with i in Hpw by dlia.
  - destruct (window_pred (i + 1) j Hm) as (p & Hp & Hpw & Hp1 & Hp2);
      [dlia|dlia|intros H; inversion H; dlia|].
    unfold preds in Hp. simpl in Hp. rewrite !elem_of_cons, elem_of_nil in Hp.
    destruct Hp as [->|[->|[->|[]]]]; simpl in *.
    + exists j. split; [dlia|]. by replace (i + 1 - 1) with i in Hpw by dlia.
    + destruct (IH (j - 1)) as (j0 & Hj0 & Hw0); [dlia|exact Hpw|].
      exists j0. split; [dlia | exact Hw0].
    + exists (j - 1). split; [dlia|]. by replace (i + 1 - 1) with i in Hpw by dlia.
Qed.
End Halo.

(** ** Row compaction of a banded candidate set *)

Section Scan.
Variables (window_ : gset (Z * Z)) (len_x len_y : Z).
Hypothesis contig : forall i j1 j2 c,
  (i, j1) ∈ window_ -> (i, j2) ∈ window_ -> j1 <= c <= j2 -> (i, c) ∈ window_.
Hypothesis mono : forall i j,
  0 <= i -> 0 <= j -> (i + 1, j) ∈ window_ ->
  exists j0, 0 <= j0 <= j /\ (i, j0) ∈ window_.
Hypothesis rows_nonempty : forall i,
  0 <= i < len_x -> exists j, 0 <= j < len_y /\ (i, j) ∈ window_.

(** inside a run: the scan keeps every candidate up to [len_y] *)
Lemma scan_run i n : forall a nsj,
  Z.to_nat (len_y - a) = n -> nsj <> -1 -> (i, a - 1) ∈ window_ ->
  snd (scan_row window_ i (zrange a len_y) nsj) = nsj /\
  forall j, (i, j) ∈ fst (scan_row window_ i (zrange a len_y) nsj) <->
            a <= j < len_y /\ (i, j) ∈ window_.
Proof.
  induction n as [|n IH]; intros a nsj Hn Hnsj Hprev.
  - rewrite zrange_nil by lia. simpl. split; [reflexivity|].
    intros j. rewrite elem_of_nil. lia.
  - rewrite zrange_cons by lia. simpl.
    destruct (bool_decide ((i, a) ∈ window_)) eqn:Hin.
    + apply bool_decide_eq_true in Hin.
      destruct (Z.eqb_spec nsj (-1)) as [|_]; [contradiction|].
      destruct (IH (a + 1) nsj) as [IH1 IH2]; [lia|exact Hnsj| |].
      { by replace (a + 1 - 1) with a by lia. }
      destruct (scan_row window_ i (zrange (a + 1) len_y) nsj) as [cells r].
      simpl in *. split; [exact IH1|].
      intros j. rewrite elem_of_cons, IH2. split.
      * intros [H|H]; [inversion H; subst; split; [lia | exact Hin] | split; [lia | tauto]].
      * intros [Hj Hw]. destruct (decide (j = a)) as [->|]; [by left|].
        right. split; [lia | exact Hw].
    + apply bool_decide_eq_false in Hin.
      destruct (Z.eqb_spec nsj (-1)) as [|_]; [contradiction|].
      simpl. split; [reflexivity|].
      intros j. rewrite elem_of_nil. split; [tauto|].
      intros [Hj Hw]. apply Hin.
      apply (contig i (a - 1) j a Hprev Hw). lia.
Qed.

(** before a run: the scan looks for the first candidate *)
Lemma scan_seek i n : forall s,
  Z.to_nat (len_y - s) = n -> 0 <= s ->
  (forall j, (i, j) ∈ fst (scan_row window_ i (zrange s len_y) (-1)) <->
             s <= j < len_y /\ (i, j) ∈ window_) /\
  ((snd (scan_row window_ i (zrange s len_y) (-1)) = -1 /\
    forall j, s <= j < len_y -> (i, j) ∉ window_) \/
   (s <= snd (scan_row window_ i (zrange s len_y) (-1)) < len_y /\
    (i, snd (scan_row window_ i (zrange s len_y) (-1))) ∈ window_ /\
    forall j, s <= j < snd (scan_row window_ i (zrange s len_y) (-1)) ->
              (i, j) ∉ window_)).
Proof.
  induction n as [|n IH]; intros s Hn Hs.
  - rewrite zrange_nil by lia. simpl. split.
    + intros j. rewrite elem_of_nil. lia.
    + left. split; [reflexivity|]. intros j Hj. lia.
  - rewrite zrange_cons by lia. simpl.
    destruct (bool_decide ((i, s) ∈ window_)) eqn:Hin.
    + apply bool_decide_eq_true in Hin.
      destruct (scan_run i (Z.to_nat (len_y - (s + 1))) (s + 1) s eq_refl)
        as [R1 R2]; [lia| |].
      { by replace (s + 1 - 1) with s by lia. }
      destruct (scan_row window_ i (zrange (s + 1) len_y) s) as [cells r].
      simpl in *. subst r. split.
      * intros j. rewrite elem_of_cons, R2. split.
        -- intros [H|H]; [inversion H; subst; split; [lia | exact Hin]
                         | split; [lia | tauto]].
        -- intros [Hj Hw]. destruct (decide (j = s)) as [->|]; [by left|].
           right. split; [lia | exact Hw].
      * right. split; [lia|]. split; [exact Hin|]. intros j Hj. lia.
    + apply bool_decide_eq_false in Hin.
      destruct (IH (s + 1)) as [IH1 IH2]; [lia|lia|].
      destruct (scan_row window_ i (zrange (s + 1) len_y) (-1)) as [cells r].
      simpl in *. split.
      * intros j. rewrite IH1. split; [intros [? ?]; split; [lia | assumption]|].
        intros [Hj Hw]. split; [|exact Hw].
        destruct (decide (j = s)) as [->|]; [contradiction | lia].
      * destruct IH2 as [[-> Hnone]|(Hr & Hrw & Hmin)].
        -- left. split; [reflexivity|]. intros j Hj.
           destruct (decide (j = s)) as [->|]; [exact Hin | apply Hnone; lia].
        -- right. split; [lia|]. split; [exact Hrw|]. intros j Hj.
           destruct (decide (j = s)) as [->|]; [exact Hin | apply Hmin; lia].
Qed.

Lemma scan_rows_complete n : forall i0 s,
  Z.to_nat (len_x - i0) = n -> 0 <= i0 -> 0 <= s ->
  (forall j, 0 <= j -> (i0, j) ∈ window_ -> s <= j) ->
  forall c, c ∈ scan_rows window_ len_y (zrange i0 len_x) s <->
            i0 <= fst c < len_x /\ 0 <= snd c < len_y /\ c ∈ window_.
Proof.
  induction n as [|n IH]; intros i0 s Hn Hi0 Hs Hlow c.
  - rewrite zrange_nil by lia. simpl. rewrite elem_of_nil. lia.
  - rewrite zrange_cons by lia. simpl.
    destruct (scan_seek i0 (Z.to_nat (len_y - s)) s eq_refl Hs) as [S1 S2].
    pose proof (scan_row_spec window_ i0 (zrange s len_y)
                  (zrange_sorted _ _) (-1)) as [_ S3].
    destruct (scan_row window_ i0 (zrange s len_y) (-1)) as [cells r].
    simpl in *.
    destruct (rows_nonempty i0) as (jm & Hjm & Hjw); [lia|].
    destruct S2 as [[_ Hnone]|(Hr & Hrw & Hmin)].
    { exfalso. apply (Hnone jm); [|exact Hjw].
      split; [apply Hlow; [lia | exact Hjw] | lia]. }
    rewrite elem_of_app, (IH (i0 + 1) r); [|lia|lia|lia|].
    + split.
      * intros [Hc|Hc]; [|split; [lia | tauto]].
        rewrite Forall_forall in S3. destruct (S3 _ Hc) as (Hc1 & _ & _).
        destruct c as [ci cj]. simpl in *. subst ci.
        apply S1 in Hc. split; [lia|]. split; [lia | tauto].
      * intros (Hc1 & Hc2 & Hcw).
        destruct (decide (fst c = i0)) as [Heq|Hne]; [|right; split; [lia | tauto]].
        left. destruct c as [ci cj]. simpl in *. subst ci.
        apply S1. split; [|exact Hcw]. split; [|lia].
        apply Hlow; [lia | exact Hcw].
    + intros j Hj Hjw'.
      destruct (mono i0 j Hi0 Hj Hjw') as (j0 & Hj0 & Hj0w).
      destruct (decide (r <= j0)) as [|Hlt]; [lia|].
      exfalso. apply (Hmin j0); [|exact Hj0w].
      split; [apply Hlow; [lia | exact Hj0w] | lia].
Qed.

(** the window is the part of the candidate set that lies in the grid *)
Lemma compact_complete c :
  c ∈ compact window_ len_x len_y <->
  0 <= fst c < len_x /\ 0 <= snd c < len_y /\ c ∈ window_.
Proof.
  unfold compact.
  apply (scan_rows_complete (Z.to_nat (len_x - 0)) 0 0 eq_refl); [lia|lia|].
  intros j Hj _. exact Hj.
Qed.
End Scan.

(** ** The window built from a coarse warping path *)


(** ** The coarsener *)

Lemma length_reduce_by_half x :
  length (__reduce_by_half x) = Nat.div2 (length x).
Proof.
  assert (forall n x, (length x <= n)%nat ->
                      length (__reduce_by_half x) = Nat.div2 (length x)) as H.
  { induction n as [|n IH]; intros l Hl.
    - destruct l; [reflexivity | simpl in Hl; lia].
    - destruct l as [|a [|b l]]; [reflexivity | reflexivity |].
      simpl. f_equal. apply IH. simpl in Hl. lia. }
  by apply (H (length x)).
Qed.

Lemma len_reduce_by_half x : len (__reduce_by_half x) = len x / 2.
Proof.
  unfold len. rewrite length_reduce_by_half, Nat.div2_div, Nat2Z.inj_div.
  reflexivity.
Qed.

(** ** The recursive driver of _fastdtw.pyx *)

Lemma elem_dist_total dist :
  Cy.bad_order dist = false ->
  forall a b, exists dt, Cy.elem_dist dist a b = Ok dt.
Proof.
  intros Hb a b. destruct dist as [|p|f]; simpl in *; eauto.
  destruct (Qltb 0 p); [eauto | discriminate].
Qed.


Lemma dtw_none_returns x y dist :
  Cy.bad_order dist = false -> exists r, Cy.dtw x y None dist = Ok r.
Proof.
  intros Hb. unfold Cy.dtw, dtw_map.
  destruct (fill_ok as_unsigned as_unsigned_nonneg (Cy.elem_dist dist) x y
              (map shift (grid (len x) (len y))) {[ __get_key 0 0 := zero_entry ]}
              (elem_dist_total dist Hb) (shift_in_grid _ _ _ (grid_in_grid _ _)))
    as [D HD].
  rewrite HD. unfold bind.
  destruct (backtrack_total as_unsigned D
              (fill_decreasing _ _ _ _ _ _ _ decreasing_origin HD)
              (S (size D)) (len x) (len y) (size_below_lt D _)) as [l Hl].
  rewrite Hl. eauto.
Qed.





(** ** C1 *)

(** C1. For x = [1,2,3,4,5], y = [2,3,4], the default distance and radius 1,
    fastdtw returns the cost 2.0 and the path
    [(0,0),(1,0),(2,1),(3,2),(4,2)], in _fastdtw.pyx and in part_001. *)
Theorem fastdtw_reference_case :
  Cy.fastdtw (qs [1; 2; 3; 4; 5]) (qs [2; 3; 4]) 1 Cy.DistNone =
    Ok (Fin 2, [(0, 0); (1, 0); (2, 1); (3, 2); (4, 2)]) /\
  P1.fastdtw (qs [1; 2; 3; 4; 5]) (qs [2; 3; 4]) 1 abs_dist =
    Ok (Fin 2, [(0, 0); (1, 0); (2, 1); (3, 2); (4, 2)]).
Proof. split; vm_compute; reflexivity. Qed.

(** ** C2 *)




(** ** C3 *)



(** ** C4 *)




(** ** C7 *)

Lemma elem_dist_errors dist a b e :
  Cy.elem_dist dist a b = Err e -> solver_error e.
Proof.
  destruct dist as [|p|f]; simpl; try discriminate.
  destruct (Qltb 0 p); [discriminate|]. intros H. inversion H. by right.
Qed.

Lemma elem_dist_no_diverge dist a b : Cy.elem_dist dist a b <> Diverge.
Proof.
  destruct dist as [|p|f]; simpl; try discriminate.
  destruct (Qltb 0 p); discriminate.
Qed.

Lemma dtw_no_value_error x y window dist :
  Cy.dtw x y window dist <> Err ValueError.
Proof.
  destruct (dtw_map_total as_unsigned (Cy.elem_dist dist) x y window
              (elem_dist_errors dist) (elem_dist_no_diverge dist))
    as [[r Hr]|(e & He & [->| ->])]; unfold Cy.dtw; rewrite ?Hr, ?He; discriminate.
Qed.

Lemma add_offsets_error vec ks i j : forall path_ e,
  add_offsets vec ks i j path_ = Err e -> e = OutOfRange.
Proof.
  induction ks as [|k ks IH]; intros path_ e; simpl; [discriminate|].
  destruct (nth_error vec (Z.to_nat k)) as [[a b]|]; [apply IH|].
  intros H. by inversion H.
Qed.

Lemma add_offsets_no_diverge vec ks i j : forall path_,
  add_offsets vec ks i j path_ <> Diverge.
Proof.
  induction ks as [|k ks IH]; intros path_; simpl; [discriminate|].
  destruct (nth_error vec (Z.to_nat k)) as [[a b]|]; [apply IH | discriminate].
Qed.

Lemma expand_window_vec_outcome path len_x len_y radius :
  (exists w, expand_window_vec path len_x len_y radius = Ok w) \/
  expand_window_vec path len_x len_y radius = Err OutOfRange.
Proof.
  unfold expand_window_vec.
  generalize (∅ : gset (Z * Z)). generalize ((2 * radius + 1) ^ 2).
  generalize (offsets radius). intros vec n.
  induction path as [|[i j] path IH]; intros acc; simpl; [left; eauto|].
  destruct (add_offsets vec (zrange 0 n) i j acc) as [acc'|e|] eqn:Ha; simpl.
  - apply IH.
  - right. by rewrite (add_offsets_error _ _ _ _ _ _ Ha).
  - by apply add_offsets_no_diverge in Ha.
Qed.

Lemma fastdtw_fuel_no_value_error fuel : forall x y radius dist,
  Cy.bad_order dist = false ->
  Cy.fastdtw_fuel fuel x y radius dist <> Err ValueError.
Proof.
  induction fuel as [|fuel IH]; intros x y radius dist Hb; simpl; rewrite Hb.
  - destruct ((len x <? radius + 2) || (len y <? radius + 2));
      [apply dtw_no_value_error | discriminate].
  - destruct ((len x <? radius + 2) || (len y <? radius + 2));
      [apply dtw_no_value_error|].
    specialize (IH (__reduce_by_half x) (__reduce_by_half y) radius dist Hb).
    destruct (Cy.fastdtw_fuel fuel (__reduce_by_half x) (__reduce_by_half y)
                radius dist) as [r|e|]; simpl; [|congruence|discriminate].
    unfold Cy.__expand_window.
    destruct (expand_window_vec_outcome (snd r) (len x) (len y) radius)
      as [[w ->]| ->]; simpl; [apply dtw_no_value_error | discriminate].
Qed.

Lemma fastdtw_fuel_diverges fuel : forall x y radius dist,
  radius <= -2 -> Cy.bad_order dist = false ->
  Cy.fastdtw_fuel fuel x y radius dist = Diverge.
Proof.
  induction fuel as [|fuel IH]; intros x y radius dist Hr Hb; simpl; rewrite Hb;
    replace ((len x <? radius + 2) || (len y <? radius + 2)) with false
      by (symmetry; apply orb_false_iff; unfold len; split; apply Z.ltb_ge; lia).
  - reflexivity.
  - by rewrite IH.
Qed.

(** C7, as the code has it. fastdtw does not validate the radius: for every
    x, y and radius, negative or not, it raises its ValueError exactly when
    [dist] is a number <= 0.  With an accepted [dist] a negative radius goes
    to the recursive driver, which for radius <= -2 never reaches its base
    case. *)
Theorem radius_not_validated x y radius dist :
  radius < 0 ->
  (Cy.fastdtw x y radius dist = Err ValueError <-> Cy.bad_order dist = true) /\
  (Cy.bad_order dist = false -> radius <= -2 ->
   forall fuel, Cy.fastdtw_fuel fuel x y radius dist = Diverge).
Proof.
  intros Hneg. split; [split|].
  - intros H. destruct (Cy.bad_order dist) eqn:Hb; [reflexivity|].
    exfalso. revert H. by apply fastdtw_fuel_no_value_error.
  - intros Hb. unfold Cy.fastdtw. destruct (length x); simpl; by rewrite Hb.
  - intros Hb Hr fuel. by apply fastdtw_fuel_diverges.
Qed.

Lemma radius_not_validated_witness :
  Cy.fastdtw (qs [1]) (qs [2]) (-1) Cy.DistNone = Err ValueError <->
  Cy.bad_order Cy.DistNone = true.
Proof.
  apply (radius_not_validated (qs [1]) (qs [2]) (-1) Cy.DistNone). lia.
Defined.

(** C7 as stated fails: with radius -1 fastdtw raises nothing and returns a
    cost and a path. *)
Lemma negative_radius_accepted :
  Cy.fastdtw (qs [1]) (qs [2]) (-1) Cy.DistNone = Ok (Fin 0, [(0, 0)]) /\
  forall e, Cy.fastdtw (qs [1]) (qs [2]) (-1) Cy.DistNone <> Err e.
Proof.
  assert (Cy.fastdtw (qs [1]) (qs [2]) (-1) Cy.DistNone = Ok (Fin 0, [(0, 0)])) as H
      by (vm_compute; reflexivity).
  split; [exact H|]. intros e. rewrite H. discriminate.
Qed.

(** ** C5 *)

Lemma py_cost_dd_at (D : gmap (Z * Z) Py.entry) k k' :
  py_cost (snd (Py.dd_at D k)) k' = py_cost D k'.
Proof.
  unfold Py.dd_at, py_cost. destruct (D !! k) eqn:Hk; simpl; [reflexivity|].
  destruct (decide (k = k')) as [->|Hne].
  - by rewrite lookup_insert_eq, Hk.
  - by rewrite lookup_insert_ne.
Qed.

Lemma item0_dd_at (D : gmap (Z * Z) Py.entry) k :
  Py.item0 (fst (Py.dd_at D k)) = py_cost D k.
Proof. unfold Py.dd_at, py_cost. by destruct (D !! k). Qed.

Lemma tup3_dd_at (D : gmap (Z * Z) Py.entry) k k' c pi pj :
  snd (Py.dd_at D k) !! k' = Some (Py.Tup3 c pi pj) <->
  D !! k' = Some (Py.Tup3 c pi pj).
Proof.
  unfold Py.dd_at. destruct (D !! k) eqn:Hk; simpl; [reflexivity|].
  destruct (decide (k = k')) as [->|Hne].
  - rewrite lookup_insert_eq, Hk. split; discriminate.
  - by rewrite lookup_insert_ne.
Qed.

(** what one iteration of the loop of fastdtw.pyx stores *)
Lemma py_visit_inv dist x y D i j D' :
  Py.visit dist x y D (i, j) = Ok D' -> j <> len y + 1 ->
  exists a b D3,
    py_item x i = Ok a /\ py_item y j = Ok b /\
    (forall k, py_cost D3 k = py_cost D k) /\
    (forall k c pi pj, D3 !! k = Some (Py.Tup3 c pi pj) <->
                       D !! k = Some (Py.Tup3 c pi pj)) /\
    D' = <[(i + 1, j + 1) :=
             Py.choose (py_cost D (i, j)) (py_cost D (i + 1, j))
                       (py_cost D (i, j + 1)) (dist a b) i j]> D3.
Proof.
  unfold Py.visit. intros H Hj.
  destruct (py_item x i) as [a| |]; simpl in H; try discriminate.
  destruct (py_item y j) as [b| |]; simpl in H; try discriminate.
  pose proof (item0_dd_at D (i, j)) as E1.
  pose proof (py_cost_dd_at D (i, j)) as C1.
  pose proof (tup3_dd_at D (i, j)) as T1.
  destruct (Py.dd_at D (i, j)) as [t00 D1]. simpl in *.
  pose proof (item0_dd_at D1 (i + 1, j)) as E2.
  pose proof (py_cost_dd_at D1 (i + 1, j)) as C2.
  pose proof (tup3_dd_at D1 (i + 1, j)) as T2.
  destruct (Py.dd_at D1 (i + 1, j)) as [t10 D2]. simpl in *.
  destruct (Z.eqb_spec j (len y + 1)) as [|_]; [contradiction|].
  pose proof (item0_dd_at D2 (i, j + 1)) as E3.
  pose proof (py_cost_dd_at D2 (i, j + 1)) as C3.
  pose proof (tup3_dd_at D2 (i, j + 1)) as T3.
  destruct (Py.dd_at D2 (i, j + 1)) as [t01 D3]. simpl in *.
  inversion H; subst D'. exists a, b, D3.
  split; [reflexivity|]. split; [reflexivity|]. split; [|split].
  - intros k. by rewrite C3, C2, C1.
  - intros k c pi pj. by rewrite T3, T2, T1.
  - rewrite E1, E2, E3, C1, C2, C1. reflexivity.
Qed.

Lemma py_choose_prev d_00 d_10 d_01 dt i j :
  exists c pi pj,
    Py.choose d_00 d_10 d_01 dt i j = Py.Tup3 c pi pj /\
    (pi, pj) = corner_first_rule d_01 d_10 d_00 (i + 1) (j + 1).
Proof.
  unfold Py.choose, corner_first_rule.
  destruct (dbl_lt d_00 d_10 && dbl_lt d_00 d_01);
    [|destruct (dbl_lt d_10 d_01)];
    do 3 eexists; (split; [reflexivity|]); f_equal; lia.
Qed.

(** C5, as the code has it. In the three C++ variants (they share [visit])
    the cell stores the predecessor chosen by the three-way
    comparison of the specification, so that the corner wins a tie with up or
    left; fastdtw.pyx compares in another order (corner, then left, then up),
    so that there a tie goes to up or to left, not to the corner. *)
Theorem tie_break_order :
  (forall view dist x y D i j D',
     visit view dist x y D (i, j) = Ok D' ->
     exists e,
       D' !! (i, j) = Some e /\
       (prev_x_idx e, prev_y_idx e) =
       predecessor_rule (__get_cost D (i - 1) j Inf) (__get_cost D i (j - 1) Inf)
                        (__get_cost D (i - 1) (j - 1) Inf) i j) /\
  (forall up left corner i j,
     dbl_lt up corner = false -> dbl_lt left corner = false ->
     predecessor_rule up left corner i j = (i - 1, j - 1)) /\
  (forall dist x y D i j D',
     Py.visit dist x y D (i, j) = Ok D' -> j <> len y + 1 ->
     exists c pi pj,
       D' !! (i + 1, j + 1) = Some (Py.Tup3 c pi pj) /\
       (pi, pj) =
       corner_first_rule (py_cost D (i, j + 1)) (py_cost D (i + 1, j))
                         (py_cost D (i, j)) (i + 1) (j + 1)).
Proof.
  split; [|split].
  - intros view dist x y D i j D' Hv.
    apply visit_inv in Hv as (a & b & dt & _ & _ & _ & ->). simpl.
    eexists. split; [apply lookup_insert_eq|]. apply choose_prev.
  - intros up left corner i j H1 H2. unfold predecessor_rule.
    rewrite H1, H2, andb_false_r. reflexivity.
  - intros dist x y D i j D' Hv Hj.
    apply py_visit_inv in Hv as (a & b & D3 & _ & _ & _ & _ & ->); [|exact Hj].
    destruct (py_choose_prev (py_cost D (i, j)) (py_cost D (i + 1, j))
                (py_cost D (i, j + 1)) (dist a b) i j) as (c & pi & pj & Hc & Hp).
    exists c, pi, pj. split; [|exact Hp].
    rewrite lookup_insert_eq. by f_equal.
Qed.

Lemma tie_break_order_witness :
  exists e,
    (<[(1, 1) := choose Inf Inf (Fin 0) 0 1 1]>
       ({[ (0, 0) := zero_entry ]} : gmap (Z * Z) CostEntry)) !! (1, 1) = Some e /\
    (prev_x_idx e, prev_y_idx e) =
    predecessor_rule (__get_cost {[ (0, 0) := zero_entry ]} (1 - 1) 1 Inf)
                     (__get_cost {[ (0, 0) := zero_entry ]} 1 (1 - 1) Inf)
                     (__get_cost {[ (0, 0) := zero_entry ]} (1 - 1) (1 - 1) Inf) 1 1.
Proof.
  destruct tie_break_order as [H _].
  apply (H (fun i => i) (fun a b => Ok (abs_dist a b)) (qs [1]) (qs [1])
           {[ (0, 0) := zero_entry ]} 1 1
           (<[(1, 1) := choose Inf Inf (Fin 0) 0 1 1]> {[ (0, 0) := zero_entry ]})).
  vm_compute. reflexivity.
Defined.

(** C5 as stated fails for fastdtw.pyx: on x = y = [1,1] the costs of up,
    left and corner of the last cell are all 0, the rule of the
    specification picks the corner (1,1), and the loop stores the upper
    neighbour (1,2). *)
Lemma py_tie_break_differs :
  match Py.fill abs_dist (qs [1; 1]) (qs [1; 1])
                {[ (0, 0) := Py.Tup3 (Fin 0) 0 0 ]} [(0, 0); (0, 1); (1, 0); (1, 1)] with
  | Ok D =>
      D !! (1, 2) = Some (Py.Tup3 (Fin 0) 1 1) /\
      D !! (2, 1) = Some (Py.Tup3 (Fin 0) 1 1) /\
      D !! (1, 1) = Some (Py.Tup3 (Fin 0) 0 0) /\
      D !! (2, 2) = Some (Py.Tup3 (Fin 0) 1 2)
  | _ => False
  end /\
  predecessor_rule (Fin 0) (Fin 0) (Fin 0) 2 2 = (1, 1).
Proof. vm_compute. repeat split; reflexivity. Qed.

(** ** The solver of fastdtw.pyx *)

Lemma py_item_outcome l i :
  (exists a, py_item l i = Ok a /\ - len l <= i < len l) \/
  py_item l i = Err IndexError.
Proof.
  unfold py_item.
  destruct (Z.ltb_spec i 0);
    match goal with
    | |- context [(0 <=? ?k) && (?k <? len l)] =>
        destruct (Z.leb_spec 0 k); destruct (Z.ltb_spec k (len l)); simpl;
        try (by right);
        destruct (nth_error l (Z.to_nat k)); [left; eexists; split; [reflexivity | lia] | by right]
    end.
Qed.

Lemma item_py_item l i a : item l i = Ok a -> py_item l i = Ok a.
Proof.
  unfold item, py_item.
  destruct (Z.leb_spec 0 i); simpl; [|discriminate].
  destruct (Z.ltb_spec i 0); [lia|].
  destruct (Z.leb_spec 0 i); [|lia]. simpl.
  destruct (i <? len l); [|discriminate].
  destruct (nth_error l (Z.to_nat i)); [|discriminate]. auto.
Qed.

Lemma item_range l i a : item l i = Ok a -> 0 <= i < len l.
Proof.
  unfold item.
  destruct (Z.leb_spec 0 i); destruct (Z.ltb_spec i (len l)); simpl;
    try discriminate. lia.
Qed.

Lemma py_visit_outcome dist x y D i j :
  (exists D', Py.visit dist x y D (i, j) = Ok D' /\ j <> len y + 1) \/
  Py.visit dist x y D (i, j) = Err IndexError.
Proof.
  unfold Py.visit.
  destruct (py_item_outcome x i) as [(a & -> & _)| ->]; simpl; [|by right].
  destruct (py_item_outcome y j) as [(b & -> & Hj)| ->]; simpl; [|by right].
  left. destruct (Py.dd_at D (i, j)) as [t00 D1].
  destruct (Py.dd_at D1 (i + 1, j)) as [t10 D2].
  destruct (Z.eqb_spec j (len y + 1)) as [|_]; [lia|].
  destruct (Py.dd_at D2 (i, j + 1)) as [t01 D3].
  eexists. split; [reflexivity | lia].
Qed.

Lemma py_visit_tup3 dist x y D i j D' k c pi pj :
  Py.visit dist x y D (i, j) = Ok D' ->
  D' !! k = Some (Py.Tup3 c pi pj) ->
  k = (i + 1, j + 1) \/ D !! k = Some (Py.Tup3 c pi pj).
Proof.
  intros Hv Hk.
  destruct (py_visit_outcome dist x y D i j) as [(D'' & Hv' & Hj)|Hv'];
    [|congruence].
  apply py_visit_inv in Hv as (a & b & D3 & _ & _ & _ & HT & ->); [|exact Hj].
  destruct (decide ((i + 1, j + 1) = k)) as [<-|Hne]; [by left|].
  right. rewrite lookup_insert_ne in Hk by exact Hne. by apply HT.
Qed.

Lemma py_fill_cons dist x y D c w :
  Py.fill dist x y D (c :: w) =
  bind (Py.visit dist x y D c) (fun D' => Py.fill dist x y D' w).
Proof. reflexivity. Qed.

Lemma py_fill_outcome dist x y w : forall D,
  (exists D', Py.fill dist x y D w = Ok D') \/
  Py.fill dist x y D w = Err IndexError.
Proof.
  induction w as [|[i j] w IH]; intros D; [left; simpl; eauto|].
  rewrite py_fill_cons.
  destruct (py_visit_outcome dist x y D i j) as [(D' & -> & _)| ->];
    unfold bind; [apply IH | by right].
Qed.

Lemma py_fill_tup3 dist x y w : forall D D' k c pi pj,
  Py.fill dist x y D w = Ok D' ->
  D' !! k = Some (Py.Tup3 c pi pj) ->
  (fst k - 1, snd k - 1) ∈ w \/ exists c' pi' pj', D !! k = Some (Py.Tup3 c' pi' pj').
Proof.
  induction w as [|[i j] w IH]; intros D D' k c pi pj Hf Hk.
  - simpl in Hf. inversion Hf; subst. right. eauto.
  - rewrite py_fill_cons in Hf.
    destruct (Py.visit dist x y D (i, j)) as [D1| |] eqn:Hv; unfold bind in Hf;
      try discriminate.
    destruct (IH _ _ _ _ _ _ Hf Hk) as [Hin|(c' & pi' & pj' & Hk1)].
    + left. by right.
    + destruct (py_visit_tup3 _ _ _ _ _ _ _ _ _ _ _ Hv Hk1) as [->|Hk0].
      * left. simpl.
        replace (i + 1 - 1) with i by lia. replace (j + 1 - 1) with j by lia.
        by left.
      * right. eauto.
Qed.

Lemma py_backtrack_fault (fuel : nat) (D : gmap (Z * Z) Py.entry) i j :
  (i, j) <> (0, 0) ->
  (forall c pi pj, D !! (i, j) <> Some (Py.Tup3 c pi pj)) ->
  Py.backtrack (S fuel) D i j = Err IndexError.
Proof.
  intros Hne Hk. simpl.
  destruct ((i =? 0) && (j =? 0)) eqn:Hz.
  { apply andb_true_iff in Hz as [Hi Hj]. apply Z.eqb_eq in Hi, Hj.
    subst. congruence. }
  unfold Py.dd_at. destruct (D !! (i, j)) as [[c|c pi pj]|] eqn:He;
    [reflexivity | by destruct (Hk c pi pj) | reflexivity].
Qed.

Lemma py_backtrack_ok (fuel : nat) : forall (D : gmap (Z * Z) Py.entry) i j D' l,
  Py.backtrack fuel D i j = Ok (D', l) ->
  D' = D /\
  ((i, j) = (0, 0) \/ exists c pi pj, D !! (i, j) = Some (Py.Tup3 c pi pj)).
Proof.
  induction fuel as [|fuel IH]; intros D i j D' l Hb; simpl in Hb.
  - destruct ((i =? 0) && (j =? 0)) eqn:Hz; [|discriminate].
    apply andb_true_iff in Hz as [Hi Hj]. apply Z.eqb_eq in Hi, Hj.
    inversion Hb; subst. auto.
  - destruct ((i =? 0) && (j =? 0)) eqn:Hz.
    { apply andb_true_iff in Hz as [Hi Hj]. apply Z.eqb_eq in Hi, Hj.
      inversion Hb; subst. auto. }
    unfold Py.dd_at in Hb.
    destruct (D !! (i, j)) as [[c|c pi pj]|] eqn:He; try discriminate.
    destruct (Py.backtrack fuel D pi pj) as [[D1 l1]| |] eqn:Hr; simpl in Hb;
      try discriminate.
    inversion Hb; subst. destruct (IH _ _ _ _ _ Hr) as [-> _].
    split; [reflexivity|]. right. eauto.
Qed.

(** ** C8 *)

(** C8, as the code has it. No variant has an IncompleteWindow error.  When
    the window does not populate the last cell (len(x), len(y)) of the cost
    table, which is then not the origin, the solver of fastdtw.pyx fails with
    the IndexError of an element access or of the lookup [D[i, j][1]] on the
    1-tuple of the default factory; this is the case when exactly one of the
    sequences is empty and no window is given. *)
Theorem incomplete_window_lookup_fault dist x y window :
  (len x, len y) <> (0, 0) ->
  (len x - 1, len y - 1) ∉ effective_window x y window ->
  Py.dtw dist x y window = Err IndexError.
Proof.
  intros Hne Hterm. unfold Py.dtw.
  change (match window with
          | Some w => w
          | None => grid (len x) (len y)
          end) with (effective_window x y window).
  destruct (py_fill_outcome dist x y (effective_window x y window)
              {[ (0, 0) := Py.Tup3 (Fin 0) 0 0 ]}) as [[D Hf]| ->];
    [|reflexivity].
  rewrite Hf. unfold bind.
  rewrite py_backtrack_fault; [reflexivity|exact Hne|].
  intros c pi pj Hk.
  destruct (py_fill_tup3 _ _ _ _ _ _ _ _ _ _ Hf Hk) as [Hin|(c' & pi' & pj' & H0)].
  - by apply Hterm.
  - apply lookup_singleton_Some in H0 as [H0 _]. congruence.
Qed.

Lemma incomplete_window_lookup_fault_witness :
  Py.dtw abs_dist (qs []) (qs [1]) None = Err IndexError.
Proof.
  apply (incomplete_window_lookup_fault abs_dist (qs []) (qs [1]) None).
  - vm_compute. congruence.
  - vm_compute. intros H. inversion H.
Defined.

(** C8 as stated fails: with a window that leaves the last cell out, or with
    one empty sequence, the C++ variants return a cost and a path without any
    error, and fastdtw.pyx fails with the IndexError of a lookup. *)
Lemma incomplete_window_unreported :
  Cy.dtw (qs [1; 2]) (qs [1; 2]) (Some []) Cy.DistNone = Ok (Fin 0, [(1, 1)]) /\
  P0.dtw (qs []) (qs [1]) None abs_dist = Ok (Fin 0, [(-1, 0)]) /\
  (exists r, Cy.dtw (qs []) (qs [1]) None Cy.DistNone = Ok r) /\
  Py.dtw abs_dist (qs [1; 2]) (qs [1; 2]) (Some []) = Err IndexError /\
  Py.dtw abs_dist (qs []) (qs [1]) None = Err IndexError.
Proof.
  split; [vm_compute; reflexivity|]. split; [vm_compute; reflexivity|].
  split; [apply dtw_none_returns; reflexivity|].
  split; vm_compute; reflexivity.
Qed.

(** ** The variants side by side *)

Lemma dbl_eq_refl a : dbl_eq a a.
Proof. split; apply dbl_le_refl. Qed.

Lemma dbl_eq_add a b dt : dbl_eq a b -> dbl_eq (dbl_add a dt) (dbl_add b dt).
Proof. intros [H1 H2]. split; by apply dbl_add_mono. Qed.

Lemma choose_min cu cl cc dt i j :
  exists m,
    cost (choose cu cl cc dt i j) = dbl_add m dt /\
    (m = cu \/ m = cl \/ m = cc) /\
    dbl_le m cu /\ dbl_le m cl /\ dbl_le m cc.
Proof.
  destruct (choose_cases cu cl cc dt i j)
    as [( -> & A & B)|[( -> & A & B)|( -> & A & B)]]; simpl.
  - exists cu. auto 10 using dbl_le_refl.
  - exists cl. auto 10 using dbl_le_refl.
  - exists cc. auto 10 using dbl_le_refl.
Qed.

Lemma py_choose_min d_00 d_10 d_01 dt i j :
  exists m pi pj,
    Py.choose d_00 d_10 d_01 dt i j = Py.Tup3 (dbl_add m dt) pi pj /\
    (m = d_00 \/ m = d_10 \/ m = d_01) /\
    dbl_le m d_00 /\ dbl_le m d_10 /\ dbl_le m d_01.
Proof.
  unfold Py.choose.
  destruct (dbl_lt d_00 d_10) eqn:H1; destruct (dbl_lt d_00 d_01) eqn:H2; simpl;
    destruct (dbl_lt d_10 d_01) eqn:H3;
    repeat match goal with
           | H : dbl_lt _ _ = true |- _ => apply dbl_lt_true_le in H
           | H : dbl_lt _ _ = false |- _ => apply dbl_lt_false_le in H
           end;
    do 3 eexists; (split; [reflexivity|]);
    eauto 10 using dbl_le_refl, dbl_le_trans.
Qed.

(** both comparisons store the least of the three costs plus [dt] *)
Lemma choose_agree cu cl cc d_00 d_10 d_01 dt i j i' j' :
  dbl_eq d_01 cu -> dbl_eq d_10 cl -> dbl_eq d_00 cc ->
  dbl_eq (Py.item0 (Py.choose d_00 d_10 d_01 dt i j))
         (cost (choose cu cl cc dt i' j')).
Proof.
  intros [U1 U2] [L1 L2] [C1 C2].
  destruct (choose_min cu cl cc dt i' j') as (m & -> & Hm & M1 & M2 & M3).
  destruct (py_choose_min d_00 d_10 d_01 dt i j)
    as (m' & pi & pj & -> & Hm' & M1' & M2' & M3'). simpl.
  apply dbl_eq_add. split.
  - destruct Hm as [->|[->| ->]]; eauto using dbl_le_trans.
  - destruct Hm' as [->|[->| ->]]; eauto using dbl_le_trans.
Qed.

Lemma tables_agree_origin :
  tables_agree {[ (0, 0) := Py.Tup3 (Fin 0) 0 0 ]} {[ (0, 0) := zero_entry ]}.
Proof.
  intros k. unfold py_cost, __get_cost, __get_key.
  replace (fst k, snd k) with k by (by destruct k).
  destruct (decide (k = (0, 0))) as [->|Hne].
  - rewrite !lookup_singleton_eq. simpl. split; [apply dbl_eq_refl|].
    split; eauto.
  - rewrite !lookup_singleton_ne by congruence. split; [apply dbl_eq_refl|].
    split; [intros (c & pi & pj & H); discriminate | intros [e H]; discriminate].
Qed.

Lemma py_cost_insert_eq (D : gmap (Z * Z) Py.entry) k t :
  py_cost (<[k := t]> D) k = Py.item0 t.
Proof. unfold py_cost. by rewrite lookup_insert_eq. Qed.

Lemma py_cost_insert_ne (D : gmap (Z * Z) Py.entry) k k' t :
  k <> k' -> py_cost (<[k := t]> D) k' = py_cost D k'.
Proof. intros H. unfold py_cost. by rewrite lookup_insert_ne. Qed.

Lemma get_cost_insert_eq (D : gmap (Z * Z) CostEntry) i j e inf :
  __get_cost (<[(i, j) := e]> D) i j inf = cost e.
Proof. unfold __get_cost, __get_key. by rewrite lookup_insert_eq. Qed.

Lemma visit_agree f x y Dp Dm i j Dp' Dm' :
  tables_agree Dp Dm ->
  Py.visit f x y Dp (i, j) = Ok Dp' ->
  visit (fun i => i) (fun a b => Ok (f a b)) x y Dm (i + 1, j + 1) = Ok Dm' ->
  tables_agree Dp' Dm'.
Proof.
  intros Hag Hp Hm.
  apply visit_inv in Hm as (a & b & dt & Ha & Hb & Hd & ->). simpl in *.
  replace (i + 1 - 1) with i in * by lia. replace (j + 1 - 1) with j in * by lia.
  pose proof (item_range _ _ _ Hb) as Hj.
  apply item_py_item in Ha, Hb. inversion Hd; subst dt.
  apply py_visit_inv in Hp as (a' & b' & D3 & Ha' & Hb' & HC & HT & ->); [|lia].
  rewrite Ha in Ha'. inversion Ha'; subst a'.
  rewrite Hb in Hb'. inversion Hb'; subst b'.
  intros [ki kj]. simpl.
  destruct (decide ((i + 1, j + 1) = (ki, kj))) as [Heq|Hne].
  - inversion Heq; subst ki kj.
    rewrite py_cost_insert_eq, get_cost_insert_eq, !lookup_insert_eq. split.
    + apply choose_agree.
      * apply (Hag (i, j + 1)).
      * apply (Hag (i + 1, j)).
      * apply (Hag (i, j)).
    + split; [eauto|]. intros _.
      destruct (py_choose_min (py_cost Dp (i, j)) (py_cost Dp (i + 1, j))
                  (py_cost Dp (i, j + 1)) (f a b) i j) as (m & pi & pj & Hc & _).
      rewrite Hc. eauto.
  - rewrite py_cost_insert_ne, get_cost_insert_ne, !lookup_insert_ne by exact Hne.
    destruct (Hag (ki, kj)) as [H1 H2]. simpl in H1. split.
    + by rewrite HC.
    + rewrite <- H2. split; intros (c & pi & pj & H); exists c, pi, pj; by apply HT.
Qed.

Lemma fill_cons view dist x y D c w :
  fill view dist x y D (c :: w) =
  bind (visit view dist x y D c) (fun D' => fill view dist x y D' w).
Proof. reflexivity. Qed.

Lemma fill_agree f x y w : forall Dp Dm Dp' Dm',
  tables_agree Dp Dm ->
  Py.fill f x y Dp w = Ok Dp' ->
  fill (fun i => i) (fun a b => Ok (f a b)) x y Dm (map shift w) = Ok Dm' ->
  tables_agree Dp' Dm'.
Proof.
  induction w as [|[i j] w IH]; intros Dp Dm Dp' Dm' Hag Hp Hm.
  - simpl in Hp, Hm. inversion Hp; inversion Hm; subst. exact Hag.
  - rewrite py_fill_cons in Hp.
    change (map shift ((i, j) :: w)) with ((i + 1, j + 1) :: map shift w) in Hm.
    rewrite fill_cons in Hm.
    destruct (Py.visit f x y Dp (i, j)) as [Dp1| |] eqn:Hvp; unfold bind in Hp;
      try discriminate.
    destruct (visit (fun i => i) (fun a b => Ok (f a b)) x y Dm (i + 1, j + 1))
      as [Dm1| |] eqn:Hvm; unfold bind in Hm; try discriminate.
    eapply IH; [|exact Hp|exact Hm]. eapply visit_agree; eassumption.
Qed.

(** the views of the cell indices do not matter on the cells of the grid *)
Lemma fill_view_irrelevant dist x y w : forall D,
  Forall (fun c : Z * Z => 1 <= fst c /\ 1 <= snd c) w ->
  fill as_unsigned dist x y D w = fill (fun i => i) dist x y D w.
Proof.
  induction w as [|[i j] w IH]; intros D Hw; [reflexivity|].
  inversion Hw as [|? ? [Hi Hj] Hw']; subst. simpl in Hi, Hj. simpl.
  unfold visit. rewrite !as_unsigned_nonneg by lia.
  destruct (item x (i - 1)); simpl; try reflexivity.
  destruct (item y (j - 1)); simpl; try reflexivity.
  destruct (dist a a0); simpl; try reflexivity. by apply IH.
Qed.

Lemma backtrack_view (fuel : nat) : forall (D : gmap (Z * Z) CostEntry) i j,
  backtrack as_unsigned fuel D i j =
  match backtrack (fun i => i) fuel D i j with
  | Ok r => Ok (fst r, map (fun ij : Z * Z => (as_unsigned (fst ij), as_unsigned (snd ij)))
                           (snd r))
  | Err e => Err e
  | Diverge => Diverge
  end.
Proof.
  induction fuel as [|fuel IH]; intros D i j; simpl.
  - destruct ((i =? 0) && (j =? 0)); reflexivity.
  - destruct ((i =? 0) && (j =? 0)); [reflexivity|].
    destruct (map_at D (__get_key i j)) as [ce D1]. rewrite IH.
    destruct (backtrack (fun i => i) fuel D1 (prev_x_idx ce) (prev_y_idx ce));
      reflexivity.
Qed.

Lemma dtw_unsigned_view x y window f :
  in_grid (len x) (len y) (effective_window x y window) ->
  P1.dtw x y window f = unsigned_view (P0.dtw x y window f).
Proof.
  intros Hg. unfold P1.dtw, P0.dtw, dtw_map.
  change (match window with
          | Some w => w
          | None => grid (len x) (len y)
          end) with (effective_window x y window).
  rewrite fill_view_irrelevant by (apply (ge1_of_in_grid x y); exact Hg).
  destruct (fill (fun i => i) (fun a b => Ok (f a b)) x y
                 {[ __get_key 0 0 := zero_entry ]}
                 (map shift (effective_window x y window))) as [D| |];
    unfold bind; try reflexivity.
  rewrite backtrack_view.
  destruct (backtrack (fun i => i) (S (size D)) D (len x) (len y)) as [r| |];
    try reflexivity.
  simpl. by rewrite map_rev.
Qed.

Lemma as_unsigned_path (p : list (Z * Z)) :
  Forall (fun ij : Z * Z => 0 <= fst ij /\ 0 <= snd ij) p ->
  map (fun ij : Z * Z => (as_unsigned (fst ij), as_unsigned (snd ij))) p = p.
Proof.
  induction 1 as [|[i j] p [Hi Hj] Hp IH]; [reflexivity|].
  simpl in *. rewrite IH, !as_unsigned_nonneg by lia. reflexivity.
Qed.

Lemma effective_grid_in_grid x y :
  in_grid (len x) (len y) (effective_window x y None).
Proof. apply grid_in_grid. Qed.

(** ** C6 *)

(** C6, as the code has it. For every x, y, distance function and window
    of grid cells (or none): _fastdtw.pyx and part_001 return the same
    result; part_000 returns the same cost and the same path, up to the
    unsigned view of a coordinate -1, so the same pair whenever its path
    has no negative coordinate; when fastdtw.pyx returns, the others return
    too and with an equal cost, the paths being free to differ. *)
Theorem dtw_variants_agree x y window f :
  in_grid (len x) (len y) (effective_window x y window) ->
  Cy.dtw x y window (Cy.DistFun f) = P1.dtw x y window f /\
  P1.dtw x y window f = unsigned_view (P0.dtw x y window f) /\
  (forall c p,
     P0.dtw x y window f = Ok (c, p) ->
     Forall (fun ij : Z * Z => 0 <= fst ij /\ 0 <= snd ij) p ->
     P1.dtw x y window f = Ok (c, p)) /\
  (forall c p,
     Py.dtw f x y window = Ok (c, p) ->
     exists c' p', P0.dtw x y window f = Ok (c', p') /\ dbl_eq c c').
Proof.
  intros Hg. split; [reflexivity|]. split; [by apply dtw_unsigned_view|]. split.
  - intros c p H0 Hp. rewrite dtw_unsigned_view by exact Hg.
    rewrite H0. simpl. by rewrite as_unsigned_path.
  - intros c p Hpy.
    destruct (fill_ok (fun i => i) (fun z _ => eq_refl) (fun a b => Ok (f a b)) x y
                (map shift (effective_window x y window))
                {[ __get_key 0 0 := zero_entry ]}
                (fun a b => ex_intro _ (f a b) eq_refl)
                (shift_in_grid _ _ _ Hg)) as [Dm Hfm].
    destruct (backtrack_total (fun i => i) Dm
                (fill_decreasing _ _ _ _ _ _ _ decreasing_origin Hfm)
                (S (size Dm)) (len x) (len y) (size_below_lt Dm _)) as [r Hr].
    assert (P0.dtw x y window f =
            Ok (cost (fst (map_at (fst r) (len x, len y))), rev (snd r))) as H0.
    { unfold P0.dtw, dtw_map.
      change (match window with
              | Some w => w
              | None => grid (len x) (len y)
              end) with (effective_window x y window).
      rewrite Hfm. unfold bind. by rewrite Hr. }
    eexists _, _. split; [exact H0|].
    unfold Py.dtw in Hpy.
    change (match window with
            | Some w => w
            | None => grid (len x) (len y)
            end) with (effective_window x y window) in Hpy.
    destruct (Py.fill f x y {[ (0, 0) := Py.Tup3 (Fin 0) 0 0 ]}
                (effective_window x y window)) as [Dp| |] eqn:Hfp;
      unfold bind in Hpy; try discriminate.
    destruct (Py.backtrack (S (size Dp)) Dp (len x) (len y)) as [[Dp' l]| |] eqn:Hbp;
      try discriminate.
    inversion Hpy; subst c p. simpl.
    destruct (py_backtrack_ok _ _ _ _ _ _ Hbp) as [-> Hterm].
    pose proof (fill_agree f x y _ _ _ _ _ tables_agree_origin Hfp Hfm) as Hag.
    destruct (Hag (len x, len y)) as [Hc Hiff].
    assert (is_Some (Dm !! (len x, len y))) as [e He].
    { destruct Hterm as [Heq|Ht]; [|by apply Hiff].
      rewrite Heq. eapply fill_keeps; [exact Hfm|].
      unfold __get_key. rewrite lookup_singleton_eq. eauto. }
    rewrite (map_at_some _ _ _ (backtrack_keeps _ _ _ _ _ _ _ _ Hr He)).
    rewrite item0_dd_at. simpl in Hc.
    unfold __get_cost, __get_key in Hc. by rewrite He in Hc.
Qed.

Lemma dtw_variants_agree_witness :
  in_grid (len (qs [1; 1])) (len (qs [1; 1]))
          (effective_window (qs [1; 1]) (qs [1; 1]) None) /\
  P1.dtw (qs [1; 1]) (qs [1; 1]) None abs_dist =
  unsigned_view (P0.dtw (qs [1; 1]) (qs [1; 1]) None abs_dist).
Proof.
  assert (in_grid (len (qs [1; 1])) (len (qs [1; 1]))
                  (effective_window (qs [1; 1]) (qs [1; 1]) None)) as Hg.
  { unfold in_grid. repeat constructor; simpl; lia. }
  split; [exact Hg|].
  exact (proj1 (proj2 (dtw_variants_agree (qs [1; 1]) (qs [1; 1]) None abs_dist Hg))).
Defined.

(** C6 as stated fails: on x = y = [1,1] without a window fastdtw.pyx returns
    the path [(0,0),(0,1),(1,1)] and the C++ variants [(0,0),(1,1)]; on a
    window that misses the last cell fastdtw.pyx raises where they return. *)
Lemma dtw_variants_differ :
  Py.dtw abs_dist (qs [1; 1]) (qs [1; 1]) None = Ok (Fin 0, [(0, 0); (0, 1); (1, 1)]) /\
  Cy.dtw (qs [1; 1]) (qs [1; 1]) None Cy.DistNone = Ok (Fin 0, [(0, 0); (1, 1)]) /\
  P1.dtw (qs [1; 1]) (qs [1; 1]) None abs_dist = Ok (Fin 0, [(0, 0); (1, 1)]) /\
  P0.dtw (qs [1; 1]) (qs [1; 1]) None abs_dist = Ok (Fin 0, [(0, 0); (1, 1)]) /\
  Py.dtw abs_dist (qs [1; 1]) (qs [1; 1]) None <>
  P0.dtw (qs [1; 1]) (qs [1; 1]) None abs_dist /\
  Py.dtw abs_dist (qs [1; 2]) (qs [1; 2]) (Some []) = Err IndexError /\
  P0.dtw (qs [1; 2]) (qs [1; 2]) (Some []) abs_dist = Ok (Fin 0, [(1, 1)]).
Proof.
  assert (Py.dtw abs_dist (qs [1; 1]) (qs [1; 1]) None =
          Ok (Fin 0, [(0, 0); (0, 1); (1, 1)])) as H1 by (vm_compute; reflexivity).
  assert (P0.dtw (qs [1; 1]) (qs [1; 1]) None abs_dist =
          Ok (Fin 0, [(0, 0); (1, 1)])) as H2 by (vm_compute; reflexivity).
  split; [exact H1|]. split; [vm_compute; reflexivity|].
  split; [vm_compute; reflexivity|]. split; [exact H2|].
  split; [rewrite H1, H2; congruence|].
  split; vm_compute; reflexivity.
Qed.

(** ** The solver of fastdtw.pyx always returns or raises IndexError *)

Lemma py_visit_decreasing dist x y D i j D' :
  py_decreasing D -> Py.visit dist x y D (i, j) = Ok D' -> py_decreasing D'.
Proof.
  intros HD Hv.
  destruct (py_visit_outcome dist x y D i j) as [(D'' & _ & Hj)|Hv'];
    [|congruence].
  apply py_visit_inv in Hv as (a & b & D3 & _ & _ & _ & HT & ->); [|exact Hj].
  intros k c pi pj Hk. destruct (decide ((i + 1, j + 1) = k)) as [<-|Hne].
  - rewrite lookup_insert_eq in Hk. right. simpl.
    destruct (py_choose_prev (py_cost D (i, j)) (py_cost D (i + 1, j))
                (py_cost D (i, j + 1)) (dist a b) i j) as (c' & pi' & pj' & Hc & Hp).
    rewrite Hc in Hk. inversion Hk; subst. unfold corner_first_rule in Hp.
    destruct (dbl_lt _ _ && dbl_lt _ _); [|destruct (dbl_lt _ _)];
      inversion Hp; lia.
  - rewrite lookup_insert_ne in Hk by exact Hne. apply HT in Hk. eapply HD, Hk.
Qed.

Lemma py_fill_decreasing dist x y w : forall D D',
  py_decreasing D -> Py.fill dist x y D w = Ok D' -> py_decreasing D'.
Proof.
  induction w as [|[i j] w IH]; intros D D' HD Hf.
  - simpl in Hf. inversion Hf; subst. exact HD.
  - rewrite py_fill_cons in Hf.
    destruct (Py.visit dist x y D (i, j)) as [D1| |] eqn:Hv; unfold bind in Hf;
      try discriminate.
    eapply IH; [|exact Hf]. eapply py_visit_decreasing; eassumption.
Qed.

Lemma py_backtrack_outcome (D : gmap (Z * Z) Py.entry) :
  py_decreasing D ->
  forall (fuel : nat) i j,
    (size (py_below (i + j) D) < fuel)%nat ->
    (exists r, Py.backtrack fuel D i j = Ok r) \/
    Py.backtrack fuel D i j = Err IndexError.
Proof.
  intros HD. induction fuel as [|fuel IH]; intros i j Hsz; [lia|].
  simpl. destruct ((i =? 0) && (j =? 0)) eqn:Hz; [left; eauto|].
  unfold Py.dd_at. destruct (D !! (i, j)) as [[c|c pi pj]|] eqn:He;
    [by right| |by right].
  destruct (HD _ _ _ _ He) as [[-> ->]|Hlt].
  - left. destruct fuel; simpl; eauto.
  - simpl in Hlt. destruct (IH pi pj) as [[r Hr]|Hr].
    + assert (py_below (pi + pj) D ⊂ py_below (i + j) D) as Hsub.
      { split.
        - intros k. unfold py_below. rewrite !elem_of_filter.
          intros [H1 H2]. split; [lia | exact H2].
        - intros Hsup. assert ((i, j) ∈ py_below (i + j) D) as Hin.
          { unfold py_below. apply elem_of_filter. split; [simpl; lia|].
            apply elem_of_dom. eauto. }
          apply Hsup in Hin. unfold py_below in Hin.
          apply elem_of_filter in Hin as [Hin _]. simpl in Hin. lia. }
      apply subset_size in Hsub. lia.
    + rewrite Hr. left. simpl. eauto.
    + rewrite Hr. by right.
Qed.

Lemma py_dtw_outcome dist x y window :
  (exists r, Py.dtw dist x y window = Ok r) \/
  Py.dtw dist x y window = Err IndexError.
Proof.
  unfold Py.dtw.
  destruct (py_fill_outcome dist x y
              (match window with
               | Some w => w
               | None => grid (len x) (len y)
               end) {[ (0, 0) := Py.Tup3 (Fin 0) 0 0 ]}) as [[D Hf]| ->];
    [|by right].
  rewrite Hf. unfold bind.
  assert (py_decreasing D) as HD.
  { eapply py_fill_decreasing; [|exact Hf].
    intros k c pi pj Hk. apply lookup_singleton_Some in Hk as [_ Hk].
    inversion Hk. by left. }
  destruct (py_backtrack_outcome D HD (S (size D)) (len x) (len y))
    as [[r Hr]|Hr].
  - apply Nat.lt_succ_r. rewrite <- (size_dom (D:=gset (Z * Z)) D).
    apply subseteq_size. unfold py_below. intros k Hk.
    apply elem_of_filter in Hk. tauto.
  - rewrite Hr. left. eauto.
  - rewrite Hr. by right.
Qed.


(** ** The cost returned by the C++ solver *)

Lemma item_elem x i a : item x i = Ok a -> elem x i = a.
Proof.
  unfold item, elem. destruct ((0 <=? i) && (i <? len x)); [|discriminate].
  destruct (nth_error x (Z.to_nat i)) as [a'|] eqn:Hn; [|discriminate].
  intros H. inversion H; subst. by apply nth_error_nth.
Qed.

Lemma elem_dist_of dist a b :
  Cy.bad_order dist = false -> Cy.elem_dist dist a b = Ok (dist_of dist a b).
Proof.
  destruct dist as [|p|f]; simpl; try reflexivity.
  destruct (Qltb 0 p); [reflexivity | discriminate].
Qed.

Lemma path_cost_rev d x y l : path_cost d x y (rev l) = trail_cost d x y l.
Proof.
  unfold path_cost, trail_cost.
  rewrite <- (rev_involutive l) at 2. symmetry.
  apply (fold_left_rev_right
           (fun (c : cell) (acc : Q) =>
              (acc + d (elem x (fst c)) (elem y (snd c)))%Q)).
Qed.

Lemma choose_cost_le cu cl cc dt i j m :
  m = cu \/ m = cl \/ m = cc ->
  dbl_le (cost (choose cu cl cc dt i j)) (dbl_add m dt).
Proof.
  intros Hm.
  destruct (choose_cases cu cl cc dt i j)
    as [( -> & A & B) | [( -> & A & B) | ( -> & A & B)]];
    simpl; apply dbl_add_mono;
    destruct Hm as [-> | [-> | ->]]; auto using dbl_le_refl.
Qed.

Lemma choose_cost_prev cu cl cc dt i j :
  exists m,
    (m = cu /\ prev_x_idx (choose cu cl cc dt i j) = i - 1 /\
     prev_y_idx (choose cu cl cc dt i j) = j) \/
    (m = cl /\ prev_x_idx (choose cu cl cc dt i j) = i /\
     prev_y_idx (choose cu cl cc dt i j) = j - 1) \/
    (m = cc /\ prev_x_idx (choose cu cl cc dt i j) = i - 1 /\
     prev_y_idx (choose cu cl cc dt i j) = j - 1).
Proof.
  unfold choose.
  destruct (dbl_lt cu cl && dbl_lt cu cc); [exists cu; simpl; auto|].
  destruct (dbl_lt cl cc); [exists cl | exists cc]; simpl; auto.
Qed.

Lemma choose_cost_eq cu cl cc dt i j :
  (cost (choose cu cl cc dt i j) = dbl_add cu dt /\
   prev_x_idx (choose cu cl cc dt i j) = i - 1 /\
   prev_y_idx (choose cu cl cc dt i j) = j) \/
  (cost (choose cu cl cc dt i j) = dbl_add cl dt /\
   prev_x_idx (choose cu cl cc dt i j) = i /\
   prev_y_idx (choose cu cl cc dt i j) = j - 1) \/
  (cost (choose cu cl cc dt i j) = dbl_add cc dt /\
   prev_x_idx (choose cu cl cc dt i j) = i - 1 /\
   prev_y_idx (choose cu cl cc dt i j) = j - 1).
Proof.
  unfold choose.
  destruct (dbl_lt cu cl && dbl_lt cu cc); [simpl; auto|].
  destruct (dbl_lt cl cc); simpl; auto.
Qed.

Section MapSolverCost.
Variable view : Z -> Z.
Hypothesis view_nonneg : forall z, 0 <= z -> view z = z.
Variable dist : Q -> Q -> outcome Q.
Variable d : Q -> Q -> Q.
Hypothesis dist_d : forall a b, dist a b = Ok (d a b).
Variables x y : list Q.

(** the keys of the table are the origin and the cells visited *)
Lemma fill_dom w : forall D D' k,
  fill view dist x y D w = Ok D' -> is_Some (D' !! k) ->
  is_Some (D !! k) \/ k ∈ w.
Proof.
  induction w as [|c w IH]; intros D D' k Hf Hk; simpl in Hf.
  - inversion Hf; subst. by left.
  - destruct (visit view dist x y D c) as [D1| |] eqn:Hv; simpl in Hf;
      try discriminate.
    destruct (IH _ _ _ Hf Hk) as [H1|Hin]; [|right; by right].
    apply visit_inv in Hv as (a & b & dt & _ & _ & _ & ->).
    destruct (decide (c = k)) as [->|Hne]; [right; by left|].
    rewrite lookup_insert_ne in H1 by exact Hne. by left.
Qed.

(** the cost held at a cell that satisfies the recurrence *)
Lemma recurrence_cost D c :
  recurrence_at dist x y D c ->
  exists e,
    D !! c = Some e /\
    e = choose (__get_cost D (fst c - 1) (snd c) Inf)
               (__get_cost D (fst c) (snd c - 1) Inf)
               (__get_cost D (fst c - 1) (snd c - 1) Inf)
               (d (elem x (fst c - 1)) (elem y (snd c - 1))) (fst c) (snd c).
Proof.
  intros (a & b & dt & Ha & Hb & Hd & HD).
  rewrite dist_d in Hd. inversion Hd; subst dt.
  apply item_elem in Ha, Hb. subst a b. eauto.
Qed.

(** the backtracking loop adds up the cost it started from *)
Lemma backtrack_cost D :
  sound D ->
  (forall k, is_Some (D !! k) -> k <> (0, 0) -> recurrence_at dist x y D k) ->
  forall fuel i j,
    finite_at D (i, j) ->
    (size (below (i + j) D) < fuel)%nat ->
    exists l, backtrack view fuel D i j = Ok (D, l) /\
              __get_cost D i j Inf = Fin (trail_cost d x y l).
Proof.
  intros HD Hrec. pose proof (sound_decreasing D HD) as Hdec.
  destruct HD as [H0 HD].
  induction fuel as [|fuel IH]; intros i j Hfin Hsz; [lia|].
  simpl. destruct ((i =? 0) && (j =? 0)) eqn:Hz.
  { apply andb_true_iff in Hz as [Hi Hj].
    apply Z.eqb_eq in Hi, Hj. subst. exists []. split; [reflexivity|].
    unfold __get_cost, __get_key. rewrite H0. reflexivity. }
  assert ((i, j) <> (0, 0)) as Hne.
  { intros H. inversion H; subst. discriminate. }
  destruct Hfin as (e & q & He & Hq).
  unfold __get_key. rewrite (map_at_some _ _ _ He).
  destruct (HD _ _ He Hne) as (Hi & Hj & Hp & Hf). simpl in Hi, Hj.
  destruct (IH (prev_x_idx e) (prev_y_idx e) (Hf q Hq)) as (l & Hl & Hc).
  - assert (below (prev_x_idx e + prev_y_idx e) D ⊂ below (i + j) D) as Hsub.
    { pose proof (pred_sum_lt _ _ Hp) as Hlt.
      simpl in Hlt. split; [apply below_mono; lia|].
      intros Hsup. assert ((i, j) ∈ below (i + j) D) as Hin.
      { unfold below. apply elem_of_filter. split; [simpl; lia|].
        apply elem_of_dom. eauto. }
      apply Hsup in Hin. unfold below in Hin.
      apply elem_of_filter in Hin as [Hin _]. simpl in Hin. lia. }
    apply subset_size in Hsub. lia.
  - rewrite Hl. simpl. rewrite !view_nonneg by lia.
    eexists. split; [reflexivity|].
    destruct (recurrence_cost D (i, j)) as (e' & He' & Heq).
    { apply Hrec; [eauto | exact Hne]. }
    rewrite He in He'. injection He' as <-.
    simpl in Heq.
    unfold __get_cost at 1. unfold __get_key. rewrite He.
    unfold trail_cost. simpl. fold (trail_cost d x y l).
    set (dt := d (elem x (i - 1)) (elem y (j - 1))) in *.
    destruct (choose_cost_eq (__get_cost D (i - 1) j Inf)
                (__get_cost D i (j - 1) Inf)
                (__get_cost D (i - 1) (j - 1) Inf) dt i j)
      as [(A & B & C) | [(A & B & C) | (A & B & C)]];
      rewrite <- Heq in A, B, C; rewrite A; rewrite B, C in Hc;
      rewrite Hc; reflexivity.
Qed.

(** the cost held at the end of a path of visited cells is at most the sum
    of the distances along the path *)
Lemma path_lower_bound D :
  forall p c acc,
    adjacent step_ok (c :: p) ->
    (forall c', c' ∈ p -> recurrence_at dist x y D (shift c')) ->
    dbl_le (__get_cost D (fst c + 1) (snd c + 1) Inf) (Fin acc) ->
    exists cl,
      last (c :: p) = Some cl /\
      dbl_le (__get_cost D (fst cl + 1) (snd cl + 1) Inf)
             (Fin (fold_left
                     (fun acc c => (acc + d (elem x (fst c)) (elem y (snd c)))%Q)
                     p acc)).
Proof.
  induction p as [|c' p IH]; intros c acc Hadj Hrec Hc.
  - exists c. split; [reflexivity | exact Hc].
  - destruct Hadj as [Hstep Hadj].
    destruct (recurrence_cost D (shift c')) as (e & He & Heq).
    { apply Hrec. by left. }
    unfold shift in He, Heq. simpl in He, Heq.
    replace (fst c' + 1 - 1) with (fst c') in Heq by lia.
    replace (snd c' + 1 - 1) with (snd c') in Heq by lia.
    destruct (IH c' (acc + d (elem x (fst c')) (elem y (snd c')))%Q Hadj)
      as (cl & Hl & Hle).
    + intros c'' Hc''. apply Hrec. by right.
    + unfold __get_cost at 1. unfold __get_key. rewrite He. rewrite Heq.
      eapply dbl_le_trans;
        [apply (choose_cost_le _ _ _ _ _ _
                  (__get_cost D (fst c + 1) (snd c + 1) Inf))|].
      * destruct Hstep as [-> | [-> | ->]]; simpl.
        -- left. reflexivity.
        -- right. left. reflexivity.
        -- right. right. reflexivity.
      * apply (dbl_add_mono _ (Fin acc)). exact Hc.
    + exists cl. split; [|exact Hle].
      change (last (c :: c' :: p)) with (last (c' :: p)) in *. exact Hl.
Qed.

(** what a window in row-major order leaves in the table *)
Lemma fill_sorted_table w D :
  StronglySorted cell_lt w -> in_grid (len x) (len y) w ->
  fill view dist x y {[ __get_key 0 0 := zero_entry ]} (map shift w) = Ok D ->
  sound D /\
  (forall k, is_Some (D !! k) -> k <> (0, 0) -> recurrence_at dist x y D k).
Proof.
  intros Hs Hg Hf. split.
  - eapply fill_sound; [|exact sound_origin|exact Hf].
    eapply ge1_of_in_grid. exact Hg.
  - intros k Hk Hne.
    destruct (fill_dom _ _ _ _ Hf Hk) as [H0|Hin].
    + unfold __get_key in H0. destruct H0 as [e He].
      apply lookup_singleton_Some in He as [<- _]. congruence.
    + eapply (fill_recurrence view view_nonneg dist x y (map shift w) []);
        [by apply shift_sorted|eapply ge1_of_in_grid; exact Hg| |exact Hf|exact Hin].
      intros c Hc. by apply elem_of_nil in Hc.
Qed.

Lemma dtw_map_cost_of_path w q p :
  StronglySorted cell_lt w -> in_grid (len x) (len y) w ->
  (len x - 1, len y - 1) ∈ w ->
  dtw_map view dist x y (Some w) = Ok (Fin q, p) ->
  q = path_cost d x y p.
Proof.
  intros Hs Hg Hterm Hres.
  pose proof Hres as Hres'. unfold dtw_map in Hres.
  destruct (fill view dist x y {[ __get_key 0 0 := zero_entry ]} (map shift w))
    as [D| |] eqn:Hf; try discriminate.
  destruct (fill_sorted_table w D Hs Hg Hf) as [HD Hrec].
  assert (is_Some (D !! (len x, len y))) as [e He].
  { eapply fill_populates; [|exact Hf]. by apply shift_elem_of. }
  pose proof (dtw_map_result view dist x y (Some w) D e _ Hf He Hres') as Hc.
  simpl in Hc.
  assert (finite_at D (len x, len y)) as Hfin by (exists e, q; auto).
  destruct (backtrack_cost D HD Hrec (S (size D)) (len x) (len y)
              Hfin (size_below_lt D _)) as (l & Hl & Hcost).
  unfold bind in Hres. rewrite Hl in Hres. simpl in Hres.
  inversion Hres; subst p. rewrite path_cost_rev.
  unfold __get_cost, __get_key in Hcost. rewrite He in Hcost.
  rewrite <- Hc in Hcost. by inversion Hcost.
Qed.

Lemma dtw_map_cost_minimal w c p p' :
  StronglySorted cell_lt w -> in_grid (len x) (len y) w ->
  dtw_map view dist x y (Some w) = Ok (c, p) ->
  warping_path (len x) (len y) p' ->
  (forall cl, cl ∈ p' -> cl ∈ w) ->
  dbl_le c (Fin (path_cost d x y p')).
Proof.
  intros Hs Hg Hres Hwp Hin.
  pose proof Hres as Hres'. unfold dtw_map in Hres.
  destruct (fill view dist x y {[ __get_key 0 0 := zero_entry ]} (map shift w))
    as [D| |] eqn:Hf; try discriminate.
  destruct (fill_sorted_table w D Hs Hg Hf) as [[H0 HD] Hrec].
  assert (forall cl, cl ∈ p' -> recurrence_at dist x y D (shift cl)) as Hrec'.
  { intros cl Hcl. apply Hrec.
    - eapply fill_populates; [|exact Hf].
      apply list_elem_of_fmap. exists cl. split; [reflexivity | by apply Hin].
    - pose proof (warping_path_bounds _ _ _ _ Hwp Hcl) as [H1 H2].
      unfold shift. intros H. inversion H. lia. }
  pose proof (halo_last_in _ _ _ 0 Hwp ltac:(lia)) as Hlast.
  apply Hin in Hlast.
  destruct Hwp as (Hh & Hl & Hadj & _).
  destruct p' as [|c0 t]; [discriminate|].
  simpl in Hh. inversion Hh; subst c0.
  destruct (recurrence_cost D (shift (0, 0))) as (e1 & He1 & Heq1).
  { apply Hrec'. by left. }
  unfold shift in He1, Heq1. simpl in He1, Heq1.
  destruct (path_lower_bound D t (0, 0)
              (0 + d (elem x 0) (elem y 0))%Q Hadj) as (cl & Hcl & Hle).
  - intros c' Hc'. apply Hrec'. by right.
  - simpl. unfold __get_cost at 1. unfold __get_key. rewrite He1, Heq1.
    eapply dbl_le_trans;
      [apply (choose_cost_le _ _ _ _ _ _ (__get_cost D 0 0 Inf)); auto|].
    unfold __get_cost, __get_key. rewrite H0. simpl. apply Qle_refl.
  - rewrite Hl in Hcl. inversion Hcl; subst cl. simpl in Hle.
    replace (len x - 1 + 1) with (len x) in Hle by lia.
    replace (len y - 1 + 1) with (len y) in Hle by lia.
    assert (is_Some (D !! (len x, len y))) as [e He].
    { eapply fill_populates; [|exact Hf]. by apply shift_elem_of. }
    pose proof (dtw_map_result view dist x y (Some w) D e _ Hf He Hres') as Hc.
    simpl in Hc. subst c.
    unfold __get_cost, __get_key in Hle. rewrite He in Hle. exact Hle.
Qed.
End MapSolverCost.

(** ** Exact DTW is optimal *)

Lemma warping_path_in_grid lx ly p c :
  warping_path lx ly p -> c ∈ p -> c ∈ grid lx ly.
Proof.
  intros Hwp Hc. destruct c as [i j]. apply elem_of_grid.
  pose proof (warping_path_bounds _ _ _ _ Hwp Hc) as [H1 H2]. simpl in *. lia.
Qed.

Lemma last_cell_in_grid x y : x <> [] -> y <> [] -> (len x - 1, len y - 1) ∈ grid (len x) (len y).
Proof.
  intros Hx Hy. apply elem_of_grid. unfold len.
  destruct x; [congruence|]. destruct y; [congruence|]. simpl. lia.
Qed.

Lemma exact_dtw_minimum x y dist :
  Cy.bad_order dist = false -> x <> [] -> y <> [] ->
  exists q p,
    Cy.dtw x y None dist = Ok (Fin q, p) /\
    warping_path (len x) (len y) p /\
    q = path_cost (dist_of dist) x y p /\
    forall p', warping_path (len x) (len y) p' ->
               (q <= path_cost (dist_of dist) x y p')%Q.
Proof.
  intros Hb Hx Hy.
  destruct (dtw_map_exact as_unsigned as_unsigned_nonneg (Cy.elem_dist dist) x y
              (elem_dist_total dist Hb) Hx Hy) as (q & p & Hd & Hwp).
  exists q, p. split; [exact Hd|]. split; [exact Hwp|].
  rewrite dtw_map_none in Hd. split.
  - eapply (dtw_map_cost_of_path as_unsigned as_unsigned_nonneg);
      [intros a b; by apply elem_dist_of|apply grid_sorted|apply grid_in_grid
      |by apply last_cell_in_grid|exact Hd].
  - intros p' Hwp'.
    apply (dtw_map_cost_minimal as_unsigned as_unsigned_nonneg (Cy.elem_dist dist)
             (dist_of dist) (fun a b => elem_dist_of dist a b Hb) x y
             (grid (len x) (len y)) (Fin q) p p');
      [apply grid_sorted|apply grid_in_grid|exact Hd|exact Hwp'|].
    intros cl Hcl. eapply warping_path_in_grid; eassumption.
Qed.



(** X2. When dtw is given a window of grid cells in row-major order that
    holds the last cell and returns a finite cost, that cost is the sum of
    the distances along the path it returns. *)
Theorem dtw_window_cost_of_path x y w dist q p :
  Cy.bad_order dist = false ->
  StronglySorted cell_lt w -> in_grid (len x) (len y) w ->
  (len x - 1, len y - 1) ∈ w ->
  Cy.dtw x y (Some w) dist = Ok (Fin q, p) ->
  q = path_cost (dist_of dist) x y p.
Proof.
  intros Hb Hs Hg Ht Hd.
  eapply (dtw_map_cost_of_path as_unsigned as_unsigned_nonneg);
    [intros a b; by apply elem_dist_of|exact Hs|exact Hg|exact Ht|exact Hd].
Qed.

Lemma dtw_window_cost_of_path_witness :
  Cy.dtw (qs [1; 2]) (qs [3]) (Some [(0, 0); (1, 0)]) Cy.DistNone =
    Ok (Fin 3, [(0, 0); (1, 0)]) /\
  3%Q = path_cost (dist_of Cy.DistNone) (qs [1; 2]) (qs [3]) [(0, 0); (1, 0)].
Proof.
  assert (Cy.dtw (qs [1; 2]) (qs [3]) (Some [(0, 0); (1, 0)]) Cy.DistNone =
          Ok (Fin 3, [(0, 0); (1, 0)])) as Hd by (vm_compute; reflexivity).
  split; [exact Hd|].
  apply (dtw_window_cost_of_path (qs [1; 2]) (qs [3]) [(0, 0); (1, 0)]
           Cy.DistNone 3%Q [(0, 0); (1, 0)]).
  - reflexivity.
  - repeat constructor; unfold cell_lt; simpl; lia.
  - unfold in_grid. repeat constructor; simpl; lia.
  - rewrite !elem_of_cons. auto.
  - exact Hd.
Defined.

(** X3. When dtw is given a window of grid cells in row-major order, the
    cost it returns is at most the cost of every warping path that stays
    inside the window. *)
Theorem dtw_window_cost_minimal x y w dist c p p' :
  Cy.bad_order dist = false ->
  StronglySorted cell_lt w -> in_grid (len x) (len y) w ->
  Cy.dtw x y (Some w) dist = Ok (c, p) ->
  warping_path (len x) (len y) p' -> (forall cl, cl ∈ p' -> cl ∈ w) ->
  dbl_le c (Fin (path_cost (dist_of dist) x y p')).
Proof.
  intros Hb Hs Hg Hd Hwp Hin.
  apply (dtw_map_cost_minimal as_unsigned as_unsigned_nonneg (Cy.elem_dist dist)
           (dist_of dist) (fun a b => elem_dist_of dist a b Hb) x y w c p p');
    assumption.
Qed.

Lemma dtw_window_cost_minimal_witness :
  Cy.dtw (qs [1; 2]) (qs [3; 5]) (Some [(0, 0); (0, 1); (1, 0); (1, 1)]) Cy.DistNone =
    Ok (Fin 5, [(0, 0); (1, 1)]) /\
  dbl_le (Fin 5)
         (Fin (path_cost (dist_of Cy.DistNone) (qs [1; 2]) (qs [3; 5])
                         [(0, 0); (1, 0); (1, 1)])).
Proof.
  assert (Cy.dtw (qs [1; 2]) (qs [3; 5]) (Some [(0, 0); (0, 1); (1, 0); (1, 1)])
                 Cy.DistNone = Ok (Fin 5, [(0, 0); (1, 1)])) as Hd
      by (vm_compute; reflexivity).
  split; [exact Hd|].
  apply (dtw_window_cost_minimal (qs [1; 2]) (qs [3; 5])
           [(0, 0); (0, 1); (1, 0); (1, 1)] Cy.DistNone (Fin 5) [(0, 0); (1, 1)]
           [(0, 0); (1, 0); (1, 1)]).
  - reflexivity.
  - repeat constructor; unfold cell_lt; simpl; lia.
  - unfold in_grid. repeat constructor; simpl; lia.
  - exact Hd.
  - unfold warping_path. simpl. repeat split; try reflexivity.
    + unfold step_ok. simpl. auto.
    + unfold step_ok. simpl. auto.
    + repeat constructor; simpl; lia.
  - intros cl Hcl. rewrite !elem_of_cons, elem_of_nil in Hcl.
    destruct Hcl as [-> | [-> | [-> | []]]]; rewrite !elem_of_cons; auto 6.
Defined.

(** ** The cost fastdtw returns *)




(** ** Symmetry and identical sequences *)

Lemma transpose_adjacent p : adjacent step_ok p -> adjacent step_ok (transpose p).
Proof.
  induction p as [|a p IH]; simpl; [tauto|].
  intros [Ha Hp]. split; [|by apply IH].
  destruct p as [|b p]; [exact I|]. simpl.
  destruct Ha as [-> | [-> | ->]]; unfold step_ok; simpl; auto.
Qed.

Lemma transpose_warping lx ly p :
  warping_path lx ly p -> warping_path ly lx (transpose p).
Proof.
  intros (Hh & Hl & Hadj & _).
  assert (adjacent step_ok (transpose p)) as Ha by (by apply transpose_adjacent).
  split; [|split; [|split; [exact Ha | by apply adjacent_steps_sorted]]].
  - destruct p; [discriminate|]. simpl in *. by inversion Hh.
  - unfold transpose. change (map ?f p) with (f <$> p).
    rewrite fmap_last, Hl. reflexivity.
Qed.

Lemma path_cost_transpose d x y p :
  (forall a b, (d a b == d b a)%Q) ->
  (path_cost d y x (transpose p) == path_cost d x y p)%Q.
Proof.
  intros Hsym. unfold path_cost.
  assert (forall acc acc', (acc == acc')%Q ->
            (fold_left (fun acc c => acc + d (elem y (fst c)) (elem x (snd c)))
                       (transpose p) acc ==
             fold_left (fun acc c => acc + d (elem x (fst c)) (elem y (snd c)))
                       p acc')%Q) as H.
  { induction p as [|c p IH]; intros acc acc' Hacc; simpl; [exact Hacc|].
    apply IH. rewrite Hacc, (Hsym (elem y (snd c)) (elem x (fst c))).
    reflexivity. }
  apply H. reflexivity.
Qed.

Lemma transpose_involutive p : transpose (transpose p) = p.
Proof.
  unfold transpose. rewrite map_map. simpl.
  rewrite <- (map_id p) at 2. apply map_ext. by intros [i j].
Qed.

Lemma abs_dist_sym a b : (abs_dist a b == abs_dist b a)%Q.
Proof.
  unfold abs_dist. rewrite <- (Qabs_opp (b - a)).
  apply Qabs_wd. ring.
Qed.

(** X5. For a symmetric distance, exact dtw returns the same cost for
    (x, y) and for (y, x). *)
Theorem dtw_exact_symmetric x y dist :
  Cy.bad_order dist = false -> x <> [] -> y <> [] ->
  (forall a b, (dist_of dist a b == dist_of dist b a)%Q) ->
  exists q p q' p',
    Cy.dtw x y None dist = Ok (Fin q, p) /\
    Cy.dtw y x None dist = Ok (Fin q', p') /\
    (q == q')%Q.
Proof.
  intros Hb Hx Hy Hsym.
  destruct (exact_dtw_minimum x y dist Hb Hx Hy) as (q & p & Hd & Hwp & Hq & Hmin).
  destruct (exact_dtw_minimum y x dist Hb Hy Hx)
    as (q' & p' & Hd' & Hwp' & Hq' & Hmin').
  exists q, p, q', p'. split; [exact Hd|]. split; [exact Hd'|].
  apply Qle_antisym.
  - specialize (Hmin _ (transpose_warping _ _ _ Hwp')).
    rewrite (path_cost_transpose _ _ _ _ Hsym) in Hmin. by rewrite Hq'.
  - specialize (Hmin' _ (transpose_warping _ _ _ Hwp)).
    rewrite (path_cost_transpose _ _ _ _ Hsym) in Hmin'. by rewrite Hq.
Qed.

Lemma dtw_exact_symmetric_witness :
  exists q p q' p',
    Cy.dtw (qs [1; 2; 3]) (qs [2; 3]) None Cy.DistNone = Ok (Fin q, p) /\
    Cy.dtw (qs [2; 3]) (qs [1; 2; 3]) None Cy.DistNone = Ok (Fin q', p') /\
    Qeq q q'.
Proof.
  apply (dtw_exact_symmetric (qs [1; 2; 3]) (qs [2; 3]) Cy.DistNone);
    [reflexivity | discriminate | discriminate | exact abs_dist_sym].
Defined.

Lemma diagonal_cons lo hi :
  lo < hi ->
  map (fun k : Z => (k, k)) (zrange lo hi) =
  (lo, lo) :: map (fun k : Z => (k, k)) (zrange (lo + 1) hi).
Proof. intros H. by rewrite zrange_cons. Qed.

Lemma diagonal_shape n : forall lo hi,
  Z.to_nat (hi - lo) = n -> lo < hi ->
  adjacent step_ok (map (fun k : Z => (k, k)) (zrange lo hi)) /\
  last (map (fun k : Z => (k, k)) (zrange lo hi)) = Some (hi - 1, hi - 1).
Proof.
  induction n as [|n IH]; intros lo hi Hn Hlt; [lia|].
  rewrite diagonal_cons by exact Hlt.
  destruct (decide (lo + 1 < hi)) as [Hlt'|Hge].
  - destruct (IH (lo + 1) hi) as [Ha Hl]; [lia|exact Hlt'|].
    rewrite diagonal_cons in Ha, Hl |- * by exact Hlt'. split.
    + simpl. split; [|exact Ha]. right. right. reflexivity.
    + exact Hl.
  - rewrite zrange_nil by lia. simpl. split; [tauto|].
    do 2 f_equal; lia.
Qed.

Lemma diagonal_warping x :
  x <> [] -> warping_path (len x) (len x) (diagonal (length x)).
Proof.
  intros Hx. unfold diagonal. fold (len x).
  assert (0 < len x) as Hlen.
  { unfold len. destruct x; [congruence | simpl; lia]. }
  destruct (diagonal_shape (Z.to_nat (len x - 0)) 0 (len x) eq_refl Hlen)
    as [Ha Hl].
  split; [|split; [exact Hl | split; [exact Ha | by apply adjacent_steps_sorted]]].
  by rewrite diagonal_cons.
Qed.

Lemma path_cost_zero d x y p :
  (forall c, c ∈ p -> (d (elem x (fst c)) (elem y (snd c)) == 0)%Q) ->
  (path_cost d x y p == 0)%Q.
Proof.
  unfold path_cost. generalize 0%Q at 2 3 as acc. revert p.
  induction p as [|c p IH]; intros acc Hp; simpl; [reflexivity|].
  rewrite IH.
  - rewrite (Hp c) by (by left). ring.
  - intros c' Hc'. apply Hp. by right.
Qed.

Lemma path_cost_nonneg d x y p :
  (forall a b, (0 <= d a b)%Q) -> (0 <= path_cost d x y p)%Q.
Proof.
  intros Hd. unfold path_cost.
  assert (forall acc, (0 <= acc)%Q ->
            (0 <= fold_left (fun acc c => acc + d (elem x (fst c)) (elem y (snd c)))
                            p acc)%Q) as H.
  { induction p as [|c p IH]; intros acc Hacc; simpl; [exact Hacc|].
    apply IH. rewrite <- (Qplus_0_r 0). apply Qplus_le_compat; [exact Hacc | apply Hd]. }
  apply H. apply Qle_refl.
Qed.

Lemma abs_dist_refl a : (abs_dist a a == 0)%Q.
Proof.
  unfold abs_dist. assert (a - a == 0)%Q as H by ring.
  rewrite H. reflexivity.
Qed.

Lemma abs_dist_nonneg a b : (0 <= abs_dist a b)%Q.
Proof. apply Qabs_nonneg. Qed.

(** X6. With the default distance, exact dtw of a non-empty sequence with
    itself returns the cost 0. *)
Theorem dtw_identical_zero x :
  x <> [] ->
  exists q p, Cy.dtw x x None Cy.DistNone = Ok (Fin q, p) /\ (q == 0)%Q.
Proof.
  intros Hx.
  destruct (exact_dtw_minimum x x Cy.DistNone eq_refl Hx Hx)
    as (q & p & Hd & Hwp & Hq & Hmin).
  exists q, p. split; [exact Hd|]. apply Qle_antisym.
  - specialize (Hmin _ (diagonal_warping x Hx)).
    rewrite path_cost_zero in Hmin; [exact Hmin|].
    intros c Hc. unfold diagonal in Hc.
    apply list_elem_of_fmap in Hc as (k & -> & _). simpl. apply abs_dist_refl.
  - rewrite Hq. apply path_cost_nonneg. apply abs_dist_nonneg.
Qed.

Lemma dtw_identical_zero_witness :
  exists q p,
    Cy.dtw (qs [1; 3; 2]) (qs [1; 3; 2]) None Cy.DistNone = Ok (Fin q, p) /\
    Qeq q 0.
Proof. apply (dtw_identical_zero (qs [1; 3; 2])). discriminate. Defined.

(** ** Outcomes of the C++ solver *)


Lemma dtw_map_in_grid_returns view dist x y w :
  (forall z, 0 <= z -> view z = z) ->
  (forall a b, exists dt, dist a b = Ok dt) ->
  in_grid (len x) (len y) w ->
  exists c p, dtw_map view dist x y (Some w) = Ok (c, p).
Proof.
  intros Hview Hd Hg. unfold dtw_map.
  destruct (fill_ok view Hview dist x y (map shift w)
              {[ __get_key 0 0 := zero_entry ]} Hd (shift_in_grid _ _ _ Hg))
    as [D HD].
  rewrite HD. unfold bind.
  destruct (backtrack_total view D
              (fill_decreasing _ _ _ _ _ _ _ decreasing_origin HD)
              (S (size D)) (len x) (len y) (size_below_lt D _)) as [l Hl].
  rewrite Hl. eauto.
Qed.

(** X8. Given any window made of cells of the grid, in any order and with
    repetitions, and a [dist] that fastdtw accepts, dtw raises nothing: it
    returns a cost and a path. *)
Theorem dtw_grid_window_returns x y w dist :
  Cy.bad_order dist = false -> in_grid (len x) (len y) w ->
  exists c p, Cy.dtw x y (Some w) dist = Ok (c, p).
Proof.
  intros Hb Hg.
  apply (dtw_map_in_grid_returns as_unsigned (Cy.elem_dist dist) x y w
           as_unsigned_nonneg (elem_dist_total dist Hb) Hg).
Qed.

Lemma dtw_grid_window_returns_witness :
  exists c p,
    Cy.dtw (qs [1; 2]) (qs [3; 5]) (Some [(1, 1); (0, 0); (1, 1)]) Cy.DistNone =
    Ok (c, p).
Proof.
  apply (dtw_grid_window_returns (qs [1; 2]) (qs [3; 5]) [(1, 1); (0, 0); (1, 1)]
           Cy.DistNone); [reflexivity|].
  unfold in_grid. repeat constructor; simpl; lia.
Defined.

(** ** Empty windows and empty sequences *)

Lemma grid_no_rows ly : grid 0 ly = [].
Proof. unfold grid. by rewrite (zrange_nil 0 0). Qed.

Lemma grid_no_columns lx : grid lx 0 = [].
Proof.
  unfold grid. rewrite (zrange_nil 0 0) by lia. simpl.
  induction (zrange 0 lx) as [|i l IH]; [reflexivity | exact IH].
Qed.

Lemma backtrack_origin view fuel D : backtrack view fuel D 0 0 = Ok (D, []).
Proof. destruct fuel; reflexivity. Qed.

(** with no cell to visit the last cell is read as a default entry *)
Lemma dtw_map_no_cells view dist x y :
  dtw_map view dist x y (Some []) =
  Ok (Fin 0, if (len x =? 0) && (len y =? 0) then []
             else [(view (len x - 1), view (len y - 1))]).
Proof.
  unfold dtw_map. simpl fill. unfold bind.
  change (size ({[__get_key 0 0 := zero_entry]} : gmap cell CostEntry))
    with (size ({[(0, 0) := zero_entry]} : gmap cell CostEntry)).
  rewrite map_size_singleton.
  destruct ((len x =? 0) && (len y =? 0)) eqn:Hz.
  - apply andb_true_iff in Hz as [Hx Hy]. apply Z.eqb_eq in Hx, Hy.
    rewrite Hx, Hy. rewrite backtrack_origin. simpl.
    unfold map_at, __get_key. rewrite lookup_singleton_eq. reflexivity.
  - assert ((0, 0) <> (len x, len y)) as Hne.
    { intros H. inversion H as [[H1 H2]]. rewrite <- H1, <- H2 in Hz. discriminate. }
    simpl backtrack. rewrite Hz. unfold map_at at 1. unfold __get_key.
    rewrite lookup_singleton_ne by exact Hne.
    simpl. unfold map_at. rewrite lookup_insert_eq. reflexivity.
Qed.

Lemma dtw_map_empty_sequence view dist x y :
  x = [] \/ y = [] ->
  dtw_map view dist x y None =
  Ok (Fin 0, if (len x =? 0) && (len y =? 0) then []
             else [(view (len x - 1), view (len y - 1))]).
Proof.
  intros Hxy. rewrite dtw_map_none.
  replace (grid (len x) (len y)) with (@nil cell).
  - apply dtw_map_no_cells.
  - destruct Hxy as [-> | ->]; [by rewrite grid_no_rows | by rewrite grid_no_columns].
Qed.

(** X9. When x or y is empty and no window is given, no cell is visited and
    the C++ solvers return the cost 0.0 without an error: with the empty
    path when both are empty, otherwise with the single cell
    (len(x) - 1, len(y) - 1), whose coordinate -1 shows as 4294967295 in the
    variants with unsigned cell indices. *)
Theorem dtw_empty_sequence x y dist f :
  x = [] \/ y = [] ->
  Cy.dtw x y None dist =
    Ok (Fin 0, if (len x =? 0) && (len y =? 0) then []
               else [(as_unsigned (len x - 1), as_unsigned (len y - 1))]) /\
  P1.dtw x y None f =
    Ok (Fin 0, if (len x =? 0) && (len y =? 0) then []
               else [(as_unsigned (len x - 1), as_unsigned (len y - 1))]) /\
  P0.dtw x y None f =
    Ok (Fin 0, if (len x =? 0) && (len y =? 0) then []
               else [(len x - 1, len y - 1)]).
Proof.
  intros Hxy. repeat split; by apply dtw_map_empty_sequence.
Qed.

Lemma dtw_empty_sequence_witness :
  Cy.dtw [] (qs [1; 2; 3]) None Cy.DistNone = Ok (Fin 0, [(4294967295, 2)]) /\
  P1.dtw [] (qs [1; 2; 3]) None abs_dist = Ok (Fin 0, [(4294967295, 2)]) /\
  P0.dtw [] (qs [1; 2; 3]) None abs_dist = Ok (Fin 0, [(-1, 2)]).
Proof.
  apply (dtw_empty_sequence [] (qs [1; 2; 3]) Cy.DistNone abs_dist). by left.
Defined.

(** X10. Given an empty window, the dtw of _fastdtw.pyx visits no cell and
    returns the cost 0.0 with the single cell (len(x) - 1, len(y) - 1) as
    its path (the empty path when both sequences are empty), whatever the
    sequences hold. *)
Theorem dtw_empty_window x y dist :
  Cy.dtw x y (Some []) dist =
    Ok (Fin 0, if (len x =? 0) && (len y =? 0) then []
               else [(as_unsigned (len x - 1), as_unsigned (len y - 1))]).
Proof. apply dtw_map_no_cells. Qed.

(** ** The path stays inside the window *)

Section MapSolverPath.
Variable view : Z -> Z.
Hypothesis view_nonneg : forall z, 0 <= z -> view z = z.
Variable dist : Q -> Q -> outcome Q.
Variables x y : list Q.

Lemma backtrack_keys D :
  sound D ->
  forall fuel i j,
    finite_at D (i, j) ->
    (size (below (i + j) D) < fuel)%nat ->
    exists l, backtrack view fuel D i j = Ok (D, l) /\
              forall c, c ∈ l -> is_Some (D !! shift c) /\ shift c <> (0, 0).
Proof.
  intros HD. pose proof (sound_decreasing D HD) as Hdec.
  destruct HD as [H0 HD].
  induction fuel as [|fuel IH]; intros i j Hfin Hsz; [lia|].
  simpl. destruct ((i =? 0) && (j =? 0)) eqn:Hz.
  { exists []. split; [reflexivity|]. intros c Hc. by apply elem_of_nil in Hc. }
  assert ((i, j) <> (0, 0)) as Hne.
  { intros H. inversion H; subst. discriminate. }
  destruct Hfin as (e & q & He & Hq).
  unfold __get_key. rewrite (map_at_some _ _ _ He).
  destruct (HD _ _ He Hne) as (Hi & Hj & Hp & Hf). simpl in Hi, Hj.
  destruct (IH (prev_x_idx e) (prev_y_idx e) (Hf q Hq)) as (l & Hl & Hk).
  - assert (below (prev_x_idx e + prev_y_idx e) D ⊂ below (i + j) D) as Hsub.
    { pose proof (pred_sum_lt _ _ Hp) as Hlt.
      simpl in Hlt. split; [apply below_mono; lia|].
      intros Hsup. assert ((i, j) ∈ below (i + j) D) as Hin.
      { unfold below. apply elem_of_filter. split; [simpl; lia|].
        apply elem_of_dom. eauto. }
      apply Hsup in Hin. unfold below in Hin.
      apply elem_of_filter in Hin as [Hin _]. simpl in Hin. lia. }
    apply subset_size in Hsub. lia.
  - rewrite Hl. simpl. rewrite !view_nonneg by lia.
    eexists. split; [reflexivity|].
    intros c Hc. apply elem_of_cons in Hc as [-> | Hc]; [|by apply Hk].
    unfold shift. simpl.
    replace (i - 1 + 1) with i by lia. replace (j - 1 + 1) with j by lia.
    split; [eauto | exact Hne].
Qed.

Lemma dtw_map_path_in_window w q p :
  in_grid (len x) (len y) w -> (len x - 1, len y - 1) ∈ w ->
  dtw_map view dist x y (Some w) = Ok (Fin q, p) ->
  forall c, c ∈ p -> c ∈ w.
Proof.
  intros Hg Hterm Hres.
  pose proof Hres as Hres'. unfold dtw_map in Hres.
  destruct (fill view dist x y {[ __get_key 0 0 := zero_entry ]} (map shift w))
    as [D| |] eqn:Hf; try discriminate.
  pose proof (fill_sound view dist x y _ _ _ (ge1_of_in_grid x y w Hg)
                sound_origin Hf) as HD.
  assert (is_Some (D !! (len x, len y))) as [e He].
  { eapply fill_populates; [|exact Hf]. by apply shift_elem_of. }
  pose proof (dtw_map_result view dist x y (Some w) D e _ Hf He Hres') as Hc.
  simpl in Hc.
  assert (finite_at D (len x, len y)) as Hfin by (exists e, q; auto).
  destruct (backtrack_keys D HD (S (size D)) (len x) (len y)
              Hfin (size_below_lt D _)) as (l & Hl & Hk).
  unfold bind in Hres. rewrite Hl in Hres. simpl in Hres.
  inversion Hres; subst p. intros c Hc'.
  apply list_elem_of_In in Hc'. apply <- in_rev in Hc'.
  apply list_elem_of_In in Hc'. destruct (Hk c Hc') as [Hs Hne].
  destruct (fill_dom view dist x y _ _ _ _ Hf Hs) as [[e0 Ho]|Hin].
  - unfold __get_key in Ho. apply lookup_singleton_Some in Ho as [Ho _].
    congruence.
  - apply shift_elem_of in Hin. unfold shift in Hin. simpl in Hin.
    replace (fst c + 1 - 1) with (fst c) in Hin by lia.
    replace (snd c + 1 - 1) with (snd c) in Hin by lia.
    by destruct c.
Qed.
End MapSolverPath.

(** X11. When dtw is given a window of grid cells that holds the last cell
    and returns a finite cost, every cell of the returned path is a cell of
    the window. *)
Theorem dtw_path_inside_window x y w dist q p :
  in_grid (len x) (len y) w -> (len x - 1, len y - 1) ∈ w ->
  Cy.dtw x y (Some w) dist = Ok (Fin q, p) ->
  forall c, c ∈ p -> c ∈ w.
Proof.
  intros Hg Ht Hd.
  exact (dtw_map_path_in_window as_unsigned as_unsigned_nonneg
           (Cy.elem_dist dist) x y w q p Hg Ht Hd).
Qed.

Lemma dtw_path_inside_window_witness :
  Cy.dtw (qs [1; 2]) (qs [3]) (Some [(0, 0); (1, 0)]) Cy.DistNone =
    Ok (Fin 3, [(0, 0); (1, 0)]) /\
  forall c, c ∈ [(0, 0); (1, 0)] -> c ∈ [(0, 0); (1, 0)].
Proof.
  assert (Cy.dtw (qs [1; 2]) (qs [3]) (Some [(0, 0); (1, 0)]) Cy.DistNone =
          Ok (Fin 3, [(0, 0); (1, 0)])) as Hd by (vm_compute; reflexivity).
  split; [exact Hd|].
  apply (dtw_path_inside_window (qs [1; 2]) (qs [3]) [(0, 0); (1, 0)]
           Cy.DistNone 3%Q [(0, 0); (1, 0)]).
  - unfold in_grid. repeat constructor; simpl; lia.
  - rewrite !elem_of_cons. auto.
  - exact Hd.
Defined.

(** X12. Restricting dtw to a window of grid cells that holds the last cell
    never lowers the cost below that of exact dtw. *)
Theorem dtw_window_cost_ge_exact x y w dist c p :
  Cy.bad_order dist = false ->
  in_grid (len x) (len y) w -> (len x - 1, len y - 1) ∈ w ->
  Cy.dtw x y (Some w) dist = Ok (c, p) ->
  exists c0 p0, Cy.dtw x y None dist = Ok (c0, p0) /\ dbl_le c0 c.
Proof.
  intros Hb Hg Ht Hd.
  destruct (dtw_none_returns x y dist Hb) as [[c0 p0] Hd0].
  exists c0, p0. split; [exact Hd0|].
  eapply (dtw_map_ge_exact as_unsigned as_unsigned_nonneg); eassumption.
Qed.

Lemma dtw_window_cost_ge_exact_witness :
  Cy.dtw (qs [1; 2]) (qs [3; 1]) (Some [(0, 0); (1, 0); (1, 1)]) Cy.DistNone =
    Ok (Fin 3, [(0, 0); (1, 1)]) /\
  exists c0 p0,
    Cy.dtw (qs [1; 2]) (qs [3; 1]) None Cy.DistNone = Ok (c0, p0) /\
    dbl_le c0 (Fin 3).
Proof.
  assert (Cy.dtw (qs [1; 2]) (qs [3; 1]) (Some [(0, 0); (1, 0); (1, 1)])
                 Cy.DistNone = Ok (Fin 3, [(0, 0); (1, 1)])) as Hd
      by (vm_compute; reflexivity).
  split; [exact Hd|].
  apply (dtw_window_cost_ge_exact (qs [1; 2]) (qs [3; 1])
           [(0, 0); (1, 0); (1, 1)] Cy.DistNone (Fin 3) [(0, 0); (1, 1)]).
  - reflexivity.
  - unfold in_grid. repeat constructor; simpl; lia.
  - rewrite !elem_of_cons. auto.
  - exact Hd.
Defined.

(** ** The recursive driver *)








(** ** The variants of fastdtw *)







(** ** The coarsener *)

Lemma nth_error_reduce_by_half n : forall x,
  (n < Nat.div2 (length x))%nat ->
  nth_error (__reduce_by_half x) n =
  Some ((nth (2 * n) x 0 + nth (2 * n + 1) x 0) / 2)%Q.
Proof.
  induction n as [|n IH]; intros [|a [|b x]] Hn; simpl in Hn; try lia.
  - reflexivity.
  - replace (2 * S n)%nat with (S (S (2 * n))) by lia.
    simpl. apply IH. lia.
Qed.

(** X17. __reduce_by_half returns a sequence of floor(len(x) / 2) elements
    whose element k is (x[2k] + x[2k+1]) / 2. *)
Theorem reduce_by_half_spec x :
  len (__reduce_by_half x) = len x / 2 /\
  forall k, 0 <= k < len x / 2 ->
            item (__reduce_by_half x) k =
            Ok ((elem x (2 * k) + elem x (2 * k + 1)) / 2)%Q.
Proof.
  split; [apply len_reduce_by_half|].
  intros k Hk. unfold item. rewrite len_reduce_by_half.
  replace ((0 <=? k) && (k <? len x / 2)) with true
    by (symmetry; apply andb_true_iff; split; [apply Z.leb_le | apply Z.ltb_lt]; lia).
  rewrite nth_error_reduce_by_half.
  - unfold elem.
    replace (Z.to_nat (2 * k)) with (2 * Z.to_nat k)%nat by lia.
    replace (Z.to_nat (2 * k + 1)) with (2 * Z.to_nat k + 1)%nat by lia.
    reflexivity.
  - rewrite Nat.div2_div. unfold len in Hk.
    apply Nat2Z.inj_lt. rewrite Nat2Z.inj_div, Z2Nat.id by lia. simpl. lia.
Qed.

Lemma reduce_by_half_app x : forall z,
  Nat.Even (length x) ->
  __reduce_by_half (x ++ z) = __reduce_by_half x ++ __reduce_by_half z.
Proof.
  assert (forall n x, (length x <= n)%nat -> forall z, Nat.Even (length x) ->
            __reduce_by_half (x ++ z) = __reduce_by_half x ++ __reduce_by_half z)
    as H.
  { induction n as [|n IH]; intros l Hl z He.
    - destruct l; [reflexivity | simpl in Hl; lia].
    - destruct l as [|a [|b l]]; [reflexivity| |].
      + destruct He as [m Hm]. simpl in Hm. lia.
      + simpl. f_equal. apply IH; [simpl in Hl; lia|].
        destruct He as [m Hm]. simpl in Hm. exists (m - 1)%nat. lia. }
  intros z. by apply (H (length x)).
Qed.

(** X18. The last element of a sequence of odd length plays no part in
    __reduce_by_half. *)
Theorem reduce_by_half_drops_last x a :
  Nat.Even (length x) -> __reduce_by_half (x ++ [a]) = __reduce_by_half x.
Proof.
  intros He. rewrite reduce_by_half_app by exact He. simpl. apply app_nil_r.
Qed.

Lemma reduce_by_half_drops_last_witness :
  __reduce_by_half (qs [1; 3] ++ [inject_Z 8]) = __reduce_by_half (qs [1; 3]).
Proof.
  apply (reduce_by_half_drops_last (qs [1; 3]) (inject_Z 8)).
  exists 1%nat. reflexivity.
Defined.

(** ** The window expander, for every input *)










(** ** The window built from a coarse warping path *)

Lemma expand_window_char path len_x len_y radius :
  warping_path (len_x / 2) (len_y / 2) path ->
  1 <= radius -> 2 <= len_x -> 2 <= len_y ->
  forall c, c ∈ expand_window_lst ∅ path len_x len_y radius <->
            0 <= fst c < len_x /\ 0 <= snd c < len_y /\
            halo radius path (fst c / 2, snd c / 2).
Proof.
  intros Hpath Hr Hx Hy c. unfold expand_window_lst. rewrite union_empty_r_L.
  assert (0 <= radius) as Hr0 by lia.
  assert (1 <= len_x / 2) as Hlx1 by dlia.
  assert (1 <= len_y / 2) as Hly1 by dlia.
  rewrite <- elem_of_window_.
  apply compact_complete.
  - apply (window_contiguous path _ _ radius Hpath Hr0 len_x len_y
             eq_refl eq_refl Hlx1 Hly1).
  - intros i j Hi Hj Hw.
    apply (window_mono path _ _ radius Hpath Hr0 len_x len_y
             eq_refl eq_refl Hlx1 Hly1 i Hi (Z.to_nat j) j); [lia | exact Hw].
  - intros i Hi.
    apply (window_row path _ _ radius Hpath Hr0 len_x len_y
             eq_refl eq_refl Hlx1 Hly1 i Hr Hi).
Qed.

(** X20. For a coarse path that is a warping path of the half-size grid, a
    radius >= 1 and lengths >= 2, __expand_window returns exactly the cells
    of the grid whose coarse cell (i // 2, j // 2) lies within the radius
    of a cell of the path: the row scan loses none of them. *)
Theorem expand_window_complete path len_x len_y radius :
  warping_path (len_x / 2) (len_y / 2) path ->
  1 <= radius -> 2 <= len_x -> 2 <= len_y ->
  exists w,
    Cy.__expand_window path len_x len_y radius = Ok w /\
    forall c, c ∈ w <->
              0 <= fst c < len_x /\ 0 <= snd c < len_y /\
              halo radius path (fst c / 2, snd c / 2).
Proof.
  intros Hpath Hr Hx Hy. eexists. split.
  - unfold Cy.__expand_window. apply expand_window_vec_ok. lia.
  - by apply expand_window_char.
Qed.

Lemma expand_window_complete_witness :
  exists w,
    Cy.__expand_window [(0, 0); (1, 0)] 4 2 1 = Ok w /\
    forall c, c ∈ w <->
              0 <= fst c < 4 /\ 0 <= snd c < 2 /\
              halo 1 [(0, 0); (1, 0)] (fst c / 2, snd c / 2).
Proof.
  apply (expand_window_complete [(0, 0); (1, 0)] 4 2 1); try lia.
  unfold warping_path. simpl. repeat split; try reflexivity.
  - unfold step_ok. simpl. auto.
  - repeat constructor; simpl; lia.
Defined.

Lemma dilate_contains_path radius path :
  0 <= radius ->
  dilate (offsets radius) path ∪ list_to_set path =
  dilate (offsets radius) path ∪ ∅.
Proof.
  intros Hr. apply set_eq. intros c.
  rewrite !elem_of_union, elem_of_list_to_set, elem_of_dilate.
  split; [|intros [H|H]; [by left | by apply elem_of_empty in H]].
  intros [H|H]; [by left|]. left. exists c. split; [exact H|].
  unfold near. lia.
Qed.

(** X21. For every radius >= 0 the four variants of __expand_window build
    the same window: the offsets held in a C++ vector or in a list, and the
    path added to the set beforehand or not, make no difference. *)
Theorem expand_window_variants_agree path len_x len_y radius :
  0 <= radius ->
  Cy.__expand_window path len_x len_y radius =
    Ok (P0.__expand_window path len_x len_y radius) /\
  P1.__expand_window path len_x len_y radius =
    Ok (P0.__expand_window path len_x len_y radius) /\
  Py.__expand_window path len_x len_y radius =
    P0.__expand_window path len_x len_y radius.
Proof.
  intros Hr. split; [by apply expand_window_vec_ok|].
  split; [by apply expand_window_vec_ok|].
  unfold Py.__expand_window, P0.__expand_window, expand_window_lst.
  by rewrite dilate_contains_path.
Qed.

Lemma expand_window_variants_agree_witness :
  Cy.__expand_window [(0, 0); (1, 1)] 5 4 1 =
    Ok (P0.__expand_window [(0, 0); (1, 1)] 5 4 1) /\
  P1.__expand_window [(0, 0); (1, 1)] 5 4 1 =
    Ok (P0.__expand_window [(0, 0); (1, 1)] 5 4 1) /\
  Py.__expand_window [(0, 0); (1, 1)] 5 4 1 =
    P0.__expand_window [(0, 0); (1, 1)] 5 4 1.
Proof. apply (expand_window_variants_agree [(0, 0); (1, 1)] 5 4 1). lia. Defined.

Lemma halo_radius_mono r r' path h : r <= r' -> halo r path h -> halo r' path h.
Proof.
  intros Hr (p & Hp & Hn). exists p. split; [exact Hp|].
  unfold near in *. lia.
Qed.

(** X22. For a coarse warping path and lengths >= 2, the window grows with
    the radius: every cell of the window built with a radius r >= 1 is in
    the window built with any radius r' >= r. *)
Theorem expand_window_radius_mono path len_x len_y r r' w w' :
  warping_path (len_x / 2) (len_y / 2) path ->
  1 <= r -> r <= r' -> 2 <= len_x -> 2 <= len_y ->
  Cy.__expand_window path len_x len_y r = Ok w ->
  Cy.__expand_window path len_x len_y r' = Ok w' ->
  forall c, c ∈ w -> c ∈ w'.
Proof.
  intros Hpath Hr Hrr Hx Hy Hw Hw' c Hc.
  unfold Cy.__expand_window in Hw, Hw'.
  rewrite expand_window_vec_ok in Hw, Hw' by lia.
  inversion Hw; subst w. inversion Hw'; subst w'.
  apply expand_window_char in Hc as (H1 & H2 & H3); try assumption.
  apply expand_window_char; try assumption; [lia|].
  split; [exact H1|]. split; [exact H2|]. by apply (halo_radius_mono r r').
Qed.

Lemma expand_window_radius_mono_witness :
  warping_path (6 / 2) (6 / 2) [(0, 0); (1, 1); (2, 2)] /\
  forall c,
    c ∈ P0.__expand_window [(0, 0); (1, 1); (2, 2)] 6 6 1 ->
    c ∈ P0.__expand_window [(0, 0); (1, 1); (2, 2)] 6 6 2.
Proof.
  assert (warping_path (6 / 2) (6 / 2) [(0, 0); (1, 1); (2, 2)]) as Hwp.
  { unfold warping_path. simpl. repeat split; try reflexivity.
    - unfold step_ok. simpl. auto.
    - unfold step_ok. simpl. auto.
    - repeat constructor; simpl; lia. }
  split; [exact Hwp|].
  apply (expand_window_radius_mono [(0, 0); (1, 1); (2, 2)] 6 6 1 2
           (P0.__expand_window [(0, 0); (1, 1); (2, 2)] 6 6 1)
           (P0.__expand_window [(0, 0); (1, 1); (2, 2)] 6 6 2) Hwp); try lia;
    vm_compute; reflexivity.
Defined.

(** ** The solver of fastdtw.pyx on a connected window *)







Lemma py_sound_decreasing D : py_sound D -> py_decreasing D.
Proof.
  intros [H0 HD] k c pi pj Hk. destruct (decide (k = (0, 0))) as [->|Hne].
  - rewrite H0 in Hk. inversion Hk; subst. by left.
  - right. destruct (HD _ _ _ _ Hk Hne) as (_ & _ & Hp & _).
    apply pred_sum_lt in Hp. simpl in Hp. lia.
Qed.









(** X25. Whatever the window, the dtw of fastdtw.pyx returns a pair or
    raises IndexError (from an element access or from the lookup of a
    1-tuple): its backtracking loop always stops. *)
Theorem py_dtw_stops f x y window :
  (exists c p, Py.dtw f x y window = Ok (c, p)) \/
  Py.dtw f x y window = Err IndexError.
Proof.
  destruct (py_dtw_outcome f x y window) as [[[c p] Hr]|He]; eauto.
Qed.

(** X26. In fastdtw.pyx the branch taken when j == len_y + 1 (lines 44-48)
    is never reached: for such a cell the access y[j] of line 37 has
    already raised IndexError. *)
Theorem py_boundary_branch_dead f x y D i :
  Py.visit f x y D (i, len y + 1) = Err IndexError.
Proof.
  destruct (py_visit_outcome f x y D i (len y + 1)) as [(D' & _ & Hj)|Hv];
    [congruence | exact Hv].
Qed.

(** ** Validation and numeric distances *)






(** ** The shape of a warping path *)






